(** * Verification of dreamDownloader's core: URL canonicalisation, the
    file cache, the in-flight registry, the transcoder's decisions and the
    voice batch aggregator.

    Python strings are modelled as Rocq [string]s of their UTF-8 bytes.
    [str.strip], [str.isspace] and the NFKC check of [urlsplit] are modelled
    on ASCII only; the theorems about URLs assume printable ASCII input,
    where the model is exact. *)

From Stdlib Require Import String Ascii List Bool Arith Lia ZArith QArith Qround Lqa.
From Stdlib Require Import Sorting.Permutation Sorting.Sorted DecimalString DecimalNat.
Import ListNotations.

(** ** URL canonicalisation ([normalize_url] in src/bot.py, on top of
    CPython's [urllib.parse]) *)
Module Url.

Local Open Scope string_scope.
Local Open Scope nat_scope.

Definition code (c : ascii) : nat := nat_of_ascii c.

Definition char_eqb (c d : ascii) : bool := Ascii.eqb c d.

(** [str.isspace] on ASCII: \t \n \v \f \r, the separators 0x1c..0x1f and ' '. *)
Definition is_space (c : ascii) : bool :=
  let n := code c in ((9 <=? n) && (n <=? 13)) || ((28 <=? n) && (n <=? 32)).

(** [_WHATWG_C0_CONTROL_OR_SPACE]: bytes 0x00..0x20. *)
Definition is_c0_or_space (c : ascii) : bool := code c <=? 32.

(** [_UNSAFE_URL_BYTES_TO_REMOVE]: tab, CR and LF. *)
Definition is_unsafe (c : ascii) : bool :=
  let n := code c in (n =? 9) || (n =? 10) || (n =? 13).

Fixpoint lstrip_by (p : ascii -> bool) (s : string) : string :=
  match s with
  | EmptyString => EmptyString
  | String c s' => if p c then lstrip_by p s' else s
  end.

Fixpoint rstrip_by (p : ascii -> bool) (s : string) : string :=
  match s with
  | EmptyString => EmptyString
  | String c s' =>
      match rstrip_by p s' with
      | EmptyString => if p c then EmptyString else String c EmptyString
      | r => String c r
      end
  end.

Fixpoint remove_by (p : ascii -> bool) (s : string) : string :=
  match s with
  | EmptyString => EmptyString
  | String c s' => if p c then remove_by p s' else String c (remove_by p s')
  end.

(** [s.strip()] and [s.rstrip()] on ASCII whitespace (Python also strips
    Unicode whitespace such as U+00A0). *)
Definition strip (s : string) : string := rstrip_by is_space (lstrip_by is_space s).
Definition rstrip (s : string) : string := rstrip_by is_space s.

(** [s.rstrip('/')] *)
Definition rstrip_slash (s : string) : string := rstrip_by (char_eqb "/") s.

(** [c in s] *)
Fixpoint mem (c : ascii) (s : string) : bool :=
  match s with
  | EmptyString => false
  | String d s' => char_eqb c d || mem c s'
  end.

(** [sub in s] for strings *)
Fixpoint contains (sub s : string) : bool :=
  prefix sub s ||
  match s with
  | EmptyString => false
  | String _ s' => contains sub s'
  end.

(** [s.split(c, 1)] when [c in s] *)
Fixpoint split_once (c : ascii) (s : string) : option (string * string) :=
  match s with
  | EmptyString => None
  | String d s' =>
      if char_eqb c d then Some (EmptyString, s')
      else match split_once c s' with
           | Some (a, b) => Some (String d a, b)
           | None => None
           end
  end.

(** [s.split(c)] *)
Fixpoint split_all (c : ascii) (s : string) : list string :=
  match s with
  | EmptyString => [EmptyString]
  | String d s' =>
      if char_eqb c d then EmptyString :: split_all c s'
      else match split_all c s' with
           | a :: rest => String d a :: rest
           | [] => [String d EmptyString]
           end
  end.

(** [sep.join(l)] *)
Fixpoint join (sep : string) (l : list string) : string :=
  match l with
  | [] => EmptyString
  | [x] => x
  | x :: rest => x ++ sep ++ join sep rest
  end.

(** [s.find(c, start)] and [s.rfind(c)] *)
Fixpoint find_from (c : ascii) (s : string) (start : nat) : option nat :=
  match s with
  | EmptyString => None
  | String d s' =>
      match start with
      | O => if char_eqb c d then Some 0
             else option_map S (find_from c s' 0)
      | S k => option_map S (find_from c s' k)
      end
  end.

Fixpoint rfind (c : ascii) (s : string) : option nat :=
  match s with
  | EmptyString => None
  | String d s' =>
      match rfind c s' with
      | Some i => Some (S i)
      | None => if char_eqb c d then Some 0 else None
      end
  end.

Definition is_ascii_alpha (c : ascii) : bool :=
  let n := code c in ((65 <=? n) && (n <=? 90)) || ((97 <=? n) && (n <=? 122)).
Definition is_digit (c : ascii) : bool := let n := code c in (48 <=? n) && (n <=? 57).

(** [scheme_chars]: letters, digits and "+-." *)
Definition is_scheme_char (c : ascii) : bool :=
  is_ascii_alpha c || is_digit c || mem c "+-.".

Definition lower_char (c : ascii) : ascii :=
  let n := code c in if (65 <=? n) && (n <=? 90) then ascii_of_nat (n + 32) else c.

Fixpoint lower (s : string) : string :=
  match s with
  | EmptyString => EmptyString
  | String c s' => String (lower_char c) (lower s')
  end.

Fixpoint forall_chars (p : ascii -> bool) (s : string) : bool :=
  match s with
  | EmptyString => true
  | String c s' => p c && forall_chars p s'
  end.

Fixpoint in_list (s : string) (l : list string) : bool :=
  match l with
  | [] => false
  | x :: l' => String.eqb s x || in_list s l'
  end.

Definition uses_params : list string :=
  [""; "ftp"; "hdl"; "prospero"; "http"; "imap"; "https"; "shttp"; "rtsp";
   "rtsps"; "rtspu"; "sip"; "sips"; "mms"; "sftp"; "tel"].

Definition uses_netloc : list string :=
  [""; "ftp"; "http"; "gopher"; "nntp"; "telnet"; "imap"; "wais"; "file";
   "mms"; "https"; "shttp"; "snews"; "prospero"; "rtsp"; "rtsps"; "rtspu";
   "rsync"; "svn"; "svn+ssh"; "sftp"; "nfs"; "git"; "git+ssh"; "ws"; "wss";
   "itms-services"].

(** [_splitnetloc(url, 2)] applied to the text after "//": the netloc runs
    up to the first '/', '?' or '#'. *)
Fixpoint splitnetloc (s : string) : string * string :=
  match s with
  | EmptyString => (EmptyString, EmptyString)
  | String c s' =>
      if mem c "/?#" then (EmptyString, s)
      else let (n, r) := splitnetloc s' in (String c n, r)
  end.

Record split_result := SplitResult {
  sr_scheme : string; sr_netloc : string; sr_path : string;
  sr_query : string; sr_fragment : string }.

Record parse_result := ParseResult {
  scheme : string; netloc : string; path : string; params : string;
  query : string; fragment : string }.

(** The scheme test of [urlsplit]: [url[:i]] before the first ':' with
    [i > 0], [url[0]] an ASCII letter and every character in [scheme_chars]. *)
Definition split_scheme (url : string) : string * string :=
  match split_once ":" url with
  | Some (pre, post) =>
      match pre with
      | String c _ =>
          if is_ascii_alpha c && forall_chars is_scheme_char pre
          then (lower pre, post) else (EmptyString, url)
      | EmptyString => (EmptyString, url)
      end
  | None => (EmptyString, url)
  end.

(** [urlsplit(url)] (CPython 3.12, [allow_fragments=True]); [None] is the
    "Invalid IPv6 URL" [ValueError] raised for an unbalanced bracket.  The
    validation of a balanced bracketed IPv6 host is not modelled, nor the
    NFKC check of [_checknetloc], which returns at once on an ASCII
    netloc. *)
Definition urlsplit (url0 : string) : option split_result :=
  let url1 := remove_by is_unsafe (lstrip_by is_c0_or_space url0) in
  let (sch, url2) := split_scheme url1 in
  let (net, url3) :=
    match url2 with
    | String "/" (String "/" rest) => splitnetloc rest
    | _ => (EmptyString, url2)
    end in
  if (mem "[" net && negb (mem "]" net)) || (mem "]" net && negb (mem "[" net))
  then None
  else
    let (url4, frag) :=
      match split_once "#" url3 with Some p => p | None => (url3, EmptyString) end in
    let (url5, qry) :=
      match split_once "?" url4 with Some p => p | None => (url4, EmptyString) end in
    Some (SplitResult sch net url5 qry frag).

(** [_splitparams(url)] *)
Definition splitparams (url : string) : string * string :=
  let i := if mem "/" url
           then match rfind "/" url with
                | Some j => find_from ";" url j
                | None => None
                end
           else find_from ";" url 0 in
  match i with
  | None => (url, EmptyString)
  | Some i => (substring 0 i url, substring (S i) (String.length url - S i) url)
  end.

(** [urlparse(url)] *)
Definition urlparse (url : string) : option parse_result :=
  match urlsplit url with
  | None => None
  | Some (SplitResult sch net pth qry frag) =>
      let (pth', prm) :=
        if in_list sch uses_params && mem ";" pth then splitparams pth
        else (pth, EmptyString) in
      Some (ParseResult sch net pth' prm qry frag)
  end.

Definition is_empty (s : string) : bool :=
  match s with EmptyString => true | _ => false end.

(** [urlunsplit] (CPython 3.12) *)
Definition urlunsplit (sch net url qry frag : string) : string :=
  let url :=
    if negb (is_empty net) then
      let url := match url with
                 | String "/" _ => url
                 | EmptyString => url
                 | _ => "/" ++ url
                 end in
      "//" ++ net ++ url
    else match url with
         | String "/" (String "/" _) => "//" ++ url
         | _ =>
             if negb (is_empty sch) && in_list sch uses_netloc &&
                (match url with EmptyString => true | String "/" _ => true | _ => false end)
             then "//" ++ url else url
         end in
  let url := if is_empty sch then url else sch ++ ":" ++ url in
  let url := if is_empty qry then url else url ++ "?" ++ qry in
  if is_empty frag then url else url ++ "#" ++ frag.

(** [urlunparse] *)
Definition urlunparse (sch net url prm qry frag : string) : string :=
  let url := if is_empty prm then url else url ++ ";" ++ prm in
  urlunsplit sch net url qry frag.

(** *** Query strings: [parse_qs], [urlencode(..., doseq=True)] *)

Definition hex_value (c : ascii) : option nat :=
  let n := code c in
  if (48 <=? n) && (n <=? 57) then Some (n - 48)
  else if (65 <=? n) && (n <=? 70) then Some (n - 55)
  else if (97 <=? n) && (n <=? 102) then Some (n - 87)
  else None.

(** [unquote_to_bytes]: a '%' followed by two hex digits becomes that
    byte, any other character (a stray '%' included) is kept. *)
Fixpoint unquote_bytes (s : string) : string :=
  match s with
  | String "%" (String a (String b rest) as tl) =>
      match hex_value a, hex_value b with
      | Some x, Some y => String (ascii_of_nat (x * 16 + y)) (unquote_bytes rest)
      | _, _ => String "%" (unquote_bytes tl)
      end
  | String c rest => String c (unquote_bytes rest)
  | EmptyString => EmptyString
  end.

(** A continuation byte 80..BF. *)
Definition is_cont (n : nat) : bool := (128 <=? n) && (n <=? 191).

(** The bytes that may follow a lead byte [n] (E0, ED, F0 and F4 narrow the
    range, excluding overlong forms, surrogates and code points beyond
    10FFFF). *)
Definition second_ok (n m : nat) : bool :=
  is_cont m &&
  (if n =? 224 then 160 <=? m
   else if n =? 237 then m <? 160
   else if n =? 240 then 144 <=? m
   else if n =? 244 then m <? 144
   else true).

(** U+FFFD in UTF-8 *)
Definition fffd : string :=
  String (ascii_of_nat 239) (String (ascii_of_nat 191) (String (ascii_of_nat 189) EmptyString)).

(** [b.decode('utf-8', 'replace')] on bytes [b], encoded back in UTF-8:
    CPython's decoder replaces each maximal invalid subpart (a byte that
    cannot start a sequence, or the valid beginning of a sequence cut short
    by a bad byte or by the end) by U+FFFD, EF BF BD in UTF-8. *)
Fixpoint utf8_replace (s : string) : string :=
  match s with
  | EmptyString => EmptyString
  | String c r =>
      let n := code c in
      if n <? 128 then String c (utf8_replace r)
      else if n <? 194 then fffd ++ utf8_replace r
      else if n <? 224 then
        match r with
        | EmptyString => fffd
        | String c2 r2 =>
            if is_cont (code c2) then String c (String c2 (utf8_replace r2))
            else fffd ++ utf8_replace r
        end
      else if n <? 240 then
        match r with
        | EmptyString => fffd
        | String c2 r2 =>
            if second_ok n (code c2) then
              match r2 with
              | EmptyString => fffd
              | String c3 r3 =>
                  if is_cont (code c3) then String c (String c2 (String c3 (utf8_replace r3)))
                  else fffd ++ utf8_replace r2
              end
            else fffd ++ utf8_replace r
        end
      else if n <? 245 then
        match r with
        | EmptyString => fffd
        | String c2 r2 =>
            if second_ok n (code c2) then
              match r2 with
              | EmptyString => fffd
              | String c3 r3 =>
                  if is_cont (code c3) then
                    match r3 with
                    | EmptyString => fffd
                    | String c4 r4 =>
                        if is_cont (code c4)
                        then String c (String c2 (String c3 (String c4 (utf8_replace r4))))
                        else fffd ++ utf8_replace r3
                    end
                  else fffd ++ utf8_replace r2
              end
            else fffd ++ utf8_replace r
        end
      else fffd ++ utf8_replace r
  end.

Definition is_ascii (c : ascii) : bool := code c <? 128.

(** The maximal runs of ASCII and of non-ASCII characters, tagged [true]
    for ASCII ([_asciire = re.compile('([\x00-\x7f]+)')]). *)
Fixpoint runs (s : string) : list (bool * string) :=
  match s with
  | EmptyString => []
  | String c r =>
      let a := is_ascii c in
      match runs r with
      | (b, t) :: rest =>
          if Bool.eqb a b then (b, String c t) :: rest
          else (a, String c EmptyString) :: (b, t) :: rest
      | [] => [(a, String c EmptyString)]
      end
  end.

(** [unquote(s)] (CPython 3.12, encoding 'utf-8', errors 'replace'): a
    string without '%' is returned as it is; otherwise each ASCII run is
    unquoted to bytes and decoded, and the non-ASCII runs are kept. *)
Definition unquote (s : string) : string :=
  if mem "%" s then
    String.concat EmptyString
      (map (fun r : bool * string => if fst r then utf8_replace (unquote_bytes (snd r)) else snd r) (runs s))
  else s.

(** [s.replace('+', ' ')] *)
Fixpoint plus_to_space (s : string) : string :=
  match s with
  | EmptyString => EmptyString
  | String c s' => String (if char_eqb c "+" then " "%char else c) (plus_to_space s')
  end.

(** [parse_qsl(qs)] with [keep_blank_values=False], [strict_parsing=False]:
    empty fields, fields without '=' and fields with an empty value are
    dropped. *)
Definition parse_qsl (qs : string) : list (string * string) :=
  let fields := if is_empty qs then [] else split_all "&" qs in
  flat_map (fun nv =>
    if is_empty nv then []
    else match split_once "=" nv with
         | None => []
         | Some (n, v) =>
             if is_empty v then []
             else [(unquote (plus_to_space n), unquote (plus_to_space v))]
         end) fields.

(** A Python [dict] from names to lists of values, in insertion order. *)
Definition qdict := list (string * list string).

Fixpoint qd_add (d : qdict) (k v : string) : qdict :=
  match d with
  | [] => [(k, [v])]
  | (k', vs) :: d' =>
      if String.eqb k k' then (k', app vs [v]) :: d' else (k', vs) :: qd_add d' k v
  end.

Fixpoint qd_lookup (d : qdict) (k : string) : option (list string) :=
  match d with
  | [] => None
  | (k', vs) :: d' => if String.eqb k k' then Some vs else qd_lookup d' k
  end.

(** [parse_qs(qs)] *)
Definition parse_qs (qs : string) : qdict :=
  fold_left (fun d kv => qd_add d (fst kv) (snd kv)) (parse_qsl qs) [].

Definition always_safe (c : ascii) : bool :=
  is_ascii_alpha c || is_digit c || mem c "_.-~".

Definition hex_digit (n : nat) : ascii :=
  if n <? 10 then ascii_of_nat (48 + n) else ascii_of_nat (55 + n).

(** [quote_plus(s, safe='')]: always-safe bytes are kept, ' ' becomes '+',
    every other byte becomes '%XX' (upper-case hex). *)
Fixpoint quote_plus (s : string) : string :=
  match s with
  | EmptyString => EmptyString
  | String c s' =>
      if always_safe c then String c (quote_plus s')
      else if char_eqb c " " then String "+" (quote_plus s')
      else String "%" (String (hex_digit (code c / 16))
                         (String (hex_digit (code c mod 16)) (quote_plus s')))
  end.

(** [urlencode(d, doseq=True)] *)
Definition urlencode (d : qdict) : string :=
  join "&" (flat_map (fun kv =>
    map (fun v => quote_plus (fst kv) ++ "=" ++ quote_plus v) (snd kv)) d).

(** ** [normalize_url] *)
Definition normalize_url (url0 : string) : string :=
  if is_empty url0 then url0 else
  let url := strip url0 in
  match urlparse url with
  | None => rstrip url
  | Some p =>
      if contains "instagram.com" (netloc p) || contains "facebook.com" (netloc p) then
        let q := parse_qs (query p) in
        let filtered_query :=
          match qd_lookup q "img_index" with
          | Some vs => [("img_index", vs)]
          | None => []
          end in
        let new_query := urlencode filtered_query in
        urlunparse (scheme p) (netloc p) (rstrip_slash (path p)) (params p) new_query ""
      else if contains "tiktok.com" (netloc p) then
        urlunparse (scheme p) (netloc p) (rstrip_slash (path p)) (params p) "" ""
      else if contains "youtube.com" (netloc p) || contains "youtu.be" (netloc p) then
        let q := parse_qs (query p) in
        let allowed_params := ["v"; "t"] in
        let filtered_query := filter (fun kv => in_list (fst kv) allowed_params) q in
        let new_query := urlencode filtered_query in
        urlunparse (scheme p) (netloc p) (rstrip_slash (path p)) (params p) new_query ""
      else if contains "soundcloud.com" (netloc p) then
        urlunparse (scheme p) (netloc p) (rstrip_slash (path p)) (params p) "" ""
      else rstrip url
  end.

(** *** Facts about the string primitives *)

Lemma forall_chars_app (p : ascii -> bool) (a b : string) :
  forall_chars p (a ++ b) = forall_chars p a && forall_chars p b.
Proof. induction a as [|c a IH]; simpl; [reflexivity|]. rewrite IH, andb_assoc. reflexivity. Qed.

Lemma forall_chars_mem (p : ascii -> bool) (c : ascii) (s : string) :
  forall_chars p s = true -> p c = false -> mem c s = false.
Proof.
  induction s as [|d s IH]; simpl; [reflexivity|].
  intros H Hc. apply andb_prop in H as [Hd Hs].
  rewrite IH by assumption.
  destruct (char_eqb c d) eqn:E; [|reflexivity].
  apply Ascii.eqb_eq in E. subst. congruence.
Qed.

Lemma forall_chars_impl (p q : ascii -> bool) (s : string) :
  (forall c, p c = true -> q c = true) ->
  forall_chars p s = true -> forall_chars q s = true.
Proof.
  intros Hpq. induction s as [|c s IH]; simpl; [reflexivity|].
  intros H. apply andb_prop in H as [H1 H2]. rewrite Hpq, IH; auto.
Qed.

(** Every byte satisfies [P] when the 256 bytes, enumerated, do. *)
Definition all_bytes : list ascii := map ascii_of_nat (seq 0 256).

Lemma ascii_forall (P : ascii -> bool) :
  forallb P all_bytes = true -> forall c, P c = true.
Proof.
  intros H c. rewrite forallb_forall in H. apply H.
  unfold all_bytes. rewrite <- (ascii_nat_embedding c).
  apply in_map. apply in_seq.
  pose proof (nat_ascii_bounded c). unfold code in *. lia.
Qed.

Lemma lstrip_by_id (p : ascii -> bool) (s : string) :
  forall_chars (fun c => negb (p c)) s = true -> lstrip_by p s = s.
Proof.
  destruct s as [|c s]; simpl; [reflexivity|].
  intros H. apply andb_prop in H as [H _]. destruct (p c); [discriminate|reflexivity].
Qed.

Lemma rstrip_by_id (p : ascii -> bool) (s : string) :
  forall_chars (fun c => negb (p c)) s = true -> rstrip_by p s = s.
Proof.
  induction s as [|c s IH]; simpl; [reflexivity|].
  intros H. apply andb_prop in H as [Hc Hs]. rewrite IH by assumption.
  destruct s; [destruct (p c); [discriminate|reflexivity]|reflexivity].
Qed.

Lemma remove_by_id (p : ascii -> bool) (s : string) :
  forall_chars (fun c => negb (p c)) s = true -> remove_by p s = s.
Proof.
  induction s as [|c s IH]; simpl; [reflexivity|].
  intros H. apply andb_prop in H as [Hc Hs]. rewrite IH by assumption.
  destruct (p c); [discriminate|reflexivity].
Qed.

(** [s.rstrip(chars)] is a prefix of [s]. *)
Lemma rstrip_by_prefix (p : ascii -> bool) (s : string) :
  exists t, s = rstrip_by p s ++ t.
Proof.
  induction s as [|c s [t IH]]; simpl; [exists ""; reflexivity|].
  destruct (rstrip_by p s) as [|d r] eqn:E.
  - destruct (p c); [exists (String c s)|exists s]; reflexivity.
  - exists t. simpl. rewrite IH at 1. reflexivity.
Qed.

Lemma rstrip_by_cons (p : ascii -> bool) (c : ascii) (s : string) :
  rstrip_by p (String c s) =
  match rstrip_by p s with
  | EmptyString => if p c then EmptyString else String c EmptyString
  | r => String c r
  end.
Proof. reflexivity. Qed.

Lemma rstrip_by_idem (p : ascii -> bool) (s : string) :
  rstrip_by p (rstrip_by p s) = rstrip_by p s.
Proof.
  induction s as [|c s IH]; simpl; [reflexivity|].
  destruct (rstrip_by p s) as [|d r] eqn:E.
  - destruct (p c) eqn:Pc; simpl; [reflexivity|]. rewrite Pc. reflexivity.
  - rewrite rstrip_by_cons, IH. reflexivity.
Qed.

Lemma lstrip_by_first (p : ascii -> bool) (s : string) :
  match lstrip_by p s with EmptyString => True | String c _ => p c = false end.
Proof.
  induction s as [|c s IH]; simpl; [exact I|].
  destruct (p c) eqn:E; [exact IH|exact E].
Qed.

Lemma strip_idem (s : string) : strip (strip s) = strip s.
Proof.
  unfold strip.
  pose proof (lstrip_by_first is_space s) as Hf.
  destruct (rstrip_by_prefix is_space (lstrip_by is_space s)) as [t Ht].
  destruct (lstrip_by is_space s) as [|c l] eqn:E.
  - reflexivity.
  - destruct (rstrip_by is_space (String c l)) as [|d r] eqn:R.
    + reflexivity.
    + simpl in Ht. injection Ht as -> _.
      simpl. rewrite Hf. rewrite <- R, rstrip_by_idem. reflexivity.
Qed.

Lemma append_nil_r (s : string) : s ++ "" = s.
Proof. induction s as [|c s IH]; simpl; [reflexivity|]. rewrite IH. reflexivity. Qed.

Lemma append_assoc (a b c : string) : (a ++ b) ++ c = a ++ (b ++ c).
Proof. induction a as [|x a IH]; simpl; [reflexivity|]. rewrite IH. reflexivity. Qed.

Lemma mem_app (c : ascii) (a b : string) : mem c (a ++ b) = mem c a || mem c b.
Proof. induction a as [|d a IH]; simpl; [reflexivity|]. rewrite IH, orb_assoc. reflexivity. Qed.

Lemma split_once_app (c : ascii) (a b : string) :
  mem c a = false ->
  split_once c (a ++ b) =
  match split_once c b with Some (x, y) => Some (a ++ x, y) | None => None end.
Proof.
  induction a as [|d a IH]; simpl.
  - intros _. destruct (split_once c b) as [[x y]|]; reflexivity.
  - intros H. apply orb_false_elim in H as [H1 H2]. rewrite H1, IH by assumption.
    destruct (split_once c b) as [[x y]|]; reflexivity.
Qed.

Lemma split_once_none (c : ascii) (s : string) : mem c s = false -> split_once c s = None.
Proof.
  intros H. pose proof (split_once_app c s "" H) as E.
  rewrite append_nil_r in E. rewrite E. reflexivity.
Qed.

Lemma split_once_here (c : ascii) (a b : string) :
  mem c a = false -> split_once c (a ++ String c b) = Some (a, b).
Proof.
  intros H. rewrite split_once_app by assumption. simpl.
  rewrite Ascii.eqb_refl. rewrite append_nil_r. reflexivity.
Qed.

(** *** [parse_qs] inverts [urlencode] *)

Definition enc_char (c : ascii) : bool := (32 <? code c) && (code c <? 127) && negb (mem c "&=#").

Lemma always_safe_facts :
  forall c, implb (always_safe c)
    (enc_char c && negb (char_eqb c "+") && negb (char_eqb c "%")) = true.
Proof. apply ascii_forall. vm_compute. reflexivity. Qed.

Lemma hex_facts :
  forall c,
    let H := hex_digit (code c / 16) in
    let L := hex_digit (code c mod 16) in
    enc_char H && enc_char L && negb (char_eqb H "+") && negb (char_eqb L "+") &&
    match hex_value H, hex_value L with
    | Some x, Some y => Ascii.eqb (ascii_of_nat (x * 16 + y)) c
    | _, _ => false
    end = true.
Proof. apply ascii_forall. vm_compute. reflexivity. Qed.

(** *** UTF-8 decoding with replacement *)

(** A prefix the decoder passes over unchanged, whatever follows. *)
Definition good (p : string) : Prop := forall t, utf8_replace (p ++ t) = p ++ utf8_replace t.

Lemma good_fffd : good fffd.
Proof. intros t. reflexivity. Qed.

Ltac unit_fin g :=
  split; [discriminate|split; [g|split; [simpl; lia|reflexivity]]].
Ltac bad r' := exists fffd, r'; unit_fin ltac:(apply good_fffd).

Lemma utf8_replace_unit (c : ascii) (r : string) :
  exists p r', p <> EmptyString /\ good p /\ String.length r' <= String.length r /\
    utf8_replace (String c r) = p ++ utf8_replace r'.
Proof.
  simpl utf8_replace.
  destruct (code c <? 128) eqn:E1.
  { exists (String c EmptyString), r. unit_fin ltac:(intros t; simpl; rewrite E1; reflexivity). }
  destruct (code c <? 194) eqn:E2; [bad r|].
  destruct (code c <? 224) eqn:E3.
  { destruct r as [|c2 r2]; [bad EmptyString|].
    destruct (is_cont (code c2)) eqn:E4; [|bad (String c2 r2)].
    exists (String c (String c2 EmptyString)), r2.
    unit_fin ltac:(intros t; simpl; rewrite E1, E2, E3, E4; reflexivity). }
  destruct (code c <? 240) eqn:E5.
  { destruct r as [|c2 r2]; [bad EmptyString|].
    destruct (second_ok (code c) (code c2)) eqn:E6; [|bad (String c2 r2)].
    destruct r2 as [|c3 r3]; [bad EmptyString|].
    destruct (is_cont (code c3)) eqn:E7; [|bad (String c3 r3)].
    exists (String c (String c2 (String c3 EmptyString))), r3.
    unit_fin ltac:(intros t; simpl; rewrite E1, E2, E3, E5, E6, E7; reflexivity). }
  destruct (code c <? 245) eqn:E8; [|bad r].
  destruct r as [|c2 r2]; [bad EmptyString|].
  destruct (second_ok (code c) (code c2)) eqn:E6; [|bad (String c2 r2)].
  destruct r2 as [|c3 r3]; [bad EmptyString|].
  destruct (is_cont (code c3)) eqn:E7; [|bad (String c3 r3)].
  destruct r3 as [|c4 r4]; [bad EmptyString|].
  destruct (is_cont (code c4)) eqn:E9; [|bad (String c4 r4)].
  exists (String c (String c2 (String c3 (String c4 EmptyString)))), r4.
  unit_fin ltac:(intros t; simpl; rewrite E1, E2, E3, E5, E8, E6, E7, E9; reflexivity).
Qed.

(** The decoder's output is valid UTF-8. *)
Lemma utf8_replace_idem (s : string) : utf8_replace (utf8_replace s) = utf8_replace s.
Proof.
  remember (String.length s) as n eqn:En. assert (Hn : String.length s <= n) by lia. clear En.
  revert s Hn. induction n as [|n IH]; intros s Hn.
  - destruct s; [reflexivity|cbn in Hn; lia].
  - destruct s as [|c r]; [reflexivity|].
    destruct (utf8_replace_unit c r) as (p & r' & _ & Hp & Hl & E).
    rewrite E, Hp, IH; [reflexivity|]. cbn in Hn. lia.
Qed.

Lemma utf8_replace_nonempty (s : string) : s <> EmptyString -> utf8_replace s <> EmptyString.
Proof.
  destruct s as [|c r]; [congruence|intros _].
  destruct (utf8_replace_unit c r) as (p & r' & Hp & _ & _ & E). rewrite E.
  destruct p; [congruence|discriminate].
Qed.

Lemma utf8_replace_ascii (s : string) :
  forall_chars is_ascii s = true -> utf8_replace s = s.
Proof.
  induction s as [|c r IH]; simpl; [reflexivity|]. intros H.
  apply andb_prop in H as [Hc Hr]. unfold is_ascii in Hc. rewrite Hc, IH by exact Hr.
  reflexivity.
Qed.

Lemma unquote_bytes_nopct (s : string) : mem "%" s = false -> unquote_bytes s = s.
Proof.
  induction s as [|c r IH]; [reflexivity|]. simpl mem. intros H.
  apply orb_false_elim in H as [Hc Hr].
  assert (Hc' : c <> "%"%char) by (intros ->; discriminate).
  destruct c as [[] [] [] [] [] [] [] []]; try (simpl; rewrite IH by exact Hr; reflexivity).
  congruence.
Qed.

Lemma runs_ascii (s : string) :
  forall_chars is_ascii s = true -> s <> EmptyString -> runs s = [(true, s)].
Proof.
  induction s as [|c r IH]; [congruence|]. simpl forall_chars. intros H _.
  apply andb_prop in H as [Hc Hr]. simpl runs. rewrite Hc.
  destruct r as [|d r'].
  - reflexivity.
  - rewrite IH by (exact Hr || discriminate). reflexivity.
Qed.

(** On ASCII text [unquote] decodes the unquoted bytes. *)
Lemma unquote_ascii (s : string) :
  forall_chars is_ascii s = true ->
  unquote s = if mem "%" s then utf8_replace (unquote_bytes s) else s.
Proof.
  intros H. unfold unquote. destruct (mem "%" s) eqn:E; [|reflexivity].
  rewrite runs_ascii by (exact H || (intros ->; discriminate)). reflexivity.
Qed.

Lemma plus_to_space_ascii (s : string) :
  forall_chars is_ascii s = true -> forall_chars is_ascii (plus_to_space s) = true.
Proof.
  induction s as [|c r IH]; simpl; [reflexivity|]. intros H.
  apply andb_prop in H as [Hc Hr]. rewrite IH by exact Hr.
  destruct (char_eqb c "+"); [reflexivity|]. rewrite Hc. reflexivity.
Qed.

Lemma enc_ascii : forall c, implb (enc_char c) (is_ascii c) = true.
Proof. apply ascii_forall. vm_compute. reflexivity. Qed.

Lemma unquote_bytes_cons (c : ascii) (s : string) :
  c <> "%"%char -> unquote_bytes (String c s) = String c (unquote_bytes s).
Proof. destruct c as [[] [] [] [] [] [] [] []]; intros H; try reflexivity; congruence. Qed.

Lemma unquote_bytes_pct (a b : ascii) (r : string) :
  unquote_bytes (String "%" (String a (String b r))) =
  match hex_value a, hex_value b with
  | Some x, Some y => String (ascii_of_nat (x * 16 + y)) (unquote_bytes r)
  | _, _ => String "%" (unquote_bytes (String a (String b r)))
  end.
Proof. reflexivity. Qed.

Lemma plus_to_space_other (c : ascii) (s : string) :
  char_eqb c "+" = false -> plus_to_space (String c s) = String c (plus_to_space s).
Proof. intros H. simpl. rewrite H. reflexivity. Qed.

Lemma quote_plus_cons (c : ascii) (s : string) :
  quote_plus (String c s) =
  if always_safe c then String c (quote_plus s)
  else if char_eqb c " " then String "+" (quote_plus s)
  else String "%" (String (hex_digit (code c / 16))
                     (String (hex_digit (code c mod 16)) (quote_plus s))).
Proof. reflexivity. Qed.

Lemma quote_plus_roundtrip_bytes (s : string) :
  unquote_bytes (plus_to_space (quote_plus s)) = s.
Proof.
  induction s as [|c s IH]; [reflexivity|]. rewrite quote_plus_cons.
  pose proof (always_safe_facts c) as Hs.
  destruct (always_safe c) eqn:Safe.
  - simpl in Hs. apply andb_prop in Hs as [Hs Hpct]. apply andb_prop in Hs as [_ Hplus].
    apply negb_true_iff in Hplus, Hpct.
    rewrite plus_to_space_other by assumption.
    rewrite unquote_bytes_cons, IH; [reflexivity|].
    intros ->. discriminate.
  - destruct (char_eqb c " ") eqn:Sp.
    + apply Ascii.eqb_eq in Sp. subst c. simpl. rewrite IH. reflexivity.
    + pose proof (hex_facts c) as Hx. cbv zeta in Hx.
      set (H := hex_digit (code c / 16)) in *.
      set (L := hex_digit (code c mod 16)) in *.
      apply andb_prop in Hx as [Hx Hdec]. apply andb_prop in Hx as [Hx HL].
      apply andb_prop in Hx as [Hx HH]. apply negb_true_iff in HH, HL.
      rewrite plus_to_space_other by reflexivity.
      rewrite plus_to_space_other by assumption.
      rewrite plus_to_space_other by assumption.
      rewrite unquote_bytes_pct.
      destruct (hex_value H); [|discriminate].
      destruct (hex_value L); [|discriminate].
      apply Ascii.eqb_eq in Hdec. rewrite Hdec, IH. reflexivity.
Qed.

Lemma quote_plus_enc (s : string) : forall_chars enc_char (quote_plus s) = true.
Proof.
  induction s as [|c s IH]; [reflexivity|]. rewrite quote_plus_cons.
  pose proof (always_safe_facts c) as Hs.
  destruct (always_safe c) eqn:Safe.
  - simpl in Hs. simpl forall_chars. rewrite IH.
    apply andb_prop in Hs as [Hs _]. apply andb_prop in Hs as [Hs _].
    rewrite Hs. reflexivity.
  - destruct (char_eqb c " ").
    + simpl forall_chars. rewrite IH. reflexivity.
    + pose proof (hex_facts c) as Hx. cbv zeta in Hx.
      set (H := hex_digit (code c / 16)) in *.
      set (L := hex_digit (code c mod 16)) in *.
      apply andb_prop in Hx as [Hx _]. apply andb_prop in Hx as [Hx _].
      apply andb_prop in Hx as [Hx _]. apply andb_prop in Hx as [HH HL].
      simpl forall_chars. rewrite IH, HH, HL. reflexivity.
Qed.

Lemma quote_plus_ascii (s : string) :
  forall_chars is_ascii (plus_to_space (quote_plus s)) = true.
Proof.
  apply plus_to_space_ascii. eapply forall_chars_impl; [|apply quote_plus_enc].
  intros c Hc. pose proof (enc_ascii c) as F. rewrite Hc in F. exact F.
Qed.

(** [unquote] inverts [quote_plus] on valid UTF-8. *)
Lemma quote_plus_roundtrip (s : string) :
  utf8_replace s = s -> unquote (plus_to_space (quote_plus s)) = s.
Proof.
  intros Hs. rewrite unquote_ascii by apply quote_plus_ascii.
  destruct (mem "%" (plus_to_space (quote_plus s))) eqn:E.
  - rewrite quote_plus_roundtrip_bytes. exact Hs.
  - rewrite <- (unquote_bytes_nopct _ E). apply quote_plus_roundtrip_bytes.
Qed.

Lemma quote_plus_nonempty (s : string) : s <> "" -> quote_plus s <> "".
Proof.
  destruct s as [|c s]; [congruence|]. intros _. simpl.
  destruct (always_safe c); [discriminate|]. destruct (char_eqb c " "); discriminate.
Qed.

Lemma split_all_nonnil (c : ascii) (t : string) : split_all c t <> [].
Proof.
  destruct t as [|d t]; simpl; [discriminate|].
  destruct (char_eqb c d); [discriminate|]. destruct (split_all c t); discriminate.
Qed.

Lemma split_all_app (c : ascii) (a t y : string) (r : list string) :
  mem c a = false -> split_all c t = y :: r ->
  split_all c (a ++ t) = (a ++ y) :: r.
Proof.
  intros Ha Ht. induction a as [|d a IH]; simpl; [exact Ht|].
  simpl in Ha. apply orb_false_elim in Ha as [H1 H2]. rewrite H1, IH by assumption.
  reflexivity.
Qed.

Lemma split_all_join (c : ascii) (l : list string) :
  l <> [] -> Forall (fun x => mem c x = false) l ->
  split_all c (join (String c EmptyString) l) = l.
Proof.
  induction l as [|x l IH]; [congruence|]. intros _ Hl. inversion Hl as [|? ? Hx Hr]; subst.
  destruct l as [|y l].
  - simpl. pose proof (split_all_app c x "" "" [] Hx eq_refl) as E.
    rewrite !append_nil_r in E. exact E.
  - change (join (String c "") (x :: y :: l))
      with (x ++ String c "" ++ join (String c "") (y :: l)).
    erewrite split_all_app; [rewrite append_nil_r; reflexivity|assumption|].
    cbn [append split_all]. rewrite Ascii.eqb_refl.
    rewrite IH by (discriminate || assumption). reflexivity.
Qed.

(** The (name, value) pairs a [dict] of lists stands for, in order. *)
Definition flatten (d : qdict) : list (string * string) :=
  flat_map (fun kv => map (fun v => (fst kv, v)) (snd kv)) d.

Definition enc_pair (kv : string * string) : string :=
  quote_plus (fst kv) ++ "=" ++ quote_plus (snd kv).

Lemma urlencode_flatten (d : qdict) :
  urlencode d = join "&" (map enc_pair (flatten d)).
Proof.
  unfold urlencode, flatten. f_equal.
  induction d as [|[k vs] d IH]; cbn [flat_map]; [reflexivity|].
  rewrite map_app, IH, map_map. reflexivity.
Qed.

(** Names and values are valid UTF-8 (Python [str]s), and each name has a
    non-empty list of non-empty values. *)
Definition vals_ok (d : qdict) : Prop :=
  Forall (fun kv => utf8_replace (fst kv) = fst kv /\ snd kv <> [] /\
                    Forall (fun v => v <> EmptyString /\ utf8_replace v = v) (snd kv)) d.

Lemma enc_char_mem (c : ascii) (s : string) :
  enc_char c = false -> forall_chars enc_char s = true -> mem c s = false.
Proof. intros Hc Hs. exact (forall_chars_mem enc_char c s Hs Hc). Qed.

Lemma parse_qsl_urlencode (d : qdict) :
  vals_ok d -> parse_qsl (urlencode d) = flatten d.
Proof.
  intros Hd. rewrite urlencode_flatten. unfold parse_qsl.
  assert (Hv : Forall (fun kv => utf8_replace (fst kv) = fst kv /\ snd kv <> EmptyString /\
                                 utf8_replace (snd kv) = snd kv) (flatten d)).
  { unfold flatten. apply Forall_flat_map. eapply Forall_impl; [|exact Hd].
    intros [k vs] [Hk [_ Hvs]]. apply Forall_map. eapply Forall_impl; [|exact Hvs].
    intros v [Hv Hv']. simpl. auto. }
  destruct (flatten d) as [|kv0 l] eqn:Ef; [reflexivity|].
  assert (Hne : is_empty (join "&" (map enc_pair (kv0 :: l))) = false).
  { destruct l; simpl; unfold enc_pair;
      destruct (quote_plus (fst kv0)); reflexivity. }
  rewrite Hne.
  rewrite split_all_join.
  2: discriminate.
  2: { apply Forall_map. apply Forall_forall. intros [k v] _. unfold enc_pair. simpl.
       rewrite mem_app. simpl.
       rewrite !(enc_char_mem "&") by (reflexivity || apply quote_plus_enc). reflexivity. }
  clear Ef Hne. revert Hv. generalize (kv0 :: l) as l0. intros l0 Hv.
  induction Hv as [|[k v] l1 [Hku [Hv Hvu]] Hl IH]; [reflexivity|].
  simpl map. simpl flat_map. rewrite IH. unfold enc_pair. simpl fst. simpl snd.
  assert (Hq : is_empty (quote_plus v) = false).
  { pose proof (quote_plus_nonempty v Hv). destruct (quote_plus v); [congruence|reflexivity]. }
  assert (Hk : is_empty (quote_plus k ++ "=" ++ quote_plus v) = false).
  { destruct (quote_plus k); reflexivity. }
  rewrite Hk.
  change (quote_plus k ++ "=" ++ quote_plus v) with (quote_plus k ++ String "=" (quote_plus v)).
  rewrite split_once_here by (apply enc_char_mem; [reflexivity|apply quote_plus_enc]).
  rewrite Hq, !quote_plus_roundtrip by assumption. reflexivity.
Qed.

Definition addf (d : qdict) (kv : string * string) : qdict := qd_add d (fst kv) (snd kv).

Lemma qd_add_new (acc : qdict) (k v : string) :
  ~ In k (map fst acc) -> qd_add acc k v = app acc [(k, [v])].
Proof.
  induction acc as [|[k' vs] acc IH]; simpl; [reflexivity|].
  intros H. destruct (String.eqb k k') eqn:E.
  - apply String.eqb_eq in E. subst. exfalso. apply H. left. reflexivity.
  - rewrite IH; [reflexivity|]. intros Hin. apply H. right. exact Hin.
Qed.

Lemma qd_add_last (acc : qdict) (k v : string) (vs : list string) :
  ~ In k (map fst acc) -> qd_add (app acc [(k, vs)]) k v = app acc [(k, app vs [v])].
Proof.
  induction acc as [|[k' ws] acc IH]; simpl.
  - intros _. rewrite String.eqb_refl. reflexivity.
  - intros H. destruct (String.eqb k k') eqn:E.
    + apply String.eqb_eq in E. subst. exfalso. apply H. left. reflexivity.
    + rewrite IH; [reflexivity|]. intros Hin. apply H. right. exact Hin.
Qed.

Lemma fold_addf_same_key (acc : qdict) (k : string) (vs0 vs : list string) :
  ~ In k (map fst acc) ->
  fold_left addf (map (fun v => (k, v)) vs) (app acc [(k, vs0)]) = app acc [(k, app vs0 vs)].
Proof.
  revert vs0. induction vs as [|v vs IH]; intros vs0 H; simpl.
  - rewrite app_nil_r. reflexivity.
  - change (addf (app acc [(k, vs0)]) (k, v)) with (qd_add (app acc [(k, vs0)]) k v).
    rewrite qd_add_last by exact H.
    rewrite IH by exact H. rewrite <- app_assoc. reflexivity.
Qed.

Lemma fold_addf_flatten (d acc : qdict) :
  NoDup (map fst d) ->
  (forall k, In k (map fst d) -> ~ In k (map fst acc)) ->
  Forall (fun kv => snd kv <> []) d ->
  fold_left addf (flatten d) acc = app acc d.
Proof.
  revert acc. induction d as [|[k vs] d IH]; intros acc Hnd Hdis Hne.
  - simpl. rewrite app_nil_r. reflexivity.
  - inversion Hnd as [|? ? Hk Hnd']; subst. inversion Hne as [|? ? Hvs Hne']; subst.
    destruct vs as [|v vs]; [simpl in Hvs; congruence|].
    unfold flatten. cbn [flat_map map fst snd]. cbn [fold_left].
    fold (flatten d). rewrite fold_left_app.
    assert (Hacc : ~ In k (map fst acc)) by (apply Hdis; left; reflexivity).
    cbn [fold_left]. change (addf acc (k, v)) with (qd_add acc k v).
    rewrite qd_add_new by exact Hacc. rewrite fold_addf_same_key by exact Hacc.
    simpl app. rewrite IH.
    + rewrite <- app_assoc. reflexivity.
    + exact Hnd'.
    + intros k' Hk' Hin. rewrite map_app in Hin. apply in_app_or in Hin as [Hin|Hin].
      * apply (Hdis k'); [right; exact Hk'|exact Hin].
      * simpl in Hin. destruct Hin as [->|[]]. contradiction.
    + exact Hne'.
Qed.

(** The dictionaries [parse_qs] produces: distinct names, each with a
    non-empty list of non-empty values. *)
Definition qd_wf (d : qdict) : Prop := NoDup (map fst d) /\ vals_ok d.

Lemma parse_qs_urlencode (d : qdict) : qd_wf d -> parse_qs (urlencode d) = d.
Proof.
  intros [Hnd Hv]. unfold parse_qs. rewrite parse_qsl_urlencode by exact Hv.
  change (fun d0 kv => qd_add d0 (fst kv) (snd kv)) with addf.
  rewrite fold_addf_flatten; [reflexivity|exact Hnd| |].
  - intros k _ [].
  - eapply Forall_impl; [|exact Hv]. intros kv [_ [H _]]. exact H.
Qed.

Lemma qd_add_keys (d : qdict) (k v x : string) :
  In x (map fst (qd_add d k v)) <-> x = k \/ In x (map fst d).
Proof.
  induction d as [|[k' vs] d IH]; simpl.
  - split; intros [H|[]]; left; symmetry; exact H.
  - destruct (String.eqb k k') eqn:E; simpl.
    + apply String.eqb_eq in E. subst. split; [tauto|].
      intros [->|H]; [left; reflexivity|exact H].
    + rewrite IH. split; intros [H|[H|H]]; subst; tauto.
Qed.

Lemma qd_add_wf (d : qdict) (k v : string) :
  utf8_replace k = k -> v <> EmptyString -> utf8_replace v = v ->
  qd_wf d -> qd_wf (qd_add d k v).
Proof.
  intros Hk Hv Hvu [Hnd Hvals]. induction d as [|[k' vs] d IH]; simpl.
  - split; [constructor; [intros []|constructor]|].
    constructor; [|constructor].
    split; [exact Hk|split; [discriminate|constructor; [split; assumption|constructor]]].
  - inversion Hnd as [|? ? Hk' Hnd']; subst.
    inversion Hvals as [|? ? [Hku [Hne Hvs]] Hvals']; subst.
    destruct (String.eqb k k') eqn:E.
    + split; [exact Hnd|]. constructor; [|exact Hvals'].
      simpl. split; [exact Hku|split].
      * destruct vs; discriminate.
      * apply Forall_app. split; [exact Hvs|constructor; [split; assumption|constructor]].
    + destruct (IH Hnd' Hvals') as [Hnd2 Hvals2]. split.
      * simpl. constructor; [|exact Hnd2].
        rewrite qd_add_keys. intros [Heq|Hin]; [|contradiction].
        subst. rewrite String.eqb_refl in E. discriminate.
      * constructor; [split; [exact Hku|split; assumption]|exact Hvals2].
Qed.

Lemma plus_to_space_nonempty (s : string) : s <> EmptyString -> plus_to_space s <> EmptyString.
Proof. destruct s; [congruence|discriminate]. Qed.

Lemma unquote_bytes_nonempty (s : string) : s <> EmptyString -> unquote_bytes s <> EmptyString.
Proof.
  destruct s as [|c r]; [congruence|intros _].
  destruct (Ascii.eqb c "%") eqn:E.
  - apply Ascii.eqb_eq in E. subst c.
    destruct r as [|a [|b t]]; try discriminate.
    rewrite unquote_bytes_pct. destruct (hex_value a), (hex_value b); discriminate.
  - rewrite unquote_bytes_cons; [discriminate|]. intros ->. discriminate.
Qed.

Lemma unquote_nonempty (s : string) :
  forall_chars is_ascii s = true -> s <> EmptyString -> unquote s <> EmptyString.
Proof.
  intros Ha Hs. rewrite unquote_ascii by exact Ha. destruct (mem "%" s); [|exact Hs].
  apply utf8_replace_nonempty, unquote_bytes_nonempty, Hs.
Qed.

(** What [unquote] returns for ASCII text is valid UTF-8. *)
Lemma unquote_utf8 (s : string) :
  forall_chars is_ascii s = true -> utf8_replace (unquote s) = unquote s.
Proof.
  intros Ha. rewrite unquote_ascii by exact Ha. destruct (mem "%" s).
  - apply utf8_replace_idem.
  - apply utf8_replace_ascii, Ha.
Qed.

Lemma split_all_forall (p : ascii -> bool) (c : ascii) (s : string) :
  forall_chars p s = true -> Forall (fun x => forall_chars p x = true) (split_all c s).
Proof.
  induction s as [|d s IH]; simpl; intros H; [repeat constructor|].
  apply andb_prop in H as [Hd Hs]. specialize (IH Hs).
  destruct (char_eqb c d); [constructor; [reflexivity|exact IH]|].
  destruct (split_all c s) as [|x rest]; [repeat constructor; simpl; rewrite Hd; reflexivity|].
  inversion IH as [|? ? Hx Hr]; subst. constructor; [simpl; rewrite Hd; exact Hx|exact Hr].
Qed.

Lemma split_once_forall (p : ascii -> bool) (c : ascii) (s a b : string) :
  split_once c s = Some (a, b) -> forall_chars p s = true ->
  forall_chars p a = true /\ forall_chars p b = true.
Proof.
  revert a b. induction s as [|d s IH]; simpl; intros a b E H; [discriminate|].
  apply andb_prop in H as [Hd Hs].
  destruct (char_eqb c d).
  - injection E as <- <-. split; [reflexivity|exact Hs].
  - destruct (split_once c s) as [[a' b']|]; [|discriminate]. injection E as <- <-.
    destruct (IH a' b' eq_refl Hs) as [Ha Hb]. simpl. rewrite Hd, Ha. split; [reflexivity|exact Hb].
Qed.

(** On an ASCII query string (a Python [str] given to [parse_qs]) the
    dictionary has distinct names and non-empty valid values. *)
Lemma parse_qs_wf (qs : string) : forall_chars is_ascii qs = true -> qd_wf (parse_qs qs).
Proof.
  intros Hqs. unfold parse_qs.
  assert (Hl : Forall (fun kv => utf8_replace (fst kv) = fst kv /\ snd kv <> EmptyString /\
                                 utf8_replace (snd kv) = snd kv) (parse_qsl qs)).
  { unfold parse_qsl. apply Forall_flat_map. apply Forall_forall. intros nv Hin.
    assert (Hf : Forall (fun x => forall_chars is_ascii x = true)
                   (if is_empty qs then [] else split_all "&" qs))
      by (destruct (is_empty qs); [constructor|apply split_all_forall, Hqs]).
    rewrite Forall_forall in Hf. specialize (Hf nv Hin).
    destruct (is_empty nv); [constructor|].
    destruct (split_once "=" nv) as [[n v]|] eqn:Es; [|constructor].
    destruct (split_once_forall is_ascii "=" nv n v Es Hf) as [Hn Hv].
    destruct (is_empty v) eqn:Ev; [constructor|]. constructor; [|constructor].
    simpl. split; [|split].
    - apply unquote_utf8, plus_to_space_ascii, Hn.
    - apply unquote_nonempty; [apply plus_to_space_ascii, Hv|].
      apply plus_to_space_nonempty. destruct v; [discriminate|congruence].
    - apply unquote_utf8, plus_to_space_ascii, Hv. }
  assert (H0 : qd_wf []) by (split; constructor).
  revert H0. generalize (@nil (string * list string)) as acc.
  induction Hl as [|[k v] l [Hk [Hv Hvu]] Hl IH]; intros acc Hacc; simpl; [exact Hacc|].
  apply IH. apply qd_add_wf; assumption.
Qed.

(** *** URLs of the supported platforms *)

Inductive family := Instagram | TikTok | YouTube | SoundCloud.

(** The host tests of [normalize_url], in the order it makes them. *)
Definition family_of (net : string) : option family :=
  if contains "instagram.com" net || contains "facebook.com" net then Some Instagram
  else if contains "tiktok.com" net then Some TikTok
  else if contains "youtube.com" net || contains "youtu.be" net then Some YouTube
  else if contains "soundcloud.com" net then Some SoundCloud
  else None.

(** The query parameters each family keeps. *)
Definition keep_query (f : family) (qs : string) : qdict :=
  match f with
  | Instagram =>
      match qd_lookup (parse_qs qs) "img_index" with
      | Some vs => [("img_index", vs)]
      | None => []
      end
  | YouTube => filter (fun kv => in_list (fst kv) ["v"; "t"]) (parse_qs qs)
  | TikTok | SoundCloud => []
  end.

Definition qpart (oq : option string) : string :=
  match oq with None => EmptyString | Some q => "?" ++ q end.

Definition qstr (oq : option string) : string :=
  match oq with None => EmptyString | Some q => q end.

Definition opt_query (q : string) : option string :=
  if is_empty q then None else Some q.

(** [scheme://host path] followed by [?query] when there is one. *)
Definition build (sch host pth : string) (oq : option string) : string :=
  sch ++ "://" ++ host ++ pth ++ qpart oq.

(** A printable ASCII character: not a control character, not a space and
    not DEL. *)
Definition printable (c : ascii) : bool := (32 <? code c) && (code c <? 127).

Definition scheme_ok (s : string) : bool :=
  match s with
  | EmptyString => false
  | String c _ => is_ascii_alpha c && forall_chars is_scheme_char s
  end.

Definition host_ok (h : string) : bool :=
  forall_chars (fun c => printable c && negb (mem c "/?#[]")) h.

Definition path_ok (p : string) : bool :=
  forall_chars (fun c => printable c && negb (mem c "?#;")) p &&
  match p with EmptyString => true | String c _ => char_eqb c "/" end.

Definition query_ok (oq : option string) : bool :=
  match oq with
  | None => true
  | Some q => forall_chars (fun c => printable c && negb (char_eqb c "#")) q
  end.

Lemma printable_facts :
  forall c, implb (printable c)
    (negb (is_space c) && negb (is_c0_or_space c) && negb (is_unsafe c) && is_ascii c) = true.
Proof. apply ascii_forall. vm_compute. reflexivity. Qed.

Lemma scheme_char_facts :
  forall c, implb (is_scheme_char c)
    (printable c && is_scheme_char (lower_char c) &&
     implb (is_ascii_alpha c) (is_ascii_alpha (lower_char c))) = true.
Proof. apply ascii_forall. vm_compute. reflexivity. Qed.

Lemma lower_char_idem : forall c, Ascii.eqb (lower_char (lower_char c)) (lower_char c) = true.
Proof. apply ascii_forall. vm_compute. reflexivity. Qed.

Lemma lower_idem (s : string) : lower (lower s) = lower s.
Proof.
  induction s as [|c s IH]; simpl; [reflexivity|].
  rewrite IH. pose proof (lower_char_idem c) as E. apply Ascii.eqb_eq in E. rewrite E.
  reflexivity.
Qed.

Lemma lower_app (a b : string) : lower (a ++ b) = lower a ++ lower b.
Proof. induction a as [|c a IH]; simpl; [reflexivity|]. rewrite IH. reflexivity. Qed.

Lemma scheme_ok_lower (s : string) : scheme_ok s = true -> scheme_ok (lower s) = true.
Proof.
  destruct s as [|c s]; [discriminate|]. simpl. intros H.
  apply andb_prop in H as [Ha H]. apply andb_prop in H as [Hc Hs].
  pose proof (scheme_char_facts c) as F. rewrite Hc in F. simpl in F.
  apply andb_prop in F as [F Falpha]. apply andb_prop in F as [_ Fc].
  rewrite Ha in Falpha. simpl in Falpha. rewrite Falpha, Fc. simpl.
  clear -Hs. induction s as [|d s IH]; simpl; [reflexivity|].
  simpl in Hs. apply andb_prop in Hs as [Hd Hs].
  pose proof (scheme_char_facts d) as F. rewrite Hd in F. simpl in F.
  apply andb_prop in F as [F _]. apply andb_prop in F as [_ Fd].
  rewrite Fd, IH by exact Hs. reflexivity.
Qed.

Lemma printable_strip_id (s : string) :
  forall_chars printable s = true ->
  strip s = s /\ rstrip s = s /\ lstrip_by is_c0_or_space s = s /\ remove_by is_unsafe s = s.
Proof.
  intros H.
  assert (G : forall p : ascii -> bool,
             (forall c, printable c = true -> p c = false) ->
             forall_chars (fun c => negb (p c)) s = true).
  { intros p Hp. eapply forall_chars_impl; [|exact H]. intros c Hc. rewrite Hp by exact Hc.
    reflexivity. }
  assert (F : forall c, printable c = true ->
             is_space c = false /\ is_c0_or_space c = false /\ is_unsafe c = false).
  { intros c Hc. pose proof (printable_facts c) as P. rewrite Hc in P. simpl in P.
    destruct (is_space c), (is_c0_or_space c), (is_unsafe c); try discriminate; auto. }
  unfold strip, rstrip.
  rewrite (lstrip_by_id is_space) by (apply G; apply F).
  rewrite (rstrip_by_id is_space) by (apply G; apply F).
  rewrite (lstrip_by_id is_c0_or_space) by (apply G; apply F).
  rewrite (remove_by_id is_unsafe) by (apply G; apply F).
  auto.
Qed.

Lemma splitnetloc_app (h t : string) :
  forall_chars (fun c => negb (mem c "/?#")) h = true ->
  splitnetloc (h ++ t) = (h ++ fst (splitnetloc t), snd (splitnetloc t)).
Proof.
  induction h as [|c h IH]; simpl; [destruct (splitnetloc t); reflexivity|].
  intros H. apply andb_prop in H as [Hc Hh]. apply negb_true_iff in Hc. rewrite Hc.
  rewrite IH by exact Hh. reflexivity.
Qed.

Lemma host_char_facts :
  forall c, implb (printable c && negb (mem c "/?#[]")) (negb (mem c "/?#")) = true.
Proof. apply ascii_forall. vm_compute. reflexivity. Qed.

Lemma build_printable (s h p : string) (oq : option string) :
  scheme_ok s = true -> host_ok h = true -> path_ok p = true -> query_ok oq = true ->
  forall_chars printable (build s h p oq) = true.
Proof.
  intros Hs Hh Hp Hq. unfold build. rewrite !forall_chars_app.
  assert (A : forall_chars printable s = true).
  { destruct s as [|c s]; [discriminate|]. simpl in Hs. apply andb_prop in Hs as [_ Hs].
    eapply forall_chars_impl; [|exact Hs]. intros d Hd.
    pose proof (scheme_char_facts d) as F. rewrite Hd in F. simpl in F.
    destruct (printable d); [reflexivity|discriminate]. }
  assert (B : forall_chars printable h = true).
  { eapply forall_chars_impl; [|exact Hh]. intros d Hd. apply andb_prop in Hd as [Hd _]. exact Hd. }
  assert (C : forall_chars printable p = true).
  { apply andb_prop in Hp as [Hp _].
    eapply forall_chars_impl; [|exact Hp]. intros d Hd. apply andb_prop in Hd as [Hd _]. exact Hd. }
  assert (D : forall_chars printable (qpart oq) = true).
  { destruct oq as [q|]; [|reflexivity]. simpl in Hq |- *.
    eapply forall_chars_impl; [|exact Hq]. intros d Hd. apply andb_prop in Hd as [Hd _]. exact Hd. }
  rewrite A, B, C, D. reflexivity.
Qed.

Lemma mem_of_forall (p : ascii -> bool) (c : ascii) (s : string) :
  forall_chars p s = true -> p c = false -> mem c s = false.
Proof. apply forall_chars_mem. Qed.

Lemma urlparse_build (s h p : string) (oq : option string) :
  scheme_ok s = true -> host_ok h = true -> path_ok p = true -> query_ok oq = true ->
  urlparse (build s h p oq) = Some (ParseResult (lower s) h p "" (qstr oq) "").
Proof.
  intros Hs Hh Hp Hq.
  destruct (printable_strip_id _ (build_printable s h p oq Hs Hh Hp Hq)) as (_ & _ & E1 & E2).
  unfold urlparse, urlsplit. rewrite E1, E2. clear E1 E2.
  assert (Eb : build s h p oq = s ++ String ":" (String "/" (String "/" (h ++ p ++ qpart oq))))
    by reflexivity.
  assert (Hcol : mem ":" s = false).
  { destruct s as [|c s]; [discriminate|]. simpl in Hs. apply andb_prop in Hs as [_ Hs].
    apply (mem_of_forall is_scheme_char); [exact Hs|reflexivity]. }
  unfold split_scheme. rewrite Eb, split_once_here by exact Hcol.
  destruct s as [|c s0] eqn:Es; [discriminate|]. rewrite <- Es in *. simpl in Hs.
  replace (is_ascii_alpha c && forall_chars is_scheme_char s) with true by (subst s; symmetry; exact Hs).
  cbn iota beta.
  assert (Hp' := Hp). unfold path_ok in Hp'. apply andb_prop in Hp' as [Hpc Hp0].
  assert (Hnl : forall_chars (fun c => negb (mem c "/?#")) h = true).
  { eapply forall_chars_impl; [|exact Hh]. intros d Hd.
    pose proof (host_char_facts d) as F. rewrite Hd in F. exact F. }
  rewrite splitnetloc_app by exact Hnl.
  assert (Hst : splitnetloc (p ++ qpart oq) = (EmptyString, p ++ qpart oq)).
  { destruct p as [|d p]; [destruct oq; reflexivity|].
    apply Ascii.eqb_eq in Hp0. subst d. reflexivity. }
  rewrite Hst. simpl fst. simpl snd. rewrite append_nil_r.
  rewrite (mem_of_forall _ "[" h Hh), (mem_of_forall _ "]" h Hh) by reflexivity.
  cbn [andb orb negb].
  assert (Hhash : mem "#" (p ++ qpart oq) = false).
  { rewrite mem_app, (mem_of_forall _ "#" p Hpc) by reflexivity.
    destruct oq as [q|]; [|reflexivity]. simpl. simpl in Hq.
    rewrite (mem_of_forall _ "#" q Hq) by reflexivity. reflexivity. }
  rewrite split_once_none by exact Hhash.
  assert (Hsemi : mem ";" p = false) by (apply (mem_of_forall _ ";" p Hpc); reflexivity).
  destruct oq as [q|]; simpl qpart; simpl qstr.
  - rewrite split_once_here by (apply (mem_of_forall _ "?" p Hpc); reflexivity).
    rewrite Hsemi, andb_false_r. reflexivity.
  - rewrite append_nil_r.
    rewrite split_once_none by (apply (mem_of_forall _ "?" p Hpc); reflexivity).
    rewrite Hsemi, andb_false_r. reflexivity.
Qed.

Lemma rstrip_slash_path_ok (p : string) : path_ok p = true -> path_ok (rstrip_slash p) = true.
Proof.
  unfold path_ok, rstrip_slash. intros H. apply andb_prop in H as [Hc Hf].
  destruct (rstrip_by_prefix (char_eqb "/") p) as [t Ht].
  rewrite Ht, forall_chars_app in Hc. apply andb_prop in Hc as [Hc _]. rewrite Hc. simpl.
  destruct (rstrip_by (char_eqb "/") p) as [|c r]; [reflexivity|].
  rewrite Ht in Hf. exact Hf.
Qed.

Lemma path_shape (p : string) :
  path_ok p = true -> p = EmptyString \/ exists t, p = String "/" t.
Proof.
  unfold path_ok. intros H. apply andb_prop in H as [_ H].
  destruct p as [|c t]; [left; reflexivity|right]. apply Ascii.eqb_eq in H. subst. eauto.
Qed.

Lemma urlunparse_build (s h r q : string) :
  is_empty s = false -> is_empty h = false -> path_ok r = true ->
  urlunparse s h r "" q "" = build s h r (opt_query q).
Proof.
  intros Hs Hh Hr. unfold urlunparse, urlunsplit, build, opt_query.
  rewrite Hh, Hs. cbn [is_empty negb].
  assert (Er : match r with
               | String "/" _ => r
               | EmptyString => r
               | _ => "/" ++ r
               end = r).
  { destruct (path_shape r Hr) as [->|[t ->]]; reflexivity. }
  rewrite Er.
  destruct (is_empty q); simpl qpart.
  - rewrite append_nil_r. reflexivity.
  - rewrite !append_assoc. reflexivity.
Qed.

Lemma normalize_build (s h p : string) (oq : option string) (f : family) :
  scheme_ok s = true -> host_ok h = true -> path_ok p = true -> query_ok oq = true ->
  family_of h = Some f ->
  normalize_url (build s h p oq) =
  build (lower s) h (rstrip_slash p) (opt_query (urlencode (keep_query f (qstr oq)))).
Proof.
  intros Hs Hh Hp Hq Hf.
  assert (Hne : is_empty (build s h p oq) = false) by (destruct s; [discriminate|reflexivity]).
  destruct (printable_strip_id _ (build_printable s h p oq Hs Hh Hp Hq)) as (Es & _ & _ & _).
  assert (Hls : is_empty (lower s) = false) by (destruct s; [discriminate|reflexivity]).
  assert (Hh0 : is_empty h = false) by (destruct h; [discriminate|reflexivity]).
  assert (Hr := rstrip_slash_path_ok p Hp).
  unfold normalize_url. rewrite Hne, Es, urlparse_build by assumption.
  cbn [scheme netloc path params query fragment].
  unfold family_of in Hf.
  destruct (contains "instagram.com" h || contains "facebook.com" h).
  { injection Hf as <-. apply urlunparse_build; assumption. }
  destruct (contains "tiktok.com" h).
  { injection Hf as <-. apply urlunparse_build; assumption. }
  destruct (contains "youtube.com" h || contains "youtu.be" h).
  { injection Hf as <-. apply urlunparse_build; assumption. }
  destruct (contains "soundcloud.com" h).
  { injection Hf as <-. apply urlunparse_build; assumption. }
  discriminate.
Qed.

Lemma qd_lookup_wf (d : qdict) (k : string) (vs : list string) :
  qd_wf d -> qd_lookup d k = Some vs -> qd_wf [(k, vs)].
Proof.
  intros [_ Hv] Hl. split; [constructor; [intros []|constructor]|].
  constructor; [|constructor]. simpl.
  induction d as [|[k' ws] d IH]; simpl in Hl; [discriminate|].
  inversion Hv as [|? ? Hkw Hv']; subst.
  destruct (String.eqb k k') eqn:Ek; [|exact (IH Hv' Hl)].
  apply String.eqb_eq in Ek. subst k'. injection Hl as <-. exact Hkw.
Qed.

Lemma filter_wf (P : string * list string -> bool) (d : qdict) :
  qd_wf d -> qd_wf (filter P d).
Proof.
  intros [Hnd Hv]. split.
  - induction d as [|[k vs] d IH]; simpl; [constructor|].
    inversion Hnd as [|? ? Hk Hnd']; subst. inversion Hv; subst.
    destruct (P (k, vs)); [|auto]. simpl. constructor; [|auto].
    intros Hin. apply Hk. apply in_map_iff in Hin as [[k' ws] [Ek Hin]].
    simpl in Ek. subst k'. apply filter_In in Hin as [Hin _].
    apply in_map_iff. exists (k, ws). split; [reflexivity|exact Hin].
  - unfold vals_ok in *. rewrite Forall_forall in Hv |- *. intros kv Hin.
    apply filter_In in Hin as [Hin _]. exact (Hv kv Hin).
Qed.

Lemma filter_idem {A : Type} (P : A -> bool) (l : list A) :
  filter P (filter P l) = filter P l.
Proof.
  induction l as [|x l IH]; simpl; [reflexivity|].
  destruct (P x) eqn:E; simpl; [rewrite E, IH|]; auto.
Qed.

(** Keeping the whitelisted parameters of an ASCII query a second time
    changes nothing. *)
Lemma keep_query_idem (f : family) (qs : string) :
  forall_chars is_ascii qs = true ->
  keep_query f (urlencode (keep_query f qs)) = keep_query f qs.
Proof.
  intros Ha. destruct f; simpl; try reflexivity.
  - destruct (qd_lookup (parse_qs qs) "img_index") as [vs|] eqn:E; [|reflexivity].
    assert (Hwf : qd_wf [("img_index", vs)])
      by exact (qd_lookup_wf _ _ _ (parse_qs_wf qs Ha) E).
    rewrite parse_qs_urlencode by exact Hwf. reflexivity.
  - rewrite parse_qs_urlencode by (apply filter_wf, parse_qs_wf, Ha).
    apply filter_idem.
Qed.

Lemma query_ok_ascii (oq : option string) :
  query_ok oq = true -> forall_chars is_ascii (qstr oq) = true.
Proof.
  destruct oq as [q|]; [|reflexivity]. simpl. intros H.
  eapply forall_chars_impl; [|exact H]. intros c Hc. apply andb_prop in Hc as [Hc _].
  pose proof (printable_facts c) as F. rewrite Hc in F. simpl in F.
  destruct (is_ascii c); [reflexivity|]. rewrite !andb_false_r in F. discriminate.
Qed.

Definition qchar (c : ascii) : bool := printable c && negb (char_eqb c "#").

Lemma enc_qchar : forall c, implb (enc_char c) (qchar c) = true.
Proof. apply ascii_forall. vm_compute. reflexivity. Qed.

Lemma forall_chars_join (p : ascii -> bool) (sep : string) (l : list string) :
  forall_chars p sep = true -> Forall (fun x => forall_chars p x = true) l ->
  forall_chars p (join sep l) = true.
Proof.
  intros Hs Hl. induction Hl as [|x l Hx Hl IH]; [reflexivity|].
  destruct l as [|y l]; [exact Hx|].
  change (join sep (x :: y :: l)) with (x ++ sep ++ join sep (y :: l)).
  rewrite !forall_chars_app, Hx, Hs, IH. reflexivity.
Qed.

Lemma urlencode_qchar (d : qdict) : forall_chars qchar (urlencode d) = true.
Proof.
  rewrite urlencode_flatten. apply forall_chars_join; [reflexivity|].
  apply Forall_map. apply Forall_forall. intros [k v] _. unfold enc_pair, fst, snd.
  rewrite !forall_chars_app.
  assert (G : forall x, forall_chars qchar (quote_plus x) = true).
  { intros x. eapply forall_chars_impl; [|apply quote_plus_enc]. intros c Hc.
    pose proof (enc_qchar c) as F. rewrite Hc in F. exact F. }
  rewrite !G. reflexivity.
Qed.

Lemma query_ok_opt (q : string) : forall_chars qchar q = true -> query_ok (opt_query q) = true.
Proof. unfold opt_query. destruct (is_empty q); [reflexivity|]. intros H. exact H. Qed.

Lemma qstr_opt_query (q : string) : qstr (opt_query q) = q.
Proof. unfold opt_query. destruct q; reflexivity. Qed.

Lemma netloc_noslash2 (u : string) :
  String.prefix "//" u = false ->
  match u with
  | String "/" (String "/" rest) => splitnetloc rest
  | _ => (EmptyString, u)
  end = (EmptyString, u).
Proof.
  destruct u as [|c [|d u]]; [reflexivity| |].
  - destruct c as [[] [] [] [] [] [] [] []]; reflexivity.
  - destruct c as [[] [] [] [] [] [] [] []]; try reflexivity.
    destruct d as [[] [] [] [] [] [] [] []]; try reflexivity.
    intros H. destruct u; cbv in H; discriminate H.
Qed.

(** Without ':' and without a leading "//", [urlparse] finds no network
    location. *)
Lemma urlparse_noscheme (u : string) :
  forall_chars printable u = true -> mem ":" u = false -> String.prefix "//" u = false ->
  exists r, urlparse u = Some r /\ netloc r = EmptyString.
Proof.
  intros Hp Hc Hs.
  destruct (printable_strip_id u Hp) as (_ & _ & E3 & E4).
  unfold urlparse, urlsplit. rewrite E3, E4.
  assert (Hsc : split_scheme u = (EmptyString, u))
    by (unfold split_scheme; rewrite split_once_none by exact Hc; reflexivity).
  rewrite Hsc, netloc_noslash2 by exact Hs. cbn [mem andb orb negb].
  destruct (match split_once "#" u with Some p => p | None => (u, EmptyString) end) as [u4 fr].
  destruct (match split_once "?" u4 with Some p => p | None => (u4, EmptyString) end) as [u5 q].
  destruct (in_list EmptyString uses_params && mem ";" u5); [destruct (splitparams u5)|];
    eexists; split; reflexivity.
Qed.

Example normalize_ig :
  normalize_url "  https://www.instagram.com/p/ABC/?igsh=xyz&img_index=2 "
  = "https://www.instagram.com/p/ABC?img_index=2".
Proof. vm_compute. reflexivity. Qed.

Example normalize_yt :
  normalize_url "https://www.youtube.com/watch?si=q&v=dQw4&feature=share&t=42"
  = "https://www.youtube.com/watch?v=dQw4&t=42".
Proof. vm_compute. reflexivity. Qed.

Example normalize_tt :
  normalize_url "https://vt.tiktok.com/ZSabc/?_r=1" = "https://vt.tiktok.com/ZSabc".
Proof. vm_compute. reflexivity. Qed.

Example normalize_noscheme :
  normalize_url "instagram.com/p/ABC/" = "instagram.com/p/ABC/".
Proof. vm_compute. reflexivity. Qed.

Example normalize_semicolon :
  normalize_url "https://tiktok.com/a;/" = "https://tiktok.com/a;" /\
  normalize_url "https://tiktok.com/a;" = "https://tiktok.com/a".
Proof. vm_compute. split; reflexivity. Qed.

Example normalize_plus :
  normalize_url "https://youtu.be/x?t=1%202+3" = "https://youtu.be/x?t=1+2+3".
Proof. vm_compute. reflexivity. Qed.

(** Invalid UTF-8 after unquoting becomes U+FFFD, quoted again as
    %EF%BF%BD; valid sequences survive. *)
Example normalize_pct :
  normalize_url "https://www.instagram.com/p/X?img_index=%FF" =
    "https://www.instagram.com/p/X?img_index=%EF%BF%BD" /\
  normalize_url "https://www.instagram.com/p/X/?img_index=a%E0%80b&x=1" =
    "https://www.instagram.com/p/X?img_index=a%EF%BF%BD%EF%BF%BDb" /\
  normalize_url "https://www.instagram.com/p/X?img_index=%C3%A9" =
    "https://www.instagram.com/p/X?img_index=%C3%A9".
Proof. vm_compute. repeat split. Qed.

(** *** Claims about [normalize_url] *)

(** C1 (counterexample): a scheme-less input gets no "https://" prefix,
    and a host differing only in letter case is a different key (the host
    tests are case-sensitive, so it is not even recognised as Instagram). *)
Lemma normalize_url_variants_differ :
  normalize_url "instagram.com/p/ABC" = "instagram.com/p/ABC" /\
  normalize_url "https://Instagram.com/p/ABC/" = "https://Instagram.com/p/ABC/" /\
  normalize_url "https://instagram.com/p/ABC" = "https://instagram.com/p/ABC" /\
  String.eqb "instagram.com/p/ABC" "https://instagram.com/p/ABC" = false /\
  String.eqb "https://Instagram.com/p/ABC/" "https://instagram.com/p/ABC" = false.
Proof. vm_compute. repeat split. Qed.

(** C1 (amended): take URLs [scheme://host path[?query]] of printable ASCII
    characters: the scheme a letter followed by letters, digits, '+', '-'
    or '.'; the host without '/', '?', '#', '[' or ']' and containing
    (case-sensitively) instagram.com, facebook.com, tiktok.com, youtube.com, youtu.be or
    soundcloud.com; the path empty or starting with '/' and without '?',
    '#' or ';'; the query without '#'.  Two such URLs with the same host
    that differ only in the letter case of the scheme, in trailing slashes
    of the path and in the query, where the whitelisted parameters
    (img_index for Instagram/Facebook, v and t for YouTube, none for
    TikTok and SoundCloud) parse to the same values, normalise to the same
    string.  A printable ASCII input without ':' that does not start with
    "//" is returned unchanged: no scheme is added and the host case is
    kept. *)
Theorem normalize_url_canonical :
  (forall (s1 s2 h p1 p2 : string) (oq1 oq2 : option string) (f : family),
     scheme_ok s1 = true -> scheme_ok s2 = true -> lower s1 = lower s2 ->
     host_ok h = true -> path_ok p1 = true -> path_ok p2 = true ->
     query_ok oq1 = true -> query_ok oq2 = true -> family_of h = Some f ->
     rstrip_slash p1 = rstrip_slash p2 ->
     keep_query f (qstr oq1) = keep_query f (qstr oq2) ->
     normalize_url (build s1 h p1 oq1) = normalize_url (build s2 h p2 oq2)) /\
  (forall u : string,
     forall_chars printable u = true -> mem ":" u = false ->
     String.prefix "//" u = false -> normalize_url u = u).
Proof.
  split.
  - intros s1 s2 h p1 p2 oq1 oq2 f Hs1 Hs2 Els Hh Hp1 Hp2 Hq1 Hq2 Hf Ep Eq.
    rewrite (normalize_build s1 h p1 oq1 f), (normalize_build s2 h p2 oq2 f) by assumption.
    rewrite Els, Ep, Eq. reflexivity.
  - intros u Hp Hc Hs.
    destruct (urlparse_noscheme u Hp Hc Hs) as [r [E N]].
    destruct (printable_strip_id u Hp) as (E1 & E2 & _ & _).
    unfold normalize_url. destruct (is_empty u); [reflexivity|].
    rewrite E1, E, N. exact E2.
Qed.

Lemma normalize_url_canonical_witness :
  normalize_url (build "HTTPS" "www.youtube.com" "/watch/" (Some "v=x&si=y")) =
  normalize_url (build "https" "www.youtube.com" "/watch" (Some "v=x")) /\
  normalize_url "instagram.com/p/ABC" = "instagram.com/p/ABC".
Proof.
  split.
  - apply (proj1 normalize_url_canonical _ _ _ _ _ _ _ YouTube);
      vm_compute; reflexivity.
  - apply (proj2 normalize_url_canonical); vm_compute; reflexivity.
Defined.

(** C2 (counterexample): a ';' before a trailing slash is exposed by the
    first pass and split off as params by the second. *)
Lemma normalize_url_not_idempotent :
  normalize_url "https://tiktok.com/a;/" = "https://tiktok.com/a;" /\
  normalize_url (normalize_url "https://tiktok.com/a;/") = "https://tiktok.com/a".
Proof. vm_compute. split; reflexivity. Qed.

(** C2 (amended): [normalize_url] is idempotent on the URLs of C1: a scheme
    (a letter followed by letters, digits, '+', '-' or '.'), "://", a host
    of a supported platform without '/', '?', '#', '[' or ']', a path empty
    or starting with '/' and without '?', '#' or ';', and an optional
    query without '#', all of printable ASCII characters. *)
Theorem normalize_url_idempotent_wf (s h p : string) (oq : option string) (f : family) :
  scheme_ok s = true -> host_ok h = true -> path_ok p = true -> query_ok oq = true ->
  family_of h = Some f ->
  normalize_url (normalize_url (build s h p oq)) = normalize_url (build s h p oq).
Proof.
  intros Hs Hh Hp Hq Hf.
  rewrite (normalize_build s h p oq f) by assumption.
  rewrite (normalize_build (lower s) h (rstrip_slash p)
             (opt_query (urlencode (keep_query f (qstr oq)))) f).
  - rewrite lower_idem, qstr_opt_query, keep_query_idem by exact (query_ok_ascii oq Hq).
    unfold rstrip_slash. rewrite rstrip_by_idem. reflexivity.
  - apply scheme_ok_lower, Hs.
  - exact Hh.
  - apply rstrip_slash_path_ok, Hp.
  - apply query_ok_opt, urlencode_qchar.
  - exact Hf.
Qed.

Lemma normalize_url_idempotent_wf_witness :
  normalize_url (normalize_url (build "https" "www.instagram.com" "/p/X//"
                                  (Some "igsh=1&img_index=3"))) =
  normalize_url (build "https" "www.instagram.com" "/p/X//" (Some "igsh=1&img_index=3")).
Proof. apply (normalize_url_idempotent_wf _ _ _ _ Instagram); vm_compute; reflexivity. Defined.

End Url.

(** ** [database.py]: the [file_cache] table *)

Module Cache.
Local Open Scope string_scope.
Local Open Scope nat_scope.

Local Set Warnings "-register-all".

(** JSON values as far as the cache uses them. *)
Inductive jvalue :=
| JStr (s : string)
| JList (l : list jvalue)
| JOther (repr : string).

(** The text held by the [file_id] column.  [Json v] is the text
    [json.dumps(v)]; it is represented by [v] itself, [json.loads] being
    the inverse of [json.dumps] on such values.  [Text s] is [str(x)] for a
    scalar argument. *)
Inductive cell :=
| Json (v : jvalue)
| Text (s : string).

Record row := Row {
  row_id : nat; row_url : string; row_file_id : cell; row_media_type : string;
  row_uploader_id : nat; row_created_at : nat }.

(** The rows in rowid order, and the next AUTOINCREMENT value. *)
Record db := Db { rows : list row; next_id : nat }.

(** The [file_ids] argument: a Python list of file id strings, or a
    scalar. *)
Inductive ids_arg :=
| IdList (l : list string)
| IdScalar (s : string).

Section Cache.
(** [json.loads] on the text [str(x)] of a scalar argument; [None] is the
    parse error caught by the bare [except]. *)
Variable loads_text : string -> option jvalue.

(** [SELECT ... FROM file_cache WHERE url = ?] followed by [fetchone()] *)
Fixpoint find_row (url : string) (rs : list row) : option row :=
  match rs with
  | [] => None
  | r :: rs' => if String.eqb (row_url r) url then Some r else find_row url rs'
  end.

Definition as_list (v : jvalue) : list jvalue :=
  match v with JList l => l | _ => [v] end.

(** [get_cached_file(url)] *)
Definition get_cached_file (d : db) (url : string) : option (list jvalue * string) :=
  match find_row url (rows d) with
  | None => None
  | Some r =>
      let file_ids :=
        match row_file_id r with
        | Json v => as_list v
        | Text s => match loads_text s with Some v => as_list v | None => [JStr s] end
        end in
      Some (file_ids, row_media_type r)
  end.

(** [UPDATE file_cache SET ... WHERE id = ?] *)
Definition update_row (i : nat) (c : cell) (mt : string) (uid now : nat) (r : row) : row :=
  if Nat.eqb (row_id r) i
  then Row (row_id r) (row_url r) c mt uid now
  else r.

(** [save_file_to_cache(url, file_ids, media_type, user_id)] at time [now];
    returns the row id and the new table. *)
Definition save_file_to_cache (d : db) (url : string) (file_ids : ids_arg)
    (media_type : string) (user_id now : nat) : option nat * db :=
  let '(file_id_str, media_type) :=
    match file_ids with
    | IdList l =>
        (Json (JList (map JStr l)), if 1 <? List.length l then "carousel" else media_type)
    | IdScalar s => (Text s, media_type)
    end in
  match find_row url (rows d) with
  | Some existing =>
      let cache_id := row_id existing in
      (Some cache_id,
       Db (map (update_row cache_id file_id_str media_type user_id now) (rows d)) (next_id d))
  | None =>
      let cache_id := next_id d in
      (Some cache_id,
       Db (app (rows d) [Row cache_id url file_id_str media_type user_id now]) (S cache_id))
  end.

Definition coerce (kind : string) (n : nat) : string :=
  if 1 <? n then "carousel" else kind.

Lemma find_row_app_none (url : string) (rs : list row) (r : row) :
  find_row url rs = None -> row_url r = url -> find_row url (app rs [r]) = Some r.
Proof.
  intros Hn Hu. induction rs as [|x rs IH]; simpl in *.
  - rewrite Hu, String.eqb_refl. reflexivity.
  - destruct (String.eqb (row_url x) url); [discriminate|exact (IH Hn)].
Qed.

Lemma find_row_update (url : string) (rs : list row) (r : row) c mt uid now :
  find_row url rs = Some r ->
  find_row url (map (update_row (row_id r) c mt uid now) rs) =
  Some (Row (row_id r) (row_url r) c mt uid now).
Proof.
  induction rs as [|x rs IH]; simpl; [discriminate|].
  destruct (String.eqb (row_url x) url) eqn:E.
  - intros H. injection H as <-. unfold update_row. rewrite Nat.eqb_refl. simpl.
    rewrite E. reflexivity.
  - intros H. unfold update_row at 1. destruct (Nat.eqb (row_id x) (row_id r)); simpl;
      rewrite E; exact (IH H).
Qed.

Lemma map_row_url_update (rs : list row) i c mt uid now :
  map row_url (map (update_row i c mt uid now) rs) = map row_url rs.
Proof.
  induction rs as [|x rs IH]; simpl; [reflexivity|].
  rewrite IH. unfold update_row. destruct (Nat.eqb (row_id x) i); reflexivity.
Qed.

Lemma find_row_none_notin (url : string) (rs : list row) :
  find_row url rs = None -> ~ In url (map row_url rs).
Proof.
  induction rs as [|x rs IH]; simpl; [tauto|].
  destruct (String.eqb (row_url x) url) eqn:E; [discriminate|].
  intros H [Hx|Hin]; [apply String.eqb_neq in E; exact (E Hx)|exact (IH H Hin)].
Qed.

(** Saving a list and reading it back, for any list. *)
Lemma save_get_list (d : db) (url : string) (ids : list string) (kind : string) (uid now : nat) :
  let '(res, d') := save_file_to_cache d url (IdList ids) kind uid now in
  (match find_row url (rows d) with
   | Some r => res = Some (row_id r)
   | None => res = Some (next_id d)
   end) /\
  (exists r, find_row url (rows d') = Some r /\ res = Some (row_id r) /\
     row_file_id r = Json (JList (map JStr ids)) /\
     row_media_type r = coerce kind (List.length ids)) /\
  get_cached_file d' url = Some (map JStr ids, coerce kind (List.length ids)) /\
  (NoDup (map row_url (rows d)) -> NoDup (map row_url (rows d'))).
Proof.
  unfold save_file_to_cache, get_cached_file.
  destruct (find_row url (rows d)) as [r|] eqn:E; cbn [rows next_id].
  - rewrite (find_row_update url (rows d) r _ _ _ _ E), map_row_url_update.
    split; [reflexivity|]. split; [eexists; repeat split; reflexivity|]. split; [reflexivity|]. auto.
  - rewrite (find_row_app_none url (rows d) _ E) by reflexivity.
    split; [reflexivity|]. split; [eexists; repeat split; reflexivity|]. split; [reflexivity|].
    intros Hnd. rewrite map_app. simpl. apply NoDup_app; [exact Hnd|repeat constructor; simpl; tauto|].
    intros x Hx [Hy|[]]. subst x. exact (find_row_none_notin url (rows d) E Hx).
Qed.

End Cache.

(** C4: saving a list of file ids upserts by url and returns the row id (the
    id of the existing row for that url, else the next AUTOINCREMENT
    value), keeps urls unique, and reading the url back gives exactly the
    ids, with the kind coerced to "carousel" when there is more than one.
    This holds for every list, non-empty ones in particular. *)
Theorem save_then_get_cached_file (loads_text : string -> option jvalue)
    (d : db) (url : string) (ids : list string) (kind : string) (uid now : nat) :
  let '(res, d') := save_file_to_cache d url (IdList ids) kind uid now in
  (match find_row url (rows d) with
   | Some r => res = Some (row_id r)
   | None => res = Some (next_id d)
   end) /\
  (exists r, find_row url (rows d') = Some r /\ res = Some (row_id r)) /\
  get_cached_file loads_text d' url =
    Some (map JStr ids, if 1 <? List.length ids then "carousel" else kind) /\
  (NoDup (map row_url (rows d)) -> NoDup (map row_url (rows d'))).
Proof.
  pose proof (save_get_list loads_text d url ids kind uid now) as H.
  destruct (save_file_to_cache d url (IdList ids) kind uid now) as [res d'].
  destruct H as (H1 & (r & H2 & H3 & _) & H4 & H5).
  split; [exact H1|]. split; [exists r; split; assumption|]. split; [exact H4|exact H5].
Qed.

(** C10: nothing rejects an empty id list: saving [[]] returns a row id,
    stores the JSON text "[]" with the kind unchanged, and reading back
    gives the empty list with that kind. *)
Theorem save_empty_ids_accepted (loads_text : string -> option jvalue)
    (d : db) (url : string) (kind : string) (uid now : nat) :
  let '(res, d') := save_file_to_cache d url (IdList []) kind uid now in
  res <> None /\
  (exists r, find_row url (rows d') = Some r /\
     row_file_id r = Json (JList []) /\ row_media_type r = kind) /\
  get_cached_file loads_text d' url = Some ([], kind).
Proof.
  pose proof (save_get_list loads_text d url [] kind uid now) as H.
  destruct (save_file_to_cache d url (IdList []) kind uid now) as [res d'].
  destruct H as (_ & (r & H2 & H3 & H4 & H5) & H6 & _).
  split; [rewrite H3; discriminate|]. split; [exists r; split; [|split]; assumption|].
  exact H6.
Qed.

End Cache.

(** ** [downloader.py]: [needs_telegram_optimization] *)

Module Optimize.
Local Open Scope Z_scope.

(** The first video stream as ffprobe reports it; [None] is a missing key. *)
Record stream := Stream {
  codec_name : option string; width : option Z; height : option Z;
  display_aspect_ratio : option string }.

(** The JSON output of ffprobe: [streams] is [None] when the key is absent. *)
Record probe := Probe { streams : option (list stream) }.

Inductive reason :=
| SizeTooLarge
| CodecNotH264 (codec : string)
| VerticalWithoutAspect
| CouldNotVerify
| ErrorChecking.

Definition dget {A : Type} (o : option A) (dflt : A) : A :=
  match o with Some x => x | None => dflt end.

(** [needs_telegram_optimization(file_path)]: [file_size] is
    [os.path.getsize] ([None] when it raises) and [probe_result] is the
    parsed ffprobe output ([None] when ffprobe fails, times out or prints
    text that is not JSON).  [size_mb > 48] with [size_mb = size / 2^20] is
    [size > 48 * 2^20]: a division by a power of two is exact. *)
Definition needs_telegram_optimization (file_size : option Z) (probe_result : option probe)
    : bool * option reason :=
  match file_size with
  | None => (true, Some ErrorChecking)
  | Some sz =>
      if 48 * 1024 * 1024 <? sz then (true, Some SizeTooLarge) else
      match probe_result with
      | None => (true, Some CouldNotVerify)
      | Some data =>
          match streams data with
          | Some (st :: _) =>
              let codec := Url.lower (dget (codec_name st) EmptyString) in
              let w := dget (width st) 0 in
              let h := dget (height st) 0 in
              let dar := dget (display_aspect_ratio st) EmptyString in
              if negb (Url.in_list codec ["h264"; "libx264"]%string)
              then (true, Some (CodecNotH264 codec))
              else if (w <? h) && (Url.is_empty dar || String.eqb dar "N/A")
              then (true, Some VerticalWithoutAspect)
              else (false, None)
          | _ => (false, None)
          end
      end
  end.

(** C5: a [false] answer means the size was read and is at most 48 MB,
    the probe succeeded, and when it found a video stream its codec is
    h264 (or libx264) and, for a portrait stream, a display aspect ratio
    other than "" or "N/A" is present; a failed probe always gives
    [true]. *)
Theorem needs_telegram_optimization_sound (file_size : option Z) (probe_result : option probe) :
  (fst (needs_telegram_optimization file_size probe_result) = false ->
   exists sz data,
     file_size = Some sz /\ sz <= 48 * 1024 * 1024 /\ probe_result = Some data /\
     forall st rest, streams data = Some (st :: rest) ->
       (Url.lower (dget (codec_name st) EmptyString) = "h264"%string \/
        Url.lower (dget (codec_name st) EmptyString) = "libx264"%string) /\
       (dget (width st) 0 < dget (height st) 0 ->
        exists dar, display_aspect_ratio st = Some dar /\
          dar <> EmptyString /\ dar <> "N/A"%string)) /\
  (probe_result = None -> fst (needs_telegram_optimization file_size probe_result) = true).
Proof.
  unfold needs_telegram_optimization. split.
  - destruct file_size as [sz|]; [|discriminate].
    destruct (48 * 1024 * 1024 <? sz) eqn:Esz; [discriminate|].
    destruct probe_result as [data|]; [|discriminate].
    intros H. exists sz, data. apply Z.ltb_ge in Esz.
    split; [reflexivity|]. split; [exact Esz|]. split; [reflexivity|].
    intros st rest Hs. rewrite Hs in H.
    destruct (Url.in_list (Url.lower (dget (codec_name st) EmptyString)) ["h264"; "libx264"]%string)
      eqn:Ec; [|discriminate].
    cbn [negb] in H. split.
    + cbn [Url.in_list] in Ec. rewrite orb_false_r in Ec.
      apply orb_prop in Ec as [E|E]; apply String.eqb_eq in E; [left|right]; exact E.
    + intros Hwh. apply Z.ltb_lt in Hwh. rewrite Hwh in H. cbn [andb] in H.
      destruct (display_aspect_ratio st) as [dar|]; cbn [dget Url.is_empty] in H; [|discriminate].
      exists dar. split; [reflexivity|].
      destruct dar as [|c dar']; [discriminate|].
      split; [discriminate|]. intros E. rewrite E in H. discriminate.
  - intros ->. destruct file_size as [sz|]; [|reflexivity].
    destruct (48 * 1024 * 1024 <? sz); reflexivity.
Qed.

Lemma needs_telegram_optimization_examples :
  needs_telegram_optimization (Some (50 * 1024 * 1024)) None = (true, Some SizeTooLarge) /\
  needs_telegram_optimization (Some 1000)
    (Some (Probe (Some [Stream (Some "H264"%string) (Some 720) (Some 1280) (Some "N/A"%string)]))) =
    (true, Some VerticalWithoutAspect) /\
  needs_telegram_optimization (Some 1000)
    (Some (Probe (Some [Stream (Some "h264"%string) (Some 720) (Some 1280) (Some "9:16"%string)]))) =
    (false, None) /\
  needs_telegram_optimization (Some 1000) (Some (Probe (Some []))) = (false, None).
Proof. vm_compute. repeat split. Qed.

End Optimize.

(** ** [downloader.py]: [generate_thumbnail] *)

Module Thumbnail.
Local Open Scope string_scope.
Local Open Scope Z_scope.

(** How a [subprocess.run(..., check=True, timeout=10)] call ends. *)
Inductive run_result := RunOk | RunTimeout | RunFailed.

(** What the file system and ffmpeg do: the end of each ffmpeg call and the
    size of the file it leaves ([None]: no file). *)
Record env := Env {
  first_run : run_result; thumb_size : option Z;
  second_run : run_result; temp_size : option Z }.

(** The commands run, the value returned, and the size of the file at
    [thumbnail_path] afterwards. *)
Record outcome := Outcome {
  commands : list (list string); returned : option string; final_size : option Z }.

(** [os.path.join] on POSIX, for a directory not ending in '/'. *)
Definition path_join (dir name : string) : string := dir ++ "/" ++ name.

Definition nice (posix : bool) (cmd : list string) : list string :=
  if posix then app ["nice"; "-n"; "15"] cmd else cmd.

(** [generate_thumbnail(video_path, output_dir, time_offset)]: [base_name]
    is [splitext(basename(video_path))[0]] and [offset] is
    [str(time_offset)]. *)
Definition generate_thumbnail (e : env) (posix : bool)
    (video_path output_dir base_name offset : string) : outcome :=
  let thumbnail_path := path_join output_dir (base_name ++ "_thumb.jpg") in
  let cmd := nice posix
    ["ffmpeg"; "-y"; "-ss"; offset; "-i"; video_path;
     "-vf"; "scale=320:320:force_original_aspect_ratio=decrease";
     "-frames:v"; "1"; "-q:v"; "2"; thumbnail_path] in
  match first_run e with
  | RunTimeout | RunFailed => Outcome [cmd] None (thumb_size e)
  | RunOk =>
      match thumb_size e with
      | None => Outcome [cmd] None None
      | Some file_size =>
          if 200 * 1024 <? file_size then
            let temp_path := path_join output_dir (base_name ++ "_thumb_temp.jpg") in
            let cmd_compress := nice posix
              ["ffmpeg"; "-y"; "-i"; thumbnail_path;
               "-vf"; "scale=320:320:force_original_aspect_ratio=decrease";
               "-q:v"; "5"; temp_path] in
            match second_run e with
            | RunTimeout | RunFailed => Outcome [cmd; cmd_compress] None (Some file_size)
            | RunOk =>
                match temp_size e with
                | Some t =>
                    if t <? 200 * 1024
                    then Outcome [cmd; cmd_compress] (Some thumbnail_path) (Some t)
                    else Outcome [cmd; cmd_compress] (Some thumbnail_path) (Some file_size)
                | None => Outcome [cmd; cmd_compress] (Some thumbnail_path) (Some file_size)
                end
            end
          else Outcome [cmd] (Some thumbnail_path) (Some file_size)
      end
  end.

(** C6: when the frame is over 200 KB (300 KB) and the quality-5 re-encode
    is still over (250 KB), the temporary file is dropped and the path of
    the 300 KB thumbnail is returned, although the code's own comment says
    the thumbnail must be under 200 KB for Telegram. *)
Theorem generate_thumbnail_returns_oversized :
  let o := generate_thumbnail (Env RunOk (Some (300 * 1024)) RunOk (Some (250 * 1024)))
             true "/dl/clip.mp4" "/dl" "clip" "1.0" in
  commands o =
    [["nice"; "-n"; "15"; "ffmpeg"; "-y"; "-ss"; "1.0"; "-i"; "/dl/clip.mp4";
      "-vf"; "scale=320:320:force_original_aspect_ratio=decrease";
      "-frames:v"; "1"; "-q:v"; "2"; "/dl/clip_thumb.jpg"];
     ["nice"; "-n"; "15"; "ffmpeg"; "-y"; "-i"; "/dl/clip_thumb.jpg";
      "-vf"; "scale=320:320:force_original_aspect_ratio=decrease";
      "-q:v"; "5"; "/dl/clip_thumb_temp.jpg"]] /\
  returned o = Some "/dl/clip_thumb.jpg" /\
  final_size o = Some (300 * 1024) /\ 200 * 1024 < 300 * 1024.
Proof. vm_compute. repeat split. Qed.

End Thumbnail.

(** ** [downloader.py]: the bitrates of [compress_video] *)

Module Compress.
Local Open Scope Q_scope.

(** Python floats are taken as exact rationals. *)
Definition Qltb (x y : Q) : bool := negb (Qle_bool y x).

(** The rate flags of the ffmpeg command, as [int(...)] values in kbit/s:
    [-b:v], [-maxrate], [-bufsize] and [-b:a]. *)
Record flags := Flags { b_v : Z; maxrate : Z; bufsize : Z; b_a : Z }.

(** Steps 2 of [compress_video]: the video bitrate in kbit/s. *)
Definition video_bitrate_kbps (target_size_mb : Z) (duration : Q) : Q :=
  let target_bits := inject_Z target_size_mb * 8 * 1024 * 1024 in
  let audio_bitrate_kbps := 128 in
  let audio_bits := audio_bitrate_kbps * 1024 * duration in
  let video_bits := target_bits - audio_bits in
  let video_bitrate_kbps :=
    if Qle_bool video_bits 0 then 100
    else let video_bitrate_bps := video_bits / duration in video_bitrate_bps / 1024 in
  let video_bitrate_kbps := video_bitrate_kbps * (9 # 10) in
  if Qltb video_bitrate_kbps 50 then 50 else video_bitrate_kbps.

(** [compress_video(input_path, output_dir, target_size_mb)] up to the
    ffmpeg call: [duration] is the probed duration ([None] when ffprobe or
    [float()] fails); the result is the rate flags passed to ffmpeg. *)
Definition compress_video (duration : option Q) (target_size_mb : Z) : option flags :=
  match duration with
  | None => None
  | Some d =>
      if Qle_bool d 0 then None else
      let v := video_bitrate_kbps target_size_mb d in
      Some (Flags (Qfloor v) (Qfloor (v * (3 # 2))) (Qfloor (v * 2)) 128)
  end.

(** The rate as the claim computes it: [(target_bits - audio_bits) / d * 0.9]
    in kbit/s, with a floor of 50. *)
Definition claimed_kbps (d : Q) : Q :=
  let v := (49 * 8 * 1024 * 1024 - 128 * 1024 * d) / d / 1024 * (9 # 10) in
  if Qltb v 50 then 50 else v.

(** The rate the code uses, case by case. *)
Definition amended_kbps (d : Q) : Q :=
  if Qltb d 3136 then claimed_kbps d else 90.

Lemma Qltb_iff (x y : Q) : Qltb x y = true <-> x < y.
Proof.
  unfold Qltb. rewrite negb_true_iff. split.
  - intros H. apply Qnot_le_lt. intros H'. apply Qle_bool_iff in H'. congruence.
  - intros H. destruct (Qle_bool y x) eqn:E; [|reflexivity].
    apply Qle_bool_iff in E. exfalso. exact (Qlt_not_le _ _ H E).
Qed.

(** C7 (counterexample): for a 4000 s video the audio alone exceeds the
    49 MB budget; the code falls back to 100 kbit/s and encodes at 90k,
    where the claimed formula floored at 50 gives 50. *)
Lemma compress_video_long_input :
  compress_video (Some 4000) 49 = Some (Flags 90 135 180 128) /\
  Qfloor (claimed_kbps 4000) = 50%Z.
Proof. vm_compute. split; reflexivity. Qed.

(** C7 (amended): for a duration d > 0 and a 49 MB target, the video
    bitrate is [(target_bits - audio_bits) / d / 1024 * 0.9] floored at 50
    when d < 3136 s (the audio leaves room for video) and 90 (the 100
    kbit/s fallback times 0.9) otherwise; the flags are the integer parts of
    v, 1.5 v and 2 v, and audio stays at 128k. *)
Theorem compress_video_bitrate (d : Q) (Hd : 0 < d) :
  exists v, v == amended_kbps d /\
    compress_video (Some d) 49 =
      Some (Flags (Qfloor v) (Qfloor (v * (3 # 2))) (Qfloor (v * 2)) 128).
Proof.
  exists (video_bitrate_kbps 49 d). split.
  - unfold amended_kbps, video_bitrate_kbps.
    destruct (Qltb d 3136) eqn:E.
    + apply Qltb_iff in E.
      assert (Hvb : Qle_bool (inject_Z 49 * 8 * 1024 * 1024 - 128 * 1024 * d) 0 = false).
      { destruct (Qle_bool _ 0) eqn:F; [|reflexivity].
        apply Qle_bool_iff in F. exfalso. unfold inject_Z in F. lra. }
      rewrite Hvb. unfold claimed_kbps. reflexivity.
    + assert (Hge : 3136 <= d).
      { apply Qnot_lt_le. intros H. apply Qltb_iff in H. congruence. }
      assert (Hvb : Qle_bool (inject_Z 49 * 8 * 1024 * 1024 - 128 * 1024 * d) 0 = true).
      { apply Qle_bool_iff. unfold inject_Z. lra. }
      rewrite Hvb. reflexivity.
  - unfold compress_video.
    destruct (Qle_bool d 0) eqn:E; [|reflexivity].
    apply Qle_bool_iff in E. exfalso. exact (Qlt_not_le _ _ Hd E).
Qed.

Lemma compress_video_bitrate_witness :
  (0 < 1000) /\
  exists v, v == amended_kbps 1000 /\
    compress_video (Some 1000) 49 =
      Some (Flags (Qfloor v) (Qfloor (v * (3 # 2))) (Qfloor (v * 2)) 128).
Proof.
  split; [reflexivity|]. apply (compress_video_bitrate 1000). reflexivity.
Defined.

End Compress.

(** ** [bot.py]: voice batches, [process_batch] and [process_voice_batch] *)

Module Voice.
Local Open Scope string_scope.
Local Open Scope nat_scope.

Inductive ctype := Voice | VideoNote | TextMsg | OtherMsg.

Record message := Message { message_id : nat; content_type : ctype }.

Definition is_voice (m : message) : bool :=
  match content_type m with Voice | VideoNote => true | _ => false end.

(** [list.sort(key=lambda msg: msg.message_id)]: a stable insertion sort. *)
Fixpoint insert (x : message) (l : list message) : list message :=
  match l with
  | [] => [x]
  | y :: r => if message_id x <? message_id y then x :: y :: r else y :: insert x r
  end.

Definition sort_by_id (l : list message) : list message :=
  fold_left (fun acc x => insert x acc) l [].

(** The voice messages of a flushed buffer, in the order
    [process_voice_batch] receives them. *)
Definition voice_messages (buffer : list message) : list message :=
  sort_by_id (filter is_voice buffer).

Definition nl : string := String "010"%char EmptyString.

Definition str_of_nat (n : nat) : string := NilZero.string_of_uint (Nat.to_uint n).

(** [text and text.strip()] *)
Definition nonblank (t : string) : bool := negb (Url.is_empty (Url.strip t)).

(** [transcribed_texts[index] = ...]: an index inside the list. *)
Fixpoint set_nth {A : Type} (l : list A) (i : nat) (v : A) : list A :=
  match l, i with
  | [], _ => []
  | _ :: r, 0 => v :: r
  | x :: r, S i => x :: set_nth r i v
  end.

Section Batch.
(** [transcribe_audio_segments] on the file of a message; [None] is an
    exception, stored as "". *)
Variable transcribe : message -> option string.
(** The words "voice message" and "video message" of the section headers. *)
Variables voice_label video_label : string.

Definition text_of (m : message) : string :=
  match transcribe m with Some t => t | None => EmptyString end.

Definition label (m : message) : string :=
  match content_type m with Voice => voice_label | _ => video_label end.

(** Collecting the futures in [order] (a permutation of the submission
    indices): the result of the i-th file is stored at index i. *)
Definition collect (msgs : list message) (order : list nat) : list (option string) :=
  fold_left (fun texts i => set_nth texts i (Some (text_of (nth i msgs (Message 0 Voice)))))
    order (repeat None (List.length msgs)).

(** The loop over [enumerate(zip(transcribed_texts, voice_messages))]. *)
Fixpoint combine_loop (i : nat) (texts : list (option string)) (msgs : list message)
    (acc : string) : string :=
  match texts, msgs with
  | t :: ts, m :: ms =>
      let acc :=
        match t with
        | Some s =>
            if nonblank s
            then acc ++ nl ++ nl ++ "--- " ++ label m ++ " " ++ str_of_nat (S i) ++ " ---" ++ nl ++ s
            else acc
        | None => acc
        end in
      combine_loop (S i) ts ms acc
  | _, _ => acc
  end.

(** [combined_text] of [process_voice_batch], after [.strip()]. *)
Definition combined_transcript (msgs : list message) (order : list nat) : string :=
  Url.strip (combine_loop 0 (collect msgs order) msgs EmptyString).

(** [process_batch] followed by [process_voice_batch]. *)
Definition process_batch (buffer : list message) (order : list nat) : string :=
  combined_transcript (voice_messages buffer) order.

(** Section k for message m, empty when its transcript is blank. *)
Definition section (k : nat) (m : message) : string :=
  if nonblank (text_of m)
  then nl ++ nl ++ "--- " ++ label m ++ " " ++ str_of_nat k ++ " ---" ++ nl ++ text_of m
  else EmptyString.

Fixpoint sections (k : nat) (ms : list message) : string :=
  match ms with
  | [] => EmptyString
  | m :: r => section k m ++ sections (S k) r
  end.

End Batch.
Definition lt_id (a b : message) : Prop := message_id a < message_id b.

Lemma set_nth_length {A : Type} (l : list A) (i : nat) (v : A) :
  List.length (set_nth l i v) = List.length l.
Proof.
  revert i. induction l as [|x l IH]; intros [|i]; simpl; try reflexivity. rewrite IH. reflexivity.
Qed.

Lemma nth_set_nth {A : Type} (l : list A) (i j : nat) (v d : A) :
  i < List.length l -> nth j (set_nth l i v) d = if j =? i then v else nth j l d.
Proof.
  revert i j. induction l as [|x l IH]; intros [|i] [|j] H; simpl in *; try lia; try reflexivity.
  apply IH. lia.
Qed.

Lemma nth_fold_set {A : Type} (f : nat -> A) (d : A) (j : nat) :
  forall (ord : list nat) (t : list A),
  (forall i, In i ord -> i < List.length t) ->
  nth j (fold_left (fun t i => set_nth t i (f i)) ord t) d =
  if existsb (Nat.eqb j) ord then f j else nth j t d.
Proof.
  induction ord as [|i ord IH]; intros t H; simpl; [reflexivity|].
  rewrite IH.
  - rewrite nth_set_nth by (apply H; left; reflexivity).
    destruct (j =? i) eqn:E; simpl.
    + apply Nat.eqb_eq in E. subst. destruct (existsb _ ord); reflexivity.
    + reflexivity.
  - intros k Hk. rewrite set_nth_length. apply H. right. exact Hk.
Qed.

Lemma fold_set_length {A : Type} (f : nat -> A) (ord : list nat) (t : list A) :
  List.length (fold_left (fun t i => set_nth t i (f i)) ord t) = List.length t.
Proof.
  revert t. induction ord as [|i ord IH]; intros t; simpl; [reflexivity|].
  rewrite IH. apply set_nth_length.
Qed.

Lemma existsb_eqb_in (j : nat) (l : list nat) : In j l -> existsb (Nat.eqb j) l = true.
Proof.
  intros H. apply existsb_exists. exists j. split; [exact H|apply Nat.eqb_refl].
Qed.

Section Proofs.
Variable transcribe : message -> option string.
Variables voice_label video_label : string.

(** Whatever order the futures are collected in, index i holds the
    transcript of the i-th message, empty ones included. *)
Lemma collect_perm (msgs : list message) (order : list nat) :
  Permutation order (seq 0 (List.length msgs)) ->
  collect transcribe msgs order = map (fun m => Some (text_of transcribe m)) msgs.
Proof.
  intros Hp. unfold collect.
  apply nth_ext with (d := None) (d' := Some (text_of transcribe (Message 0 Voice))).
  - rewrite fold_set_length, repeat_length, length_map. reflexivity.
  - intros j Hj. rewrite fold_set_length, repeat_length in Hj.
    rewrite nth_fold_set.
    + rewrite existsb_eqb_in.
      * rewrite (map_nth (fun m => Some (text_of transcribe m))). reflexivity.
      * apply (Permutation_in _ (Permutation_sym Hp)). apply in_seq. lia.
    + intros i Hi. rewrite repeat_length.
      apply (Permutation_in _ Hp) in Hi. apply in_seq in Hi. lia.
Qed.

Lemma combine_loop_sections (ms : list message) :
  forall i acc,
  combine_loop voice_label video_label i
    (map (fun m => Some (text_of transcribe m)) ms) ms acc =
  acc ++ sections transcribe voice_label video_label (S i) ms.
Proof.
  induction ms as [|m ms IH]; intros i acc; simpl.
  - rewrite Url.append_nil_r. reflexivity.
  - rewrite IH. unfold section. destruct (nonblank (text_of transcribe m)).
    + rewrite Url.append_assoc. reflexivity.
    + reflexivity.
Qed.

End Proofs.

Lemma insert_perm (x : message) (l : list message) : Permutation (insert x l) (x :: l).
Proof.
  induction l as [|y l IH]; simpl; [reflexivity|].
  destruct (message_id x <? message_id y); [reflexivity|].
  rewrite IH. apply perm_swap.
Qed.

Lemma insert_sorted (x : message) (l : list message) :
  StronglySorted lt_id l -> ~ In (message_id x) (map message_id l) ->
  StronglySorted lt_id (insert x l).
Proof.
  induction l as [|y l IH]; intros Hs Hn; simpl.
  - repeat constructor.
  - inversion Hs as [|? ? Hs' Hf]; subst.
    destruct (message_id x <? message_id y) eqn:E.
    + apply Nat.ltb_lt in E. constructor; [exact Hs|]. constructor; [exact E|].
      eapply Forall_impl; [|exact Hf]. unfold lt_id. intros a Ha. lia.
    + apply Nat.ltb_ge in E. simpl in Hn. constructor.
      * apply IH; [exact Hs'|]. intros H. apply Hn. right. exact H.
      * apply Forall_forall. intros a Ha.
        apply (Permutation_in _ (insert_perm x l)) in Ha. destruct Ha as [<-|Ha].
        -- unfold lt_id. assert (message_id y <> message_id x) by (intros H; apply Hn; left; exact H).
           lia.
        -- rewrite Forall_forall in Hf. apply Hf. exact Ha.
Qed.

Lemma sort_aux (l acc : list message) :
  StronglySorted lt_id acc -> NoDup (map message_id (app acc l)) ->
  StronglySorted lt_id (fold_left (fun acc x => insert x acc) l acc) /\
  Permutation (fold_left (fun acc x => insert x acc) l acc) (app acc l).
Proof.
  revert acc. induction l as [|x l IH]; intros acc Hs Hd; simpl.
  - rewrite app_nil_r. split; [exact Hs|reflexivity].
  - assert (Hn : ~ In (message_id x) (map message_id acc)).
    { rewrite map_app in Hd. simpl in Hd. apply NoDup_remove_2 in Hd.
      intros H. apply Hd. apply in_or_app. left. exact H. }
    destruct (IH (insert x acc)) as [H1 H2].
    + apply insert_sorted; assumption.
    + apply (Permutation_NoDup (l := map message_id (app acc (x :: l)))); [|exact Hd].
      apply Permutation_map. rewrite (insert_perm x acc). simpl.
      apply Permutation_sym, Permutation_middle.
    + split; [exact H1|]. rewrite H2, (insert_perm x acc). simpl. apply Permutation_middle.
Qed.

Lemma sorted_unique (l1 l2 : list message) :
  StronglySorted lt_id l1 -> StronglySorted lt_id l2 -> Permutation l1 l2 -> l1 = l2.
Proof.
  revert l2. induction l1 as [|x l1 IH]; intros l2 H1 H2 Hp.
  - symmetry. apply Permutation_nil, Hp.
  - destruct l2 as [|y l2]; [apply Permutation_sym, Permutation_nil in Hp; discriminate|].
    inversion H1 as [|? ? H1' F1]; inversion H2 as [|? ? H2' F2]; subst.
    assert (Exy : x = y).
    { destruct (Permutation_in x Hp (or_introl eq_refl)) as [E|Hx]; [symmetry; exact E|].
      destruct (Permutation_in y (Permutation_sym Hp) (or_introl eq_refl)) as [E|Hy]; [exact E|].
      rewrite Forall_forall in F1, F2. specialize (F1 y Hy). specialize (F2 x Hx).
      unfold lt_id in F1, F2. lia. }
    subst y. f_equal. apply IH; [exact H1'|exact H2'|]. exact (Permutation_cons_inv Hp).
Qed.

Lemma sorted_nodup (l : list message) : StronglySorted lt_id l -> NoDup (map message_id l).
Proof.
  induction 1 as [|x l Hs IH Hf]; simpl; constructor; [|exact IH].
  intros Hin. apply in_map_iff in Hin as [y [Ey Hy]]. rewrite Forall_forall in Hf.
  specialize (Hf y Hy). unfold lt_id in Hf. lia.
Qed.

(** C8: for a flushed buffer whose voice messages, in whatever arrival
    order, are ms with ids m1 < m2 < ... < mn, and for any order in which
    the transcription futures are collected, the batch is ms sorted by id,
    the i-th stored transcript is that of m_i (empty ones included), and
    the published text is section 1 of m_1, ..., section n of m_n, a
    section being left out when its transcript is blank. *)
Theorem voice_batch_in_id_order (transcribe : message -> option string)
    (voice_label video_label : string)
    (buffer ms : list message) (order : list nat) :
  Permutation (filter is_voice buffer) ms ->
  StronglySorted lt_id ms ->
  Permutation order (seq 0 (List.length ms)) ->
  voice_messages buffer = ms /\
  collect transcribe (voice_messages buffer) order =
    map (fun m => Some (text_of transcribe m)) ms /\
  process_batch transcribe voice_label video_label buffer order =
    Url.strip (sections transcribe voice_label video_label 1 ms).
Proof.
  intros Hp Hs Ho.
  assert (Hv : voice_messages buffer = ms).
  { unfold voice_messages, sort_by_id.
    destruct (sort_aux (filter is_voice buffer) [] (SSorted_nil _)) as [S1 S2].
    - simpl. apply (Permutation_NoDup (l := map message_id ms)).
      + apply Permutation_map, Permutation_sym, Hp.
      + apply sorted_nodup, Hs.
    - apply sorted_unique; [exact S1|exact Hs|]. simpl in S2. rewrite S2. exact Hp. }
  split; [exact Hv|]. rewrite Hv.
  assert (Hc := collect_perm transcribe ms order Ho).
  split; [exact Hc|].
  unfold process_batch, combined_transcript. rewrite Hv, Hc, combine_loop_sections.
  reflexivity.
Qed.

Definition sample_transcribe (m : message) : option string :=
  match message_id m with
  | 10 => Some "first"
  | 11 => Some "  "
  | _ => Some "third"
  end.

Lemma voice_batch_in_id_order_witness :
  voice_messages [Message 12 Voice; Message 5 TextMsg; Message 10 VideoNote] =
    [Message 10 VideoNote; Message 12 Voice] /\
  collect sample_transcribe [Message 10 VideoNote; Message 12 Voice] [1; 0] =
    [Some "first"; Some "third"] /\
  process_batch sample_transcribe "Voice" "Video"
    [Message 12 Voice; Message 5 TextMsg; Message 10 VideoNote] [1; 0] =
    Url.strip (sections sample_transcribe "Voice" "Video" 1
                 [Message 10 VideoNote; Message 12 Voice]).
Proof.
  apply (voice_batch_in_id_order sample_transcribe "Voice" "Video"
           [Message 12 Voice; Message 5 TextMsg; Message 10 VideoNote]
           [Message 10 VideoNote; Message 12 Voice] [1; 0]).
  - simpl. apply perm_swap.
  - repeat constructor; unfold lt_id; simpl; lia.
  - simpl. apply perm_swap.
Defined.

Example voice_batch_text :
  process_batch sample_transcribe "Voice" "Video"
    [Message 12 Voice; Message 11 Voice; Message 10 VideoNote] [2; 0; 1] =
  ("--- Video 1 ---" ++ nl ++ "first" ++ nl ++ nl ++ "--- Voice 3 ---" ++ nl ++ "third")%string.
Proof. vm_compute. reflexivity. Qed.

End Voice.

(** ** [bot.py]: [add_message_to_batch], the per-user message buffer *)

Module Batching.
Import Voice.
Local Open Scope Z_scope.

(** [BATCH_TIMEOUT] and the 2 s "rapid" window, in milliseconds. *)
Definition BATCH_TIMEOUT : Z := 500.
Definition RAPID_WINDOW : Z := 2000.
Definition BATCH_MAX_SIZE : nat := 50.

(** One user's entries of [user_message_batches], [user_last_message_time]
    and [batch_timers] (the deadline of the live timer), and the batches
    handed to [process_batch] so far. *)
Record bstate := BState {
  buffer : list message; last_time : option Z; timer : option Z;
  batches : list (list message) }.

Definition init : bstate := BState [] None None [].

(** [process_batch(user_id)] run at time [now]: take and clear the buffer,
    drop the timer; nothing happens on an empty buffer. *)
Definition flush (now : Z) (st : bstate) : bstate :=
  match buffer st with
  | [] => st
  | msgs => BState [] (Some now) None (app (batches st) [msgs])
  end.

(** The live timer fires when its deadline is not after [now]. *)
Definition fire_until (now : Z) (st : bstate) : bstate :=
  match timer st with
  | Some d => if d <=? now then flush d st else st
  | None => st
  end.

(** [add_message_to_batch(user_id, message)] at time [now]. *)
Definition add_message_to_batch (now : Z) (m : message) (st : bstate) : bstate :=
  let is_rapid :=
    match last_time st with Some t => now - t <? RAPID_WINDOW | None => false end in
  let buf := app (buffer st) [m] in
  let st := BState buf (Some now) None (batches st) in
  if is_voice m then BState buf (Some now) (Some (now + BATCH_TIMEOUT)) (batches st)
  else if is_rapid || (BATCH_MAX_SIZE <=? List.length buf)%nat then flush now st
  else BState buf (Some now) (Some (now + BATCH_TIMEOUT)) (batches st).

(** A sequence of arrivals: due timers fire before each arrival. *)
Definition step (st : bstate) (a : Z * message) : bstate :=
  add_message_to_batch (fst a) (snd a) (fire_until (fst a) st).

Definition run (arrivals : list (Z * message)) (st : bstate) : bstate :=
  fold_left step arrivals st.

(** After the last arrival the pending timer fires. *)
Definition finish (st : bstate) : bstate :=
  match timer st with Some d => flush d st | None => st end.

(** Voice messages each arriving less than [BATCH_TIMEOUT] after the
    previous one. *)
Fixpoint voice_burst (prev : Z) (arrivals : list (Z * message)) : Prop :=
  match arrivals with
  | [] => True
  | (t, m) :: r => prev <= t /\ t - prev < BATCH_TIMEOUT /\ is_voice m = true /\ voice_burst t r
  end.

Definition burst (n : nat) : list (Z * message) :=
  map (fun i => (Z.of_nat i * 100, Message i Voice)) (seq 0 n).

Fixpoint last_arrival (prev : Z) (arrivals : list (Z * message)) : Z :=
  match arrivals with [] => prev | (t, _) :: r => last_arrival t r end.

Lemma run_burst_invariant (arrivals : list (Z * message)) :
  forall (prev : Z) (buf : list message) (lt : option Z) (bs : list (list message)),
  voice_burst prev arrivals ->
  run arrivals (BState buf lt (Some (prev + BATCH_TIMEOUT)) bs) =
  BState (app buf (map snd arrivals))
    (match arrivals with [] => lt | _ => Some (last_arrival prev arrivals) end)
    (Some (last_arrival prev arrivals + BATCH_TIMEOUT)) bs.
Proof.
  induction arrivals as [|[t m] r IH]; intros prev buf lt bs H.
  - simpl. rewrite app_nil_r. reflexivity.
  - destruct H as (H1 & H2 & Hv & Hr).
    unfold run. simpl fold_left. unfold step at 2, fire_until. cbn [fst snd timer].
    assert (Hd : (prev + BATCH_TIMEOUT <=? t) = false) by (apply Z.leb_gt; lia).
    rewrite Hd. unfold add_message_to_batch. cbn [buffer batches last_time]. rewrite Hv.
    fold (run r (BState (app buf [m]) (Some t) (Some (t + BATCH_TIMEOUT)) bs)).
    rewrite IH by exact Hr. rewrite <- app_assoc.
    destruct r; reflexivity.
Qed.

(** C9 (counterexample): 51 voice messages 100 ms apart are not split at
    50: nothing is flushed while they arrive, and the timer then flushes a
    single batch of 51. *)
Lemma voice_burst_51_single_batch :
  batches (run (burst 51) init) = [] /\
  map (@List.length message) (batches (finish (run (burst 51) init))) = [51%nat].
Proof. vm_compute. split; reflexivity. Qed.

(** C9 (amended): voice and video-note messages are only flushed by the
    0.5 s timer, restarted on each arrival; there is no size cap. From a
    state with an empty buffer and no timer, a run of voice messages each
    arriving less than 0.5 s after the previous one is never flushed while
    it lasts, and the timer then flushes it as one batch, whatever its
    length. *)
Theorem voice_burst_one_batch (st : bstate) (t1 : Z) (m1 : message)
    (rest : list (Z * message)) :
  buffer st = [] -> timer st = None -> is_voice m1 = true -> voice_burst t1 rest ->
  batches (run ((t1, m1) :: rest) st) = batches st /\
  batches (finish (run ((t1, m1) :: rest) st)) = app (batches st) [m1 :: map snd rest].
Proof.
  destruct st as [b lt tm bs]. cbn [buffer timer batches]. intros -> -> Hv Hr.
  assert (E : run ((t1, m1) :: rest) (BState [] lt None bs) =
              run rest (BState [m1] (Some t1) (Some (t1 + BATCH_TIMEOUT)) bs)).
  { unfold run. cbn [fold_left]. f_equal.
    unfold step, fire_until, add_message_to_batch. cbn [fst snd timer buffer batches last_time app].
    rewrite Hv. reflexivity. }
  rewrite E, run_burst_invariant by exact Hr.
  split; reflexivity.
Qed.

Lemma voice_burst_one_batch_witness :
  batches (run [(0, Message 1 Voice); (100, Message 2 Voice); (300, Message 3 VideoNote)] init) = [] /\
  batches (finish (run [(0, Message 1 Voice); (100, Message 2 Voice); (300, Message 3 VideoNote)] init)) =
    app [] [[Message 1 Voice; Message 2 Voice; Message 3 VideoNote]].
Proof.
  apply (voice_burst_one_batch init 0 (Message 1 Voice)
           [(100, Message 2 Voice); (300, Message 3 VideoNote)]);
    [reflexivity|reflexivity|reflexivity|].
  simpl. unfold BATCH_TIMEOUT. repeat split; try reflexivity; lia.
Defined.

Example text_messages_flush_when_rapid :
  map (@List.length message)
    (batches (run [(0, Message 1 TextMsg); (100, Message 2 TextMsg)] init)) = [2%nat].
Proof. vm_compute. reflexivity. Qed.

End Batching.

(** ** [bot.py]: the in-flight registry [active_downloads] *)

Module Registry.
Local Open Scope string_scope.
Local Open Scope nat_scope.

(** The dict [active_downloads] in insertion order: canonical url to
    future.  Futures are numbered; [file_ids] is a result. *)
Definition registry := list (string * nat).
Definition file_ids := list string.

Fixpoint lookup (k : string) (r : registry) : option nat :=
  match r with
  | [] => None
  | (k', f) :: r' => if String.eqb k' k then Some f else lookup k r'
  end.

(** [active_downloads[k] = f] *)
Fixpoint dict_set (k : string) (f : nat) (r : registry) : registry :=
  match r with
  | [] => [(k, f)]
  | (k', f') :: r' => if String.eqb k' k then (k, f) :: r' else (k', f') :: dict_set k f r'
  end.

(** [active_downloads.pop(k, None)] *)
Fixpoint dict_pop (k : string) (r : registry) : registry :=
  match r with
  | [] => []
  | (k', f') :: r' => if String.eqb k' k then r' else (k', f') :: dict_pop k r'
  end.

(** Where each request handler is.  [inline_handler] runs from its registry
    check (line 1988); its download task runs [download_and_cache_inline];
    message requests run the message handler from its registry check
    (line 2430) on. *)
Inductive pc :=
| QStart (k : string)            (* [inline_handler]: [if normalized_url in active_downloads] *)
| QWait (k : string) (f : nat)   (* [asyncio.wait_for(future, timeout=8.0)] *)
| IStart (k : string)            (* the check and install, no await between *)
| IWait (k : string) (f : nat)   (* [await future] on the entry found *)
| IRun (k : string) (f : nat)    (* the download, which fulfils its future *)
| IFinally (k : string) (f : nat)
| MStart (k : string)            (* [if normalized_url in active_downloads] *)
| MWait (k : string) (f : nat)   (* [asyncio.wait_for(future, timeout=300.0)] *)
| MReuse (k : string)            (* the on-disk reuse, then the install *)
| MRun (k : string) (f : nat)    (* the download; [finally: pass] *)
| Finished (r : option file_ids)
| Raised.                        (* [CancelledError] escaped the handler *)

(** A future that is done: fulfilled with a result, or cancelled. *)
Inductive fstate := Done (r : file_ids) | Cancelled.

Record state := St {
  reg : registry;
  futs : list (nat * fstate);   (* the futures that are done *)
  tasks : list pc;
  fresh : nat }.

(** A scheduling decision: which task runs its next atomic segment, and the
    outcome of what the model leaves open (a wait that ends by timeout, the
    cache or the disk reuse serving the request, a download body that
    fulfils its future, and the result it sets). *)
Record choice := Choice { task : nat; flag : bool; res : file_ids }.

Fixpoint fut_state (f : nat) (fs : list (nat * fstate)) : option fstate :=
  match fs with
  | [] => None
  | (g, r) :: fs' => if Nat.eqb g f then Some r else fut_state f fs'
  end.

(** [if not future.done(): future.set_result(r)]; the unguarded calls raise
    [InvalidStateError] on a done future, which the download's
    [except Exception] catches, so they too leave it as it is. *)
Definition set_result (f : nat) (r : file_ids) (fs : list (nat * fstate)) :=
  match fut_state f fs with Some _ => fs | None => (f, Done r) :: fs end.

(** [future.cancel()]: what [asyncio.wait_for] does to the future it awaits
    when the timeout expires; a done future is left as it is. *)
Definition cancel (f : nat) (fs : list (nat * fstate)) :=
  match fut_state f fs with Some _ => fs | None => (f, Cancelled) :: fs end.

Definition goto (i : nat) (p : pc) (s : state) : state :=
  St (reg s) (futs s) (Voice.set_nth (tasks s) i p) (fresh s).

Definition with_reg (r : registry) (s : state) : state := St r (futs s) (tasks s) (fresh s).

Definition with_futs (fs : list (nat * fstate)) (s : state) : state :=
  St (reg s) fs (tasks s) (fresh s).

Definition step (s : state) (c : choice) : option state :=
  let i := task c in
  match nth_error (tasks s) i with
  | None => None
  | Some p =>
      match p with
      | QStart k =>
          match lookup k (reg s) with
          | Some f => Some (goto i (QWait k f) s)
          | None => Some (goto i (IStart k) s)
          end
      | QWait k f =>
          match fut_state f (futs s) with
          | Some (Done (_ :: _ as r)) =>
              (* the cache lookup after the wait: a hit answers, a miss
                 starts the download task *)
              if flag c then Some (goto i (Finished (Some r)) s)
              else Some (goto i (IStart k) s)
          | Some (Done []) => Some (goto i (IStart k) s)
          | Some Cancelled => Some (goto i Raised s)
          | None =>
              if flag c then None
              else Some (goto i (Finished None) (with_futs (cancel f (futs s)) s))
          end
      | IStart k =>
          match lookup k (reg s) with
          | Some f => Some (goto i (IWait k f) s)
          | None =>
              let f := fresh s in
              Some (St (dict_set k f (reg s)) (futs s)
                       (Voice.set_nth (tasks s) i (IRun k f)) (S f))
          end
      | IWait k f =>
          match fut_state f (futs s) with
          | Some (Done r) => Some (goto i (Finished (Some r)) s)
          | Some Cancelled => Some (goto i Raised s)
          | None => None
          end
      | IRun k f =>
          if flag c
          then Some (goto i (IFinally k f) (with_futs (set_result f (res c) (futs s)) s))
          else Some (goto i (IFinally k f) s)
      | IFinally k f =>
          let r := match lookup k (reg s), fut_state f (futs s) with
                   | Some _, Some _ => dict_pop k (reg s)
                   | _, _ => reg s
                   end in
          Some (goto i (Finished None) (with_reg r s))
      | MStart k =>
          match lookup k (reg s) with
          | Some f => Some (goto i (MWait k f) s)
          | None => Some (goto i (MReuse k) s)
          end
      | MWait k f =>
          match fut_state f (futs s) with
          | Some (Done (_ :: _ as r)) => Some (goto i (Finished (Some r)) s)
          | Some (Done []) => Some (goto i (MReuse k) s)
          | Some Cancelled => Some (goto i Raised s)
          | None =>
              if flag c then None
              else Some (goto i (MReuse k) (with_futs (cancel f (futs s)) s))
          end
      | MReuse k =>
          if flag c then Some (goto i (Finished None) s)
          else
            let f := fresh s in
            Some (St (dict_set k f (reg s)) (futs s)
                     (Voice.set_nth (tasks s) i (MRun k f)) (S f))
      | MRun k f =>
          Some (goto i (Finished (Some (res c)))
                     (with_futs (set_result f (res c) (futs s)) s))
      | Finished _ => None
      | Raised => None
      end
  end.

(** Running a schedule; a blocked or finished task's turn changes nothing. *)
Definition run (cs : list choice) (s : state) : state :=
  fold_left (fun s c => match step s c with Some s' => s' | None => s end) cs s.

Definition keys (r : registry) : list string := map fst r.

(** A schedule every step of which is taken. *)
Fixpoint run_strict (cs : list choice) (s : state) : option state :=
  match cs with
  | [] => Some s
  | c :: cs' => match step s c with Some s' => run_strict cs' s' | None => None end
  end.

Lemma in_keys_set (x k : string) (v : nat) (r : registry) :
  In x (keys (dict_set k v r)) -> x = k \/ In x (keys r).
Proof.
  induction r as [|[k' f'] r IH]; simpl; [intuition|].
  destruct (String.eqb k' k) eqn:E; simpl.
  - apply String.eqb_eq in E. subst. intuition.
  - intros [H|H]; [right; left; exact H|]. destruct (IH H); auto.
Qed.

Lemma keys_set_sup (x k : string) (v : nat) (r : registry) :
  In x (keys r) -> In x (keys (dict_set k v r)).
Proof.
  induction r as [|[k' f'] r IH]; simpl; [intros []|].
  destruct (String.eqb k' k) eqn:E; simpl.
  - apply String.eqb_eq in E. subst. intuition.
  - intuition.
Qed.

Lemma nodup_set (k : string) (v : nat) (r : registry) :
  NoDup (keys r) -> NoDup (keys (dict_set k v r)).
Proof.
  induction r as [|[k' f'] r IH]; simpl; intros H.
  - repeat constructor. intros [].
  - inversion H as [|? ? Hn Hr]; subst.
    destruct (String.eqb k' k) eqn:E; simpl.
    + apply String.eqb_eq in E. subst. constructor; assumption.
    + constructor; [|exact (IH Hr)].
      intros Hin. apply in_keys_set in Hin as [Hk|Hin].
      * subst. rewrite String.eqb_refl in E. discriminate.
      * exact (Hn Hin).
Qed.

Lemma in_keys_pop (x k : string) (r : registry) :
  In x (keys (dict_pop k r)) -> In x (keys r).
Proof.
  induction r as [|[k' f'] r IH]; simpl; [intros []|].
  destruct (String.eqb k' k); simpl; intuition.
Qed.

Lemma keys_pop_other (x k : string) (r : registry) :
  In x (keys r) -> x <> k -> In x (keys (dict_pop k r)).
Proof.
  induction r as [|[k' f'] r IH]; simpl; [intros []|].
  destruct (String.eqb k' k) eqn:E; simpl.
  - apply String.eqb_eq in E. subst. intros [H|H] Hx; [congruence|exact H].
  - intros [H|H] Hx; [left; exact H|right; exact (IH H Hx)].
Qed.

Lemma nodup_pop (k : string) (r : registry) :
  NoDup (keys r) -> NoDup (keys (dict_pop k r)).
Proof.
  induction r as [|[k' f'] r IH]; simpl; intros H; [constructor|].
  inversion H as [|? ? Hn Hr]; subst.
  destruct (String.eqb k' k); simpl; [exact Hr|].
  constructor; [|exact (IH Hr)]. intros Hin. exact (Hn (in_keys_pop _ _ _ Hin)).
Qed.

Lemma lookup_set (x k : string) (v : nat) (r : registry) :
  lookup x (dict_set k v r) = if String.eqb x k then Some v else lookup x r.
Proof.
  induction r as [|[k' f'] r IH]; simpl.
  - rewrite String.eqb_sym. reflexivity.
  - destruct (String.eqb k' k) eqn:E; simpl.
    + apply String.eqb_eq in E. subst. rewrite String.eqb_sym.
      destruct (String.eqb x k); reflexivity.
    + rewrite IH. destruct (String.eqb x k) eqn:Ex; [|reflexivity].
      apply String.eqb_eq in Ex. subst. rewrite E. reflexivity.
Qed.

Lemma lookup_notin (x : string) (r : registry) : ~ In x (keys r) -> lookup x r = None.
Proof.
  induction r as [|[k' f'] r IH]; simpl; [reflexivity|].
  intros H. destruct (String.eqb k' x) eqn:E.
  - apply String.eqb_eq in E. exfalso. apply H. left. exact E.
  - apply IH. intros Hin. apply H. right. exact Hin.
Qed.

Lemma lookup_pop (x k : string) (r : registry) :
  NoDup (keys r) -> lookup x (dict_pop k r) = if String.eqb x k then None else lookup x r.
Proof.
  induction r as [|[k' f'] r IH]; simpl; intros H.
  - destruct (String.eqb x k); reflexivity.
  - inversion H as [|? ? Hn Hr]; subst.
    destruct (String.eqb k' k) eqn:E; simpl.
    + apply String.eqb_eq in E. subst.
      destruct (String.eqb x k) eqn:Ex.
      * apply String.eqb_eq in Ex. subst. apply lookup_notin, Hn.
      * rewrite String.eqb_sym, Ex. reflexivity.
    + rewrite IH by exact Hr. destruct (String.eqb x k) eqn:Ex; [|reflexivity].
      apply String.eqb_eq in Ex. subst. rewrite E. reflexivity.
Qed.

Lemma nth_error_set_nth {A : Type} (l : list A) (i : nat) (v : A) (x : A) :
  nth_error l i = Some x -> nth_error (Voice.set_nth l i v) i = Some v.
Proof.
  revert i. induction l as [|y l IH]; intros [|i]; simpl; try discriminate; auto.
Qed.

(** How one step changes the registry. *)
Lemma step_reg (s : state) (c : choice) (s' : state) :
  step s c = Some s' ->
  reg s' = reg s \/
  (exists k, nth_error (tasks s) (task c) = Some (IStart k) /\ lookup k (reg s) = None /\
             reg s' = dict_set k (fresh s) (reg s)) \/
  (exists k, nth_error (tasks s) (task c) = Some (MReuse k) /\
             reg s' = dict_set k (fresh s) (reg s)) \/
  (exists k f, nth_error (tasks s) (task c) = Some (IFinally k f) /\
               fut_state f (futs s) <> None /\ reg s' = dict_pop k (reg s)).
Proof.
  unfold step. destruct (nth_error (tasks s) (task c)) as [p|] eqn:Ep; [|discriminate].
  destruct p; intros H;
    repeat match type of H with
           | context [match ?x with _ => _ end] => destruct x eqn:?
           end;
    try discriminate; injection H as <-;
    first [ left; reflexivity
          | right; left; eexists; split; [reflexivity|split; [assumption|reflexivity]]
          | right; right; left; eexists; split; reflexivity
          | right; right; right; do 2 eexists; split; [reflexivity|split; [congruence|reflexivity]] ].
Qed.

Lemma step_nodup (s : state) (c : choice) (s' : state) :
  step s c = Some s' -> NoDup (keys (reg s)) -> NoDup (keys (reg s')).
Proof.
  intros H Hn.
  destruct (step_reg s c s' H) as [E|[(k & _ & _ & E)|[(k & _ & E)|(k & f & _ & _ & E)]]];
    rewrite E; [exact Hn|apply nodup_set, Hn|apply nodup_set, Hn|apply nodup_pop, Hn].
Qed.

Definition u : string := "https://vt.tiktok.com/ZSabc".

(** A message download that fails, then an inline query for the same url. *)
Definition failed_then_inline : state := St [] [] [MStart u; QStart u] 0.
Definition failed_then_inline_sched : list choice :=
  [Choice 0 false []; Choice 0 false []; Choice 0 false [];
   Choice 1 false []; Choice 1 false []; Choice 1 false []; Choice 1 false []].

(** A message download, which fails (so no cached result answers later
    requests); an inline query waits 8 s on it and times out; then an
    inline query, a message and an inline download arrive. *)
Definition cancel_then_requests : state :=
  St [] [] [MStart u; QStart u; QStart u; MStart u; IStart u] 0.
Definition cancel_then_requests_sched : list choice :=
  [Choice 0 false []; Choice 0 false []; Choice 1 false []; Choice 1 false [];
   Choice 0 false []; Choice 2 false []; Choice 2 false [];
   Choice 3 false []; Choice 3 false []; Choice 4 false []; Choice 4 false []].

(** Two message requests; the second one times out after 300 s on the
    first one's future. *)
Definition two_messages : state := St [] [] [MStart u; MStart u] 0.
Definition two_messages_sched : list choice :=
  [Choice 0 false []; Choice 0 false []; Choice 1 false []; Choice 1 false [];
   Choice 1 false []; Choice 0 false ["a"]; Choice 1 false ["b"]].

(** C3 (code bug): the registry is a dict, so it holds at most one entry per
    url in every reachable state, and only the [finally] of an inline
    download removes an entry, once its future is done.  The message path's
    [finally] (headed "remove the Future from active downloads") does
    nothing, so its entry is never removed:
    - after a failed message download the entry stays fulfilled with no
      files, and a later inline query joins it and fails without
      downloading;
    - [asyncio.wait_for] cancels the shared future when an inline query's
      8 s wait times out; the entry stays, cancelled, and when the download
      fails every later inline query, message and inline download for the
      url raises [CancelledError];
    - a message request whose 300 s wait times out cancels the shared future
      and installs its own over the existing entry. *)
Theorem message_entry_never_removed :
  (forall (cs : list choice) (s : state),
     NoDup (keys (reg s)) -> NoDup (keys (reg (run cs s)))) /\
  (forall (s s' : state) (c : choice) (k : string),
     step s c = Some s' -> In k (keys (reg s)) -> ~ In k (keys (reg s')) ->
     exists f, nth_error (tasks s) (task c) = Some (IFinally k f) /\
               fut_state f (futs s) <> None) /\
  (forall (s s' : state) (c : choice) (k : string) (f f' : nat),
     NoDup (keys (reg s)) -> step s c = Some s' ->
     lookup k (reg s) = Some f -> lookup k (reg s') = Some f' -> f <> f' ->
     nth_error (tasks s) (task c) = Some (MReuse k)) /\
  run_strict failed_then_inline_sched failed_then_inline =
    Some (St [(u, 0)] [(0, Done [])] [Finished (Some []); Finished (Some [])] 1) /\
  run_strict cancel_then_requests_sched cancel_then_requests =
    Some (St [(u, 0)] [(0, Cancelled)]
             [Finished (Some []); Finished None; Raised; Raised; Raised] 1) /\
  run_strict two_messages_sched two_messages =
    Some (St [(u, 1)] [(1, Done ["b"]); (0, Cancelled)]
             [Finished (Some ["a"]); Finished (Some ["b"])] 2).
Proof.
  split; [|split; [|split; [|split; [|split]]]].
  - induction cs as [|c cs IH]; intros s Hn; simpl; [exact Hn|].
    apply IH. destruct (step s c) as [s'|] eqn:E; [exact (step_nodup s c s' E Hn)|exact Hn].
  - intros s s' c k H Hin Hout.
    destruct (step_reg s c s' H) as [E|[(k0 & _ & _ & E)|[(k0 & _ & E)|(k0 & f & Hp & Hf & E)]]];
      rewrite E in Hout.
    + contradiction.
    + exfalso. exact (Hout (keys_set_sup _ _ _ _ Hin)).
    + exfalso. exact (Hout (keys_set_sup _ _ _ _ Hin)).
    + destruct (String.eqb k k0) eqn:Ek.
      * apply String.eqb_eq in Ek. subst. exists f. auto.
      * apply String.eqb_neq in Ek. exfalso. exact (Hout (keys_pop_other _ _ _ Hin Ek)).
  - intros s s' c k f f' Hn H Hl Hl' Hne.
    destruct (step_reg s c s' H) as [E|[(k0 & Hp & Hk0 & E)|[(k0 & Hp & E)|(k0 & f0 & Hp & Hf & E)]]];
      rewrite E in Hl'.
    + congruence.
    + rewrite lookup_set in Hl'. destruct (String.eqb k k0) eqn:Ek.
      * apply String.eqb_eq in Ek. subst. congruence.
      * congruence.
    + rewrite lookup_set in Hl'. destruct (String.eqb k k0) eqn:Ek.
      * apply String.eqb_eq in Ek. subst. exact Hp.
      * congruence.
    + rewrite lookup_pop in Hl' by exact Hn. destruct (String.eqb k k0); congruence.
  - vm_compute. reflexivity.
  - vm_compute. reflexivity.
  - vm_compute. reflexivity.
Qed.

End Registry.

(** ** The transcriptions table ([save_transcription], [get_transcription],
    [get_user_transcriptions] and [delete_transcription] in src/database.py) *)

Module Transcriptions.
Local Open Scope string_scope.

(** A row of [transcriptions]: [id INTEGER PRIMARY KEY AUTOINCREMENT],
    [file_unique_id TEXT UNIQUE], [user_id INTEGER] (NULL is [None]),
    [transcription_text TEXT] and [created_at]; times are microseconds. *)
Record trow := TRow {
  t_id : nat; t_file_unique_id : string; t_user_id : option Z;
  t_text : string; t_created_at : Z }.

(** The rows in rowid order and the next AUTOINCREMENT value. *)
Record table := Table { trows : list trow; tseq : nat }.

(** Python truthiness of the [user_id] argument: [None] and [0] are false. *)
Definition truthy (o : option Z) : bool :=
  match o with Some z => negb (Z.eqb z 0) | None => false end.

(** SQL [col = ?]: a comparison with NULL is never true. *)
Definition sql_eq (a b : option Z) : bool :=
  match a, b with Some x, Some y => Z.eqb x y | _, _ => false end.

(** [INSERT OR REPLACE INTO transcriptions (...) VALUES (...)] at time [now]:
    the row holding the same [file_unique_id] is deleted and the new row is
    inserted with the next AUTOINCREMENT id, so it is the last in rowid
    order.  The method returns [True]. *)
Definition save_transcription (tb : table) (file_unique_id : string)
    (user_id : option Z) (transcription_text : string) (now : Z) : bool * table :=
  (true,
   Table (app (filter (fun r => negb (String.eqb (t_file_unique_id r) file_unique_id)) (trows tb))
              [TRow (tseq tb) file_unique_id user_id transcription_text now])
         (S (tseq tb))).

(** The [WHERE] clause of [get_transcription] and [delete_transcription]:
    [file_unique_id = ? AND user_id = ?] when [user_id] is truthy, else
    [file_unique_id = ?]. *)
Definition matches (file_unique_id : string) (user_id : option Z) (r : trow) : bool :=
  String.eqb (t_file_unique_id r) file_unique_id &&
  (if truthy user_id then sql_eq (t_user_id r) user_id else true).

(** [get_transcription(file_unique_id, user_id)]: [fetchone()] of the query. *)
Definition get_transcription (tb : table) (file_unique_id : string) (user_id : option Z)
    : option string :=
  option_map t_text (find (matches file_unique_id user_id) (trows tb)).

(** [delete_transcription(file_unique_id, user_id)]; returns [True]. *)
Definition delete_transcription (tb : table) (file_unique_id : string) (user_id : option Z)
    : bool * table :=
  (true, Table (filter (fun r => negb (matches file_unique_id user_id r)) (trows tb)) (tseq tb)).

(** [ORDER BY created_at DESC]: a stable insertion sort of the rows taken in
    rowid order. *)
Fixpoint insert_desc (r : trow) (l : list trow) : list trow :=
  match l with
  | [] => [r]
  | x :: l' => if Z.ltb (t_created_at x) (t_created_at r) then r :: l else x :: insert_desc r l'
  end.

Definition order_desc (l : list trow) : list trow :=
  fold_right insert_desc [] l.

(** [dict(pairs)]: a key keeps the position of its first occurrence and the
    value of its last one. *)
Fixpoint dict_set (d : list (string * string)) (k v : string) : list (string * string) :=
  match d with
  | [] => [(k, v)]
  | (k', v') :: d' => if String.eqb k' k then (k', v) :: d' else (k', v') :: dict_set d' k v
  end.

Definition dict (pairs : list (string * string)) : list (string * string) :=
  fold_left (fun d kv => dict_set d (fst kv) (snd kv)) pairs [].

Fixpoint dict_get (d : list (string * string)) (k : string) : option string :=
  match d with
  | [] => None
  | (k', v) :: d' => if String.eqb k' k then Some v else dict_get d' k
  end.

(** [get_user_transcriptions(user_id)] *)
Definition get_user_transcriptions (tb : table) (user_id : option Z) : list (string * string) :=
  dict (map (fun r => (t_file_unique_id r, t_text r))
            (order_desc (filter (fun r => sql_eq (t_user_id r) user_id) (trows tb)))).

Lemma find_filter_other (f : string) (u : option Z) (l : list trow) :
  find (matches f u) (filter (fun r => negb (String.eqb (t_file_unique_id r) f)) l) = None.
Proof.
  induction l as [|r l IH]; [reflexivity|]. cbn [filter].
  destruct (String.eqb (t_file_unique_id r) f) eqn:E; cbn [negb]; [exact IH|].
  cbn [find]. unfold matches at 1. rewrite E. exact IH.
Qed.

Lemma find_app_none {A : Type} (p : A -> bool) (l l' : list A) :
  find p l = None -> find p (app l l') = find p l'.
Proof.
  induction l as [|x l IH]; cbn [find app]; [reflexivity|].
  destruct (p x); [discriminate|exact IH].
Qed.

Lemma get_after_save (tb : table) (f : string) (u : option Z) (t : string) (now : Z) (w : option Z) :
  get_transcription (snd (save_transcription tb f u t now)) f w =
  if matches f w (TRow (tseq tb) f u t now) then Some t else None.
Proof.
  unfold get_transcription, save_transcription. cbn [snd trows].
  rewrite find_app_none by apply find_filter_other. cbn [find].
  destruct (matches f w _); reflexivity.
Qed.

Lemma sql_eq_refl (z : Z) : sql_eq (Some z) (Some z) = true.
Proof. apply Z.eqb_refl. Qed.

Lemma insert_desc_perm (r : trow) (l : list trow) : Permutation (insert_desc r l) (r :: l).
Proof.
  induction l as [|x l IH]; cbn [insert_desc]; [reflexivity|].
  destruct (Z.ltb _ _); [reflexivity|].
  eapply perm_trans; [apply perm_skip, IH|apply perm_swap].
Qed.

Lemma order_desc_perm (l : list trow) : Permutation (order_desc l) l.
Proof.
  induction l as [|x l IH]; cbn; [reflexivity|].
  eapply perm_trans; [apply insert_desc_perm|apply perm_skip, IH].
Qed.

Lemma dict_get_set (d : list (string * string)) (k k' v : string) :
  dict_get (dict_set d k' v) k = if String.eqb k' k then Some v else dict_get d k.
Proof.
  induction d as [|[a b] d IH]; cbn [dict_set dict_get]; [reflexivity|].
  destruct (String.eqb a k') eqn:E1; cbn [dict_get].
  - apply String.eqb_eq in E1. subst a. destruct (String.eqb k' k); reflexivity.
  - destruct (String.eqb a k) eqn:E2; [|exact IH].
    apply String.eqb_eq in E2. subst a. rewrite String.eqb_sym, E1. reflexivity.
Qed.

Lemma dict_fold_other (l d : list (string * string)) (k : string) :
  (forall kv, In kv l -> fst kv <> k) ->
  dict_get (fold_left (fun d kv => dict_set d (fst kv) (snd kv)) l d) k = dict_get d k.
Proof.
  revert d. induction l as [|kv l IH]; intros d H; cbn [fold_left]; [reflexivity|].
  rewrite IH by (intros; apply H; right; assumption).
  rewrite dict_get_set. destruct (String.eqb (fst kv) k) eqn:E; [|reflexivity].
  apply String.eqb_eq in E. exfalso. exact (H kv (or_introl eq_refl) E).
Qed.

(** The dictionary built from pairs holding the key [k] once gives that
    pair's value. *)
Lemma dict_single (pre post : list (string * string)) (k v : string) :
  (forall kv, In kv pre -> fst kv <> k) -> (forall kv, In kv post -> fst kv <> k) ->
  dict_get (dict (app pre ((k, v) :: post))) k = Some v.
Proof.
  intros H1 H2. unfold dict. rewrite fold_left_app. cbn [fold_left fst snd].
  rewrite dict_fold_other by exact H2. rewrite dict_get_set, String.eqb_refl. reflexivity.
Qed.

(** X1: a saved transcription is read back, both by the user who saved it
    and without a user filter; this holds for every [user_id], [None] and
    [0] included. *)
Theorem save_then_get_transcription (tb : table) (f : string) (u : option Z) (t : string) (now : Z) :
  let tb' := snd (save_transcription tb f u t now) in
  fst (save_transcription tb f u t now) = true /\
  get_transcription tb' f u = Some t /\ get_transcription tb' f None = Some t.
Proof.
  cbv zeta. split; [reflexivity|]. rewrite !get_after_save. unfold matches.
  cbn [t_file_unique_id t_user_id truthy]. rewrite String.eqb_refl. cbn [andb].
  split; [|reflexivity].
  destruct u as [z|]; cbn [truthy]; [|reflexivity].
  destruct (negb (Z.eqb z 0)); [rewrite sql_eq_refl|]; reflexivity.
Qed.

(** X2: [INSERT OR REPLACE] keys on [file_unique_id] alone: once another
    user saves a transcription for the same file, the first user's lookup
    finds nothing and the unfiltered lookup returns the other user's
    text. *)
Theorem save_replaces_other_users_transcription (tb : table) (f : string) (u v : Z)
    (t t' : string) (now now' : Z) :
  u <> 0%Z -> u <> v ->
  let tb1 := snd (save_transcription tb f (Some u) t now) in
  let tb2 := snd (save_transcription tb1 f (Some v) t' now') in
  get_transcription tb2 f (Some u) = None /\ get_transcription tb2 f None = Some t'.
Proof.
  intros Hu Huv. cbv zeta. rewrite !get_after_save. unfold matches.
  cbn [t_file_unique_id t_user_id truthy sql_eq]. rewrite String.eqb_refl. cbn [andb].
  split; [|reflexivity].
  replace (Z.eqb u 0) with false by (symmetry; apply Z.eqb_neq; exact Hu).
  replace (Z.eqb v u) with false by (symmetry; apply Z.eqb_neq; auto). reflexivity.
Qed.

Lemma save_replaces_other_users_transcription_witness :
  (1 <> 0)%Z /\ (1 <> 2)%Z /\
  get_transcription
    (snd (save_transcription (snd (save_transcription (Table [] 1) "AgAD" (Some 1%Z) "hi" 0)) "AgAD"
       (Some 2%Z) "bye" 5)) "AgAD" (Some 1%Z) = None /\
  get_transcription
    (snd (save_transcription (snd (save_transcription (Table [] 1) "AgAD" (Some 1%Z) "hi" 0)) "AgAD"
       (Some 2%Z) "bye" 5)) "AgAD" None = Some "bye".
Proof.
  assert (H : (1 <> 0)%Z /\ (1 <> 2)%Z) by lia. destruct H as [H1 H2].
  split; [exact H1|]. split; [exact H2|].
  exact (save_replaces_other_users_transcription (Table [] 1) "AgAD" 1 2 "hi" "bye" 0 5 H1 H2).
Defined.

(** X3: after [delete_transcription(f, u)] the same lookup finds nothing;
    with a falsy [user_id] ([None] or [0]) the delete is unfiltered and no
    user's lookup finds the file any more, while a delete filtered by
    another user leaves a user's transcription in place. *)
Theorem delete_then_get_transcription (tb : table) (f : string) (u : option Z) :
  let tb' := snd (delete_transcription tb f u) in
  get_transcription tb' f u = None /\
  (truthy u = false -> forall w, get_transcription tb' f w = None) /\
  (forall (a b : Z) t now, b <> 0%Z -> a <> b ->
     get_transcription (snd (delete_transcription (snd (save_transcription tb f (Some a) t now)) f (Some b)))
       f (Some a) = Some t).
Proof.
  cbv zeta. split; [|split].
  - unfold get_transcription, delete_transcription. cbn [snd trows].
    induction (trows tb) as [|r l IH]; [reflexivity|]. cbn [filter].
    destruct (matches f u r) eqn:E; cbn [negb find]; [exact IH|]. rewrite E. exact IH.
  - intros Hu w. unfold get_transcription, delete_transcription. cbn [snd trows].
    induction (trows tb) as [|r l IH]; [reflexivity|]. cbn [filter].
    assert (Hm : matches f u r = String.eqb (t_file_unique_id r) f)
      by (unfold matches; rewrite Hu; apply andb_true_r).
    rewrite Hm. destruct (String.eqb (t_file_unique_id r) f) eqn:E; cbn [negb find]; [exact IH|].
    unfold matches at 1. rewrite E. exact IH.
  - intros a b t now Hb Hab. unfold get_transcription, delete_transcription, save_transcription.
    cbn [snd trows]. rewrite filter_app, find_app_none.
    + cbn [filter find]. unfold matches. cbn [t_file_unique_id t_user_id truthy sql_eq].
      rewrite String.eqb_refl. cbn [andb].
      replace (Z.eqb b 0) with false by (symmetry; apply Z.eqb_neq; exact Hb).
      replace (Z.eqb a b) with false by (symmetry; apply Z.eqb_neq; exact Hab). cbn [negb].
      destruct (Z.eqb a 0); cbn [negb find t_file_unique_id t_user_id sql_eq andb];
        rewrite ?String.eqb_refl, ?Z.eqb_refl; reflexivity.
    + induction (trows tb) as [|r l IH]; [reflexivity|]. cbn [filter].
      destruct (String.eqb (t_file_unique_id r) f) eqn:E; cbn [negb]; [exact IH|].
      assert (Hb' : matches f (Some b) r = false) by (unfold matches; rewrite E; reflexivity).
      assert (Ha' : matches f (Some a) r = false) by (unfold matches; rewrite E; reflexivity).
      cbn [filter]. rewrite Hb'. cbn [negb find]. rewrite Ha'. exact IH.
Qed.

Lemma delete_then_get_transcription_witness :
  get_transcription
    (snd (delete_transcription (snd (save_transcription (Table [] 1) "AgAD" (Some 1%Z) "hi" 0)) "AgAD"
       (Some 2%Z))) "AgAD" (Some 1%Z) = Some "hi".
Proof.
  apply (proj2 (proj2 (delete_then_get_transcription (Table [] 1) "AgAD" None))); lia.
Defined.

(** X4: after a user saves a transcription, the dictionary returned by
    [get_user_transcriptions] for that user maps the file to the saved
    text; for [user_id = None] the query [user_id = NULL] matches no row and
    the dictionary is empty. *)
Theorem save_then_user_transcriptions (tb : table) (f : string) (u : Z) (t : string) (now : Z) :
  dict_get (get_user_transcriptions (snd (save_transcription tb f (Some u) t now)) (Some u)) f = Some t /\
  get_user_transcriptions tb None = [].
Proof.
  split.
  - unfold get_user_transcriptions, save_transcription. cbn [snd trows].
    rewrite filter_app. cbn [filter t_user_id]. rewrite sql_eq_refl.
    set (old := filter _ (filter _ (trows tb))).
    set (nr := TRow (tseq tb) f (Some u) t now).
    assert (Hold : forall r, In r old -> t_file_unique_id r <> f).
    { intros r Hr. unfold old in Hr. apply filter_In in Hr as [Hr _].
      apply filter_In in Hr as [_ Hr]. apply negb_true_iff, String.eqb_neq in Hr. exact Hr. }
    assert (Hp : Permutation (order_desc (app old [nr])) (nr :: old)).
    { eapply perm_trans; [apply order_desc_perm|]. apply Permutation_sym, Permutation_cons_append. }
    assert (Hin : In nr (order_desc (app old [nr]))).
    { apply (Permutation_in _ (Permutation_sym Hp)). left. reflexivity. }
    apply in_split in Hin as (l1 & l2 & Hl).
    assert (Hrest : Permutation (app l1 l2) old).
    { apply (Permutation_cons_inv (a := nr)). rewrite Hl in Hp.
      eapply perm_trans; [apply Permutation_middle|exact Hp]. }
    rewrite Hl, map_app. cbn [map]. apply dict_single.
    + intros kv Hkv. apply in_map_iff in Hkv as (r & <- & Hr). apply Hold.
      apply (Permutation_in _ Hrest). apply in_or_app. left. exact Hr.
    + intros kv Hkv. apply in_map_iff in Hkv as (r & <- & Hr). apply Hold.
      apply (Permutation_in _ Hrest). apply in_or_app. right. exact Hr.
  - unfold get_user_transcriptions. induction (trows tb) as [|r l IH]; [reflexivity|].
    cbn [filter]. destruct (t_user_id r); exact IH.
Qed.

End Transcriptions.

(** ** The downloaded-files table ([save_downloaded_file],
    [get_downloaded_file], [delete_downloaded_file] and
    [cleanup_expired_files] in src/database.py) *)

Module Downloads.
Local Open Scope string_scope.
Local Open Scope Z_scope.

(** Times are naive [datetime]s counted in microseconds.  SQLite compares
    the stored ISO texts as strings; for these texts (a fixed-width date
    and time, with the fraction left out when it is zero) the string order
    is the time order. *)
Definition hour : Z := 3600 * 1000000.

(** A row of [downloaded_files]; [cache_id] NULL is [None]. *)
Record drow := DRow {
  d_id : nat; d_url : string; d_file_path : string; d_file_size : Z;
  d_file_type : string; d_media_type : string; d_task_dir : string;
  d_downloaded_at : Z; d_expires_at : Z; d_cache_id : option Z }.

Record table := Table { drows : list drow; dseq : nat }.

(** The dictionary returned by [get_downloaded_file]. *)
Record info := Info {
  file_path : string; file_size : Z; file_type : string; media_type : string;
  task_dir : string; cache_id : option Z }.

Definition url_is (url : string) (r : drow) : bool := String.eqb (d_url r) url.

(** [UPDATE downloaded_files SET ... WHERE id = ?] *)
Definition update_row (i : nat) (path : string) (size : Z) (ftype mtype dir : string)
    (now2 expires : Z) (cid : option Z) (r : drow) : drow :=
  if Nat.eqb (d_id r) i
  then DRow (d_id r) (d_url r) path size ftype mtype dir now2 expires cid
  else r.

(** [save_downloaded_file(url, file_path, ..., cache_id, expires_hours)];
    [exists] is [os.path.exists], [now1] and [now2] the two readings of
    [datetime.now()] (for [expires_at] and for [downloaded_at]). *)
Definition save_downloaded_file (exists_ : string -> bool) (tb : table) (url path : string)
    (size : Z) (ftype mtype dir : string) (cid : option Z) (expires_hours : Z) (now1 now2 : Z)
    : option nat * table :=
  if negb (exists_ path) then (None, tb) else
  let expires_at := now1 + expires_hours * hour in
  match find (url_is url) (drows tb) with
  | Some existing =>
      let file_id := d_id existing in
      (Some file_id,
       Table (map (update_row file_id path size ftype mtype dir now2 expires_at cid) (drows tb))
             (dseq tb))
  | None =>
      let file_id := dseq tb in
      (Some file_id,
       Table (app (drows tb) [DRow file_id url path size ftype mtype dir now2 expires_at cid])
             (S file_id))
  end.

(** [DELETE FROM downloaded_files WHERE url = ?] *)
Definition delete_url (tb : table) (url : string) : table :=
  Table (filter (fun r => negb (url_is url r)) (drows tb)) (dseq tb).

Definition info_of (r : drow) : info :=
  Info (d_file_path r) (d_file_size r) (d_file_type r) (d_media_type r) (d_task_dir r) (d_cache_id r).

(** [get_downloaded_file(url)] at time [now]: the first row for [url] with
    [expires_at > now]; a row whose file is gone from disk is deleted. *)
Definition get_downloaded_file (exists_ : string -> bool) (tb : table) (url : string) (now : Z)
    : option info * table :=
  match find (fun r => url_is url r && Z.ltb now (d_expires_at r)) (drows tb) with
  | Some r =>
      if exists_ (d_file_path r) then (Some (info_of r), tb)
      else (None, delete_url tb url)
  | None => (None, tb)
  end.

(** [delete_downloaded_file(url)]; returns [True]. *)
Definition delete_downloaded_file (tb : table) (url : string) : bool * table :=
  (true, delete_url tb url).

(** The body of the loop of [cleanup_expired_files] for one expired row:
    the file and the task directory are removed from disk (a file system
    given by its list of paths; [rmtree] removes the directory and every
    path below it), the row is deleted by id and the count goes up. *)
Definition remove_path (fs : list string) (p : string) : list string :=
  filter (fun q => negb (String.eqb q p)) fs.

Definition rmtree (fs : list string) (dir : string) : list string :=
  filter (fun q => negb (String.eqb q dir || String.prefix (dir ++ "/") q)) fs.

Definition truthy_str (s : string) : bool := negb (Url.is_empty s).

Definition cleanup_one (acc : nat * list string * table) (r : drow) : nat * list string * table :=
  let '(n, fs, tb) := acc in
  let fs := if truthy_str (d_file_path r) && existsb (String.eqb (d_file_path r)) fs
            then remove_path fs (d_file_path r) else fs in
  let fs := if truthy_str (d_task_dir r) && existsb (String.eqb (d_task_dir r)) fs
            then rmtree fs (d_task_dir r) else fs in
  (S n, fs, Table (filter (fun x => negb (Nat.eqb (d_id x) (d_id r))) (drows tb)) (dseq tb)).

(** [cleanup_expired_files()] at time [now]: the rows with
    [expires_at < now] are fetched first, then handled one by one; returns
    the count, the file system and the table. *)
Definition cleanup_expired_files (fs : list string) (tb : table) (now : Z)
    : nat * list string * table :=
  let expired := filter (fun r => Z.ltb (d_expires_at r) now) (drows tb) in
  fold_left cleanup_one expired (0%nat, fs, tb).

Lemma find_url_absent (url : string) (q : drow -> bool) (upd : drow -> drow) (rs : list drow) :
  (forall r, d_url (upd r) = d_url r) -> ~ In url (map d_url rs) ->
  find (fun r => url_is url r && q r) (map upd rs) = None.
Proof.
  intros Hu. induction rs as [|x rs IH]; intros Hn; [reflexivity|]. cbn [map find].
  unfold url_is at 1. rewrite Hu. destruct (String.eqb (d_url x) url) eqn:E.
  - apply String.eqb_eq in E. exfalso. apply Hn. left. exact E.
  - cbn [andb]. apply IH. intros H. apply Hn. right. exact H.
Qed.

Lemma find_url_unique (url : string) (q : drow -> bool) (upd : drow -> drow) (rs : list drow) (e : drow) :
  (forall r, d_url (upd r) = d_url r) -> NoDup (map d_url rs) ->
  find (url_is url) rs = Some e ->
  find (fun r => url_is url r && q r) (map upd rs) = if q (upd e) then Some (upd e) else None.
Proof.
  intros Hu. induction rs as [|x rs IH]; intros Hnd Hf; [discriminate|]. cbn [map find] in *.
  inversion Hnd as [|? ? Hx Hnd']; subst.
  unfold url_is at 1. rewrite Hu. unfold url_is in Hf. destruct (String.eqb (d_url x) url) eqn:E.
  - injection Hf as <-. apply String.eqb_eq in E. cbn [andb].
    destruct (q (upd x)); [reflexivity|]. apply find_url_absent; [exact Hu|]. rewrite <- E. exact Hx.
  - cbn [andb]. exact (IH Hnd' Hf).
Qed.

Lemma find_none_notin (url : string) (rs : list drow) :
  find (url_is url) rs = None -> ~ In url (map d_url rs).
Proof.
  induction rs as [|x rs IH]; cbn [find map]; [tauto|]. unfold url_is at 1.
  destruct (String.eqb (d_url x) url) eqn:E; [discriminate|].
  intros H [Hx|Hin]; [apply String.eqb_neq in E; exact (E Hx)|exact (IH H Hin)].
Qed.

Lemma update_row_url i path size ft mt dir now2 exp cid (r : drow) :
  d_url (update_row i path size ft mt dir now2 exp cid r) = d_url r.
Proof. unfold update_row. destruct (Nat.eqb (d_id r) i); reflexivity. Qed.

Lemma map_url_update i path size ft mt dir now2 exp cid (rs : list drow) :
  map d_url (map (update_row i path size ft mt dir now2 exp cid) rs) = map d_url rs.
Proof. rewrite map_map. apply map_ext. apply update_row_url. Qed.

Lemma find_url_deleted (url : string) (q : drow -> bool) (tb : table) :
  find (fun r => url_is url r && q r) (drows (delete_url tb url)) = None.
Proof.
  unfold delete_url. cbn [drows]. induction (drows tb) as [|x rs IH]; [reflexivity|].
  cbn [filter]. destruct (url_is url x) eqn:E; cbn [negb find]; [exact IH|]. rewrite E. exact IH.
Qed.

(** X5: [save_downloaded_file] stores nothing for a path missing from disk
    and returns [None]; otherwise it upserts by url (returning the id of
    the existing row for that url, else the next AUTOINCREMENT id, and
    keeping urls unique), and [get_downloaded_file(url)] then returns the
    saved values exactly while the time is before
    [now + expires_hours] hours and the file is still on disk, [None]
    from the expiry instant on; after [delete_downloaded_file(url)] it
    returns [None]. *)
Theorem save_then_get_downloaded_file (ex : string -> bool) (tb : table) (url path : string)
    (size : Z) (ft mt dir : string) (cid : option Z) (h now1 now2 : Z) :
  NoDup (map d_url (drows tb)) ->
  let '(res, tb') := save_downloaded_file ex tb url path size ft mt dir cid h now1 now2 in
  (ex path = false -> res = None /\ tb' = tb) /\
  (ex path = true ->
     res = Some (match find (url_is url) (drows tb) with Some r => d_id r | None => dseq tb end) /\
     NoDup (map d_url (drows tb')) /\
     (forall ex' t, fst (get_downloaded_file ex' tb' url t) =
        if Z.ltb t (now1 + h * hour)
        then (if ex' path then Some (Info path size ft mt dir cid) else None)
        else None) /\
     (forall ex' t, fst (get_downloaded_file ex' (snd (delete_downloaded_file tb' url)) url t) = None)).
Proof.
  intros Hnd. unfold save_downloaded_file.
  destruct (ex path) eqn:Ep; cbn [negb].
  2:{ split; [intros _; split; reflexivity|intros H; discriminate H]. }
  destruct (find (url_is url) (drows tb)) as [e|] eqn:Ef;
    (split; [intros H; discriminate H|intros _]).
  - split; [reflexivity|]. cbn [drows]. split; [rewrite map_url_update; exact Hnd|]. split.
    + intros ex' t. unfold get_downloaded_file. cbn [drows].
      rewrite (find_url_unique url (fun r => Z.ltb t (d_expires_at r)) _ _ e) by
        (exact (update_row_url _ _ _ _ _ _ _ _ _) || exact Hnd || exact Ef).
      unfold update_row. rewrite Nat.eqb_refl. cbn [d_expires_at d_file_path info_of].
      destruct (Z.ltb t (now1 + h * hour)); [|reflexivity].
      cbn [d_file_path fst info_of]. destruct (ex' path); reflexivity.
    + intros ex' t. unfold get_downloaded_file, delete_downloaded_file. cbn [snd].
      rewrite find_url_deleted. reflexivity.
  - split; [reflexivity|]. cbn [drows]. split.
    + rewrite map_app. apply NoDup_app; [exact Hnd|repeat constructor; cbn; tauto|].
      intros x Hx [Hy|[]]. cbn [d_url] in Hy. subst x. exact (find_none_notin url _ Ef Hx).
    + split.
      * intros ex' t. unfold get_downloaded_file. cbn [drows].
        assert (Hn : find (fun r => url_is url r && Z.ltb t (d_expires_at r)) (drows tb) = None).
        { pose proof (find_url_absent url (fun r => Z.ltb t (d_expires_at r)) id (drows tb)
                        (fun r => eq_refl) (find_none_notin url _ Ef)) as H.
          rewrite map_id in H. exact H. }
        rewrite (Transcriptions.find_app_none _ _ _ Hn).
        cbn [find]. unfold url_is. cbn [d_url d_expires_at d_file_path info_of]. rewrite String.eqb_refl.
        cbn [andb]. destruct (Z.ltb t (now1 + h * hour)); [|reflexivity].
        cbn [d_file_path fst info_of]. destruct (ex' path); reflexivity.
      * intros ex' t. unfold get_downloaded_file, delete_downloaded_file. cbn [snd].
        rewrite find_url_deleted. reflexivity.
Qed.

Lemma save_then_get_downloaded_file_witness :
  NoDup (map d_url (drows (Table [] 1))) /\
  (let '(res, tb') := save_downloaded_file (fun p => String.eqb p "/tmp/a.mp4") (Table [] 1)
                        "https://youtu.be/x" "/tmp/a.mp4" 10 "video" "video" "/tmp" None 24 0 1 in
   (String.eqb "/tmp/a.mp4" "/tmp/a.mp4" = false -> res = None /\ tb' = Table [] 1) /\
   (String.eqb "/tmp/a.mp4" "/tmp/a.mp4" = true ->
     res = Some (match find (url_is "https://youtu.be/x") (drows (Table [] 1)) with
                 | Some r => d_id r | None => dseq (Table [] 1) end) /\
     NoDup (map d_url (drows tb')) /\
     (forall ex' t, fst (get_downloaded_file ex' tb' "https://youtu.be/x" t) =
        if Z.ltb t (0 + 24 * hour)
        then (if ex' "/tmp/a.mp4" then Some (Info "/tmp/a.mp4" 10 "video" "video" "/tmp" None) else None)
        else None) /\
     (forall ex' t, fst (get_downloaded_file ex' (snd (delete_downloaded_file tb' "https://youtu.be/x"))
                           "https://youtu.be/x" t) = None))).
Proof.
  assert (H : NoDup (map d_url (drows (Table [] 1)))) by constructor.
  split; [exact H|].
  exact (save_then_get_downloaded_file (fun p => String.eqb p "/tmp/a.mp4") (Table [] 1)
           "https://youtu.be/x" "/tmp/a.mp4" 10 "video" "video" "/tmp" None 24 0 1 H).
Defined.

(** X6: [get_downloaded_file] returns a record only for a row of that url
    whose [expires_at] lies strictly after [now] and whose file is on disk,
    and then leaves the table alone; when it returns [None] the table is
    either unchanged or, the first live row's file being gone from disk,
    every row of that url has been deleted. *)
Theorem get_downloaded_file_sound (ex : string -> bool) (tb : table) (url : string) (now : Z) :
  let '(res, tb') := get_downloaded_file ex tb url now in
  (forall i, res = Some i ->
     tb' = tb /\
     exists r, In r (drows tb) /\ d_url r = url /\ now < d_expires_at r /\
               ex (d_file_path r) = true /\ i = info_of r) /\
  (res = None ->
     tb' = tb \/
     (exists r, In r (drows tb) /\ d_url r = url /\ now < d_expires_at r /\
                ex (d_file_path r) = false /\ tb' = delete_url tb url /\
                find (url_is url) (drows tb') = None)).
Proof.
  unfold get_downloaded_file.
  destruct (find (fun r => url_is url r && Z.ltb now (d_expires_at r)) (drows tb)) as [r|] eqn:Ef.
  - apply find_some in Ef as [Hin Hr]. apply andb_true_iff in Hr as [Hu Ht].
    unfold url_is in Hu. apply String.eqb_eq in Hu. apply Z.ltb_lt in Ht.
    destruct (ex (d_file_path r)) eqn:Ex.
    + split; [|intros H; discriminate H].
      intros i Hi. injection Hi as <-. split; [reflexivity|]. exists r. auto 6.
    + split; [intros i Hi; discriminate Hi|]. intros _. right. exists r.
      do 5 (split; [assumption || reflexivity|]).
      unfold delete_url. cbn [drows]. clear Hin. induction (drows tb) as [|x rs IH]; [reflexivity|].
      cbn [filter]. destruct (url_is url x) eqn:E; cbn [negb find]; [exact IH|]. rewrite E. exact IH.
  - split; [intros i Hi; discriminate Hi|]. intros _. left. reflexivity.
Qed.

Lemma filter_filter_and {A : Type} (f g : A -> bool) (l : list A) :
  filter f (filter g l) = filter (fun x => g x && f x) l.
Proof.
  induction l as [|x l IH]; cbn [filter]; [reflexivity|].
  destruct (g x); cbn [andb filter]; [destruct (f x); rewrite IH; reflexivity|exact IH].
Qed.

Lemma remove_path_sub (fs : list string) (p q : string) : In q (remove_path fs p) -> In q fs.
Proof. unfold remove_path. intros H. apply filter_In in H. tauto. Qed.

Lemma rmtree_sub (fs : list string) (d q : string) : In q (rmtree fs d) -> In q fs.
Proof. unfold rmtree. intros H. apply filter_In in H. tauto. Qed.

Lemma remove_path_gone (fs : list string) (p : string) : ~ In p (remove_path fs p).
Proof.
  unfold remove_path. intros H. apply filter_In in H as [_ H].
  rewrite String.eqb_refl in H. discriminate H.
Qed.

Lemma rmtree_gone (fs : list string) (d : string) : ~ In d (rmtree fs d).
Proof.
  unfold rmtree. intros H. apply filter_In in H as [_ H].
  rewrite String.eqb_refl in H. discriminate H.
Qed.

Lemma existsb_eqb_false (fs : list string) (p : string) :
  existsb (String.eqb p) fs = false -> ~ In p fs.
Proof.
  intros H Hin. assert (existsb (String.eqb p) fs = true) as H'
    by (apply existsb_exists; exists p; split; [exact Hin|apply String.eqb_refl]).
  congruence.
Qed.

(** One step of the loop: the count goes up, the rows of that id go, the
    file system shrinks and loses the row's file and task directory. *)
Lemma cleanup_one_spec (n : nat) (fs : list string) (rs : list drow) (s : nat) (r : drow) :
  let '(n', fs', tb') := cleanup_one (n, fs, Table rs s) r in
  n' = S n /\ tb' = Table (filter (fun x => negb (Nat.eqb (d_id x) (d_id r))) rs) s /\
  (forall q, In q fs' -> In q fs) /\
  (truthy_str (d_file_path r) = true -> ~ In (d_file_path r) fs') /\
  (truthy_str (d_task_dir r) = true -> ~ In (d_task_dir r) fs').
Proof.
  unfold cleanup_one.
  set (fs1 := if truthy_str (d_file_path r) && existsb (String.eqb (d_file_path r)) fs
              then remove_path fs (d_file_path r) else fs).
  set (fs2 := if truthy_str (d_task_dir r) && existsb (String.eqb (d_task_dir r)) fs1
              then rmtree fs1 (d_task_dir r) else fs1).
  assert (H1 : forall q, In q fs1 -> In q fs).
  { intros q. unfold fs1.
    destruct (truthy_str (d_file_path r) && existsb (String.eqb (d_file_path r)) fs);
      [apply remove_path_sub|tauto]. }
  assert (H2 : forall q, In q fs2 -> In q fs1).
  { intros q. unfold fs2.
    destruct (truthy_str (d_task_dir r) && existsb (String.eqb (d_task_dir r)) fs1);
      [apply rmtree_sub|tauto]. }
  split; [reflexivity|]. split; [reflexivity|]. split; [auto|]. split.
  - intros Ht Hin. apply H2 in Hin. revert Hin. unfold fs1. rewrite Ht. cbn [andb].
    destruct (existsb (String.eqb (d_file_path r)) fs) eqn:E;
      [apply remove_path_gone|apply existsb_eqb_false; exact E].
  - intros Ht. unfold fs2. rewrite Ht. cbn [andb].
    destruct (existsb (String.eqb (d_task_dir r)) fs1) eqn:E;
      [apply rmtree_gone|apply existsb_eqb_false; exact E].
Qed.

Lemma cleanup_fold (E : list drow) (n : nat) (fs : list string) (rs : list drow) (s : nat) :
  let '(n', fs', tb') := fold_left cleanup_one E (n, fs, Table rs s) in
  n' = (n + List.length E)%nat /\
  tb' = Table (filter (fun x => negb (existsb (Nat.eqb (d_id x)) (map d_id E))) rs) s /\
  (forall q, In q fs' -> In q fs) /\
  (forall r, In r E ->
     (truthy_str (d_file_path r) = true -> ~ In (d_file_path r) fs') /\
     (truthy_str (d_task_dir r) = true -> ~ In (d_task_dir r) fs')).
Proof.
  revert n fs rs. induction E as [|e E IH]; intros n fs rs; cbn [fold_left].
  - split; [cbn [List.length]; lia|]. split; [|split; [tauto|intros r []]].
    f_equal. induction rs as [|x rs IHr]; cbn [filter]; [reflexivity|]. rewrite <- IHr. reflexivity.
  - pose proof (cleanup_one_spec n fs rs s e) as Hs.
    destruct (cleanup_one (n, fs, Table rs s) e) as [[n1 fs1] tb1].
    destruct Hs as (-> & -> & Hsub1 & Hf1 & Hd1).
    specialize (IH (S n) fs1 (filter (fun x => negb (Nat.eqb (d_id x) (d_id e))) rs)).
    destruct (fold_left cleanup_one E _) as [[n2 fs2] tb2].
    destruct IH as (-> & -> & Hsub2 & Hgone).
    split; [cbn [List.length]; lia|]. split.
    + f_equal. rewrite filter_filter_and. apply filter_ext. intros x. cbn [map existsb].
      destruct (Nat.eqb (d_id x) (d_id e)); reflexivity.
    + split; [auto|]. intros r [<-|Hr]; [|exact (Hgone r Hr)].
      split; intros Ht Hin; [exact (Hf1 Ht (Hsub2 _ Hin))|exact (Hd1 Ht (Hsub2 _ Hin))].
Qed.

Lemma nodup_map_inj {A B : Type} (f : A -> B) (l : list A) (x y : A) :
  NoDup (map f l) -> In x l -> In y l -> f x = f y -> x = y.
Proof.
  induction l as [|a l IH]; cbn [map In]; [tauto|]. intros Hnd Hx Hy Hf.
  inversion Hnd as [|? ? Ha Hnd']; subst.
  destruct Hx as [<-|Hx]; destruct Hy as [<-|Hy]; auto.
  - exfalso. apply Ha. rewrite Hf. apply in_map. exact Hy.
  - exfalso. apply Ha. rewrite <- Hf. apply in_map. exact Hx.
Qed.

(** X7: [cleanup_expired_files] at time [now] deletes exactly the rows
    with [expires_at < now] and returns their number; a row with
    [expires_at = now] is kept (while [get_downloaded_file] no longer
    serves it).  Nothing is added to the disk, and the file and the task
    directory of every deleted row are gone from it. *)
Theorem cleanup_expired_files_effect (fs : list string) (tb : table) (now : Z) :
  NoDup (map d_id (drows tb)) ->
  let '(n, fs', tb') := cleanup_expired_files fs tb now in
  n = List.length (filter (fun r => Z.ltb (d_expires_at r) now) (drows tb)) /\
  drows tb' = filter (fun r => Z.leb now (d_expires_at r)) (drows tb) /\
  dseq tb' = dseq tb /\
  (forall q, In q fs' -> In q fs) /\
  (forall r, In r (drows tb) -> d_expires_at r < now ->
     (truthy_str (d_file_path r) = true -> ~ In (d_file_path r) fs') /\
     (truthy_str (d_task_dir r) = true -> ~ In (d_task_dir r) fs')).
Proof.
  intros Hnd. unfold cleanup_expired_files. destruct tb as [rs s]. cbn [drows dseq] in *.
  pose proof (cleanup_fold (filter (fun r => Z.ltb (d_expires_at r) now) rs) 0 fs rs s) as H.
  destruct (fold_left _ _ _) as [[n fs'] tb'].
  destruct H as (-> & -> & Hsub & Hgone). cbn [drows dseq].
  split; [reflexivity|]. split; [|split; [reflexivity|split; [exact Hsub|]]].
  - apply filter_ext_in. intros x Hx.
    destruct (Z.leb now (d_expires_at x)) eqn:Ele.
    + apply negb_true_iff. apply Bool.not_true_iff_false. intros He.
      apply existsb_exists in He as (i & Hi & Hei). apply Nat.eqb_eq in Hei. subst i.
      apply in_map_iff in Hi as (y & Hy & Hyin). apply filter_In in Hyin as [Hyin Hyx].
      assert (x = y) by exact (nodup_map_inj d_id rs x y Hnd Hx Hyin (eq_sym Hy)). subst y.
      apply Z.leb_le in Ele. apply Z.ltb_lt in Hyx. lia.
    + apply negb_false_iff. apply existsb_exists. exists (d_id x). split; [|apply Nat.eqb_refl].
      apply in_map. apply filter_In. split; [exact Hx|].
      apply Z.ltb_lt. apply Z.leb_gt in Ele. exact Ele.
  - intros r Hr Hlt. apply Hgone. apply filter_In. split; [exact Hr|]. apply Z.ltb_lt. exact Hlt.
Qed.

Definition sample_table : table :=
  Table [DRow 1 "u1" "/d/1/a.mp4" 5 "video" "video" "/d/1" 0 10 None;
         DRow 2 "u2" "/d/2/b.mp4" 5 "video" "video" "/d/2" 0 50 None] 3.

Definition sample_disk : list string := ["/d/1"; "/d/1/a.mp4"; "/d/2"; "/d/2/b.mp4"].

Lemma cleanup_expired_files_effect_witness :
  NoDup (map d_id (drows sample_table)) /\
  (let '(n, fs', tb') := cleanup_expired_files sample_disk sample_table 20 in
   n = List.length (filter (fun r => Z.ltb (d_expires_at r) 20) (drows sample_table)) /\
   drows tb' = filter (fun r => Z.leb 20 (d_expires_at r)) (drows sample_table) /\
   dseq tb' = dseq sample_table /\
   (forall q, In q fs' -> In q sample_disk) /\
   (forall r, In r (drows sample_table) -> d_expires_at r < 20 ->
      (truthy_str (d_file_path r) = true -> ~ In (d_file_path r) fs') /\
      (truthy_str (d_task_dir r) = true -> ~ In (d_task_dir r) fs'))).
Proof.
  assert (H : NoDup (map d_id (drows sample_table))).
  { cbn. constructor; [cbn; intros [H|[]]; discriminate H|constructor; [cbn; tauto|constructor]]. }
  split; [exact H|]. exact (cleanup_expired_files_effect sample_disk sample_table 20 H).
Defined.

End Downloads.

(** ** Cache ids and the links that carry them ([get_file_by_id] and
    [get_cache_id_by_url] in src/database.py; [get_convert_keyboard],
    [get_convert_options_keyboard_with_cache_id], [on_convert_action] and
    [cmd_start] in src/bot.py) *)

Module Links.
Local Open Scope string_scope.

(** The decoding shared by [get_cached_file] and [get_file_by_id]:
    [json.loads] of the column, a list kept as it is and any other value
    wrapped in a list; text that is not JSON is wrapped as it is. *)
Definition decode (loads_text : string -> option Cache.jvalue) (r : Cache.row)
    : list Cache.jvalue * string :=
  (match Cache.row_file_id r with
   | Cache.Json v => Cache.as_list v
   | Cache.Text s => match loads_text s with Some v => Cache.as_list v | None => [Cache.JStr s] end
   end, Cache.row_media_type r).

(** [SELECT file_id, media_type FROM file_cache WHERE id = ?] *)
Fixpoint find_by_id (cache_id : Z) (rs : list Cache.row) : option Cache.row :=
  match rs with
  | [] => None
  | r :: rs' => if Z.eqb (Z.of_nat (Cache.row_id r)) cache_id then Some r else find_by_id cache_id rs'
  end.

(** [get_file_by_id(cache_id)] *)
Definition get_file_by_id (loads_text : string -> option Cache.jvalue) (d : Cache.db) (cache_id : Z)
    : option (list Cache.jvalue * string) :=
  option_map (decode loads_text) (find_by_id cache_id (Cache.rows d)).

(** [get_cache_id_by_url(url)] *)
Definition get_cache_id_by_url (d : Cache.db) (url : string) : option nat :=
  option_map Cache.row_id (Cache.find_row url (Cache.rows d)).

(** A fresh [file_cache] table: no rows, AUTOINCREMENT starting at 1. *)
Definition empty_cache : Cache.db := Cache.Db [] 1.

(** A call [save_file_to_cache(url, file_ids, media_type, user_id)] made
    at time [s_now]. *)
Record save_call := SaveCall {
  s_url : string; s_file_ids : Cache.ids_arg; s_media_type : string;
  s_user_id : nat; s_now : nat }.

Definition run_saves (d : Cache.db) (calls : list save_call) : Cache.db :=
  fold_left (fun d c => snd (Cache.save_file_to_cache d (s_url c) (s_file_ids c)
                                (s_media_type c) (s_user_id c) (s_now c))) calls d.

(** [f"{n}"] for a Python int. *)
Definition str_of_int (z : Z) : string :=
  if Z.ltb z 0 then "-" ++ Voice.str_of_nat (Z.to_nat (- z)) else Voice.str_of_nat (Z.to_nat z).

(** [int(s)] on ASCII text: surrounding whitespace, an optional sign, then
    decimal digits where single underscores may separate two digits; [None]
    is the [ValueError]. *)
Definition digit_val (c : ascii) : Z := Z.of_nat (Url.code c - 48).

Fixpoint digits_from (acc : Z) (prev_us : bool) (s : string) : option Z :=
  match s with
  | EmptyString => if prev_us then None else Some acc
  | String c s' =>
      if Url.is_digit c then digits_from (acc * 10 + digit_val c) false s'
      else if Url.char_eqb c "_" && negb prev_us then digits_from acc true s'
      else None
  end.

Definition digits (s : string) : option Z :=
  match s with
  | String c s' => if Url.is_digit c then digits_from (digit_val c) false s' else None
  | EmptyString => None
  end.

Definition py_int (s : string) : option Z :=
  match Url.strip s with
  | String c r =>
      if Url.char_eqb c "-" then option_map Z.opp (digits r)
      else if Url.char_eqb c "+" then digits r
      else digits (String c r)
  | EmptyString => None
  end.

(** [s.split()]: split at every whitespace character, empty pieces
    dropped. *)
Fixpoint split_by (p : ascii -> bool) (s : string) : list string :=
  match s with
  | EmptyString => [EmptyString]
  | String d s' =>
      if p d then EmptyString :: split_by p s'
      else match split_by p s' with
           | a :: rest => String d a :: rest
           | [] => [String d EmptyString]
           end
  end.

Definition split_ws (s : string) : list string :=
  filter (fun w => negb (Url.is_empty w)) (split_by Url.is_space s).

(** [s[n:]] *)
Fixpoint drop (n : nat) (s : string) : string :=
  match n, s with
  | O, _ => s
  | S n', String _ s' => drop n' s'
  | S _, EmptyString => EmptyString
  end.

(** [s.split(c)[0]] *)
Definition first_piece (c : ascii) (s : string) : string := hd EmptyString (Url.split_all c s).

(** The single button of [get_convert_keyboard]: a link, or the callback
    [convert_menu]. *)
Inductive button :=
| UrlButton (url : string)
| CallbackButton (callback_data : string).

(** [get_convert_keyboard(cache_id, bot_username)]: [if cache_id and
    bot_username]. *)
Definition get_convert_keyboard (cache_id : option Z) (bot_username : option string) : button :=
  match cache_id, bot_username with
  | Some c, Some b =>
      if negb (Z.eqb c 0) && negb (Url.is_empty b)
      then UrlButton ("https://t.me/" ++ b ++ "?start=file_" ++ str_of_int c)
      else CallbackButton "convert_menu"
  | _, _ => CallbackButton "convert_menu"
  end.

(** The callback data of [get_convert_options_keyboard_with_cache_id],
    row by row. *)
Definition get_convert_options_keyboard_with_cache_id (cache_id : Z) : list (list string) :=
  let s := str_of_int cache_id in
  [["conv_note_" ++ s; "conv_voice_" ++ s];
   ["conv_mp3_" ++ s; "conv_file_" ++ s];
   ["conv_transcription_" ++ s]].

(** How [on_convert_action] reads [callback.data]: [parts =
    data.split("_")]; the new format [conv_action_cacheid] gives the action
    and [int(parts[2])] ([None] for the [ValueError] answered with an
    error), the old one [parts[1]]; [NoParts] is the [IndexError] of a
    data without '_'. *)
Inductive conv_request :=
| NewFormat (action : string) (cache_id : option Z)
| OldFormat (action : string)
| NoParts.

Definition parse_convert_callback (data : string) : conv_request :=
  match Url.split_all "_" data with
  | p0 :: p1 :: p2 :: _ => if String.eqb p0 "conv" then NewFormat p1 (py_int p2) else OldFormat p1
  | _ :: p1 :: [] => OldFormat p1
  | _ => NoParts
  end.

(** The start parameter [cmd_start] reads from [message.text]: the second
    word, or else, when the text holds [?start=] or [&start=], the first
    [start] value of the query of [urlparse(text)] (an exception there
    leaves it [None]). *)
Definition start_param (text : option string) : option string :=
  match text with
  | None => None
  | Some t =>
      match split_ws t with
      | _ :: p :: _ => Some p
      | _ =>
          if Url.contains "?start=" t || Url.contains "&start=" t then
            match Url.urlparse t with
            | Some pr =>
                match Url.qd_lookup (Url.parse_qs (Url.query pr)) "start" with
                | Some (v :: _) => Some v
                | _ => None
                end
            | None => None
            end
          else None
      end
  end.

(** What [cmd_start] makes of the start parameter: no file link, an id
    that [int()] rejects (the [except] branch), or the cache id it then
    looks up with [get_file_by_id]. *)
Inductive start_request :=
| NoFileParam
| BadFileId
| FileId (cache_id : Z).

Definition parse_start_file (sp : option string) : start_request :=
  match sp with
  | Some p =>
      if negb (Url.is_empty p) && String.prefix "file_" p then
        let v := drop 5 p in
        let v := Url.strip (first_piece "&" (first_piece "?" (first_piece "/" v))) in
        match py_int v with Some c => FileId c | None => BadFileId end
      else NoFileParam
  | None => NoFileParam
  end.

Lemma str_of_uint_digits (d : Decimal.uint) :
  Url.forall_chars Url.is_digit (NilEmpty.string_of_uint d) = true.
Proof. induction d; cbn [NilEmpty.string_of_uint Url.forall_chars]; rewrite ?IHd; reflexivity. Qed.

Lemma str_of_nat_digits (n : nat) : Url.forall_chars Url.is_digit (Voice.str_of_nat n) = true.
Proof.
  unfold Voice.str_of_nat, NilZero.string_of_uint.
  destruct (Nat.to_uint n); [reflexivity|..]; apply (str_of_uint_digits (_ _)).
Qed.

Lemma str_of_nat_nonempty (n : nat) : Url.is_empty (Voice.str_of_nat n) = false.
Proof.
  unfold Voice.str_of_nat, NilZero.string_of_uint.
  destruct (Nat.to_uint n); reflexivity.
Qed.

Lemma digits_from_uint (d : Decimal.uint) (a : nat) :
  digits_from (Z.of_nat a) false (NilEmpty.string_of_uint d) = Some (Z.of_nat (Nat.of_uint_acc d a)).
Proof.
  revert a. induction d; intros a; cbn [NilEmpty.string_of_uint Nat.of_uint_acc]; [reflexivity|..];
    cbn [digits_from];
    (match goal with |- (if Url.is_digit ?c then _ else _) = _ =>
       replace (Url.is_digit c) with true by reflexivity end);
    rewrite <- IHd; f_equal; unfold digit_val; rewrite Nat.tail_mul_spec;
    (match goal with |- context [Url.code ?c] =>
       let v := eval vm_compute in (Url.code c) in change (Url.code c) with v end); lia.
Qed.

Lemma digit_printable : forall c, implb (Url.is_digit c) (Url.printable c) = true.
Proof. apply Url.ascii_forall. vm_compute. reflexivity. Qed.

Lemma str_of_nat_printable (n : nat) : Url.forall_chars Url.printable (Voice.str_of_nat n) = true.
Proof.
  apply (Url.forall_chars_impl Url.is_digit); [|apply str_of_nat_digits].
  intros c Hc. pose proof (digit_printable c) as H. rewrite Hc in H. exact H.
Qed.

Ltac code_lia :=
  unfold digit_val;
  repeat (match goal with |- context [Url.code ?c] =>
            let v := eval vm_compute in (Url.code c) in change (Url.code c) with v end);
  rewrite ?Nat.tail_mul_spec; lia.

Lemma py_int_uint (d : Decimal.uint) :
  d <> Decimal.Nil ->
  py_int (NilEmpty.string_of_uint d) = Some (Z.of_nat (Nat.of_uint_acc d 0)).
Proof.
  intros Hd. unfold py_int.
  rewrite (proj1 (Url.printable_strip_id _ (Url.forall_chars_impl Url.is_digit _ _
             (fun c Hc => eq_trans (eq_sym (f_equal (fun b => implb b (Url.printable c)) Hc))
                                   (digit_printable c))
             (str_of_uint_digits d)))).
  destruct d as [|d|d|d|d|d|d|d|d|d|d]; [contradiction|..]; cbn [NilEmpty.string_of_uint];
    (match goal with |- context [Url.char_eqb ?c "-"] =>
       replace (Url.char_eqb c "-") with false by reflexivity;
       replace (Url.char_eqb c "+") with false by reflexivity end);
    unfold digits;
    (match goal with |- context [if Url.is_digit ?c then _ else _] =>
       replace (Url.is_digit c) with true by reflexivity end);
    cbn [Nat.of_uint_acc];
    (rewrite <- (digits_from_uint d _); f_equal; code_lia).
Qed.

Lemma py_int_str_of_nat (n : nat) : py_int (Voice.str_of_nat n) = Some (Z.of_nat n).
Proof.
  rewrite <- (DecimalNat.Unsigned.of_to n) at 2. unfold Nat.of_uint, Voice.str_of_nat, NilZero.string_of_uint.
  destruct (Nat.to_uint n) eqn:E; [reflexivity|..]; (apply py_int_uint; discriminate).
Qed.

Lemma str_of_int_nat (n : nat) : str_of_int (Z.of_nat n) = Voice.str_of_nat n.
Proof.
  unfold str_of_int. replace (Z.ltb (Z.of_nat n) 0) with false by (symmetry; apply Z.ltb_ge; lia).
  rewrite Nat2Z.id. reflexivity.
Qed.

Lemma split_all_nomem (c : ascii) (s : string) : Url.mem c s = false -> Url.split_all c s = [s].
Proof.
  induction s as [|d s IH]; cbn [Url.mem Url.split_all]; [reflexivity|].
  intros H. apply orb_false_elim in H as [H1 H2]. rewrite H1, IH by exact H2. reflexivity.
Qed.

Lemma first_piece_app (c : ascii) (s t : string) :
  Url.mem c s = false -> first_piece c (s ++ t) = s ++ first_piece c t.
Proof.
  intros H. unfold first_piece. destruct (Url.split_all c t) as [|y r] eqn:E.
  - exfalso. exact (Url.split_all_nonnil c t E).
  - rewrite (Url.split_all_app c s t y r H E). reflexivity.
Qed.

Lemma first_piece_sep (c : ascii) (t : string) : first_piece c (String c t) = EmptyString.
Proof. unfold first_piece. cbn [Url.split_all]. rewrite Ascii.eqb_refl. reflexivity. Qed.

Lemma first_piece_other (c d : ascii) (t : string) :
  Url.char_eqb c d = false -> first_piece c (String d t) = String d (first_piece c t).
Proof.
  intros H. unfold first_piece. cbn [Url.split_all]. rewrite H.
  destruct (Url.split_all c t) as [|y r] eqn:E; [exfalso; exact (Url.split_all_nonnil c t E)|].
  reflexivity.
Qed.

Lemma first_piece_nomem (c : ascii) (s : string) : Url.mem c s = false -> first_piece c s = s.
Proof. intros H. unfold first_piece. rewrite split_all_nomem by exact H. reflexivity. Qed.

Lemma digits_nomem (c : ascii) (n : nat) :
  Url.is_digit c = false -> Url.mem c (Voice.str_of_nat n) = false.
Proof. intros H. exact (Url.forall_chars_mem _ c _ (str_of_nat_digits n) H). Qed.

Lemma split_by_none (p : ascii -> bool) (s : string) :
  Url.forall_chars (fun c => negb (p c)) s = true -> split_by p s = [s].
Proof.
  induction s as [|d s IH]; cbn [split_by Url.forall_chars]; [reflexivity|].
  intros H. apply andb_prop in H as [H1 H2]. destruct (p d); [discriminate|].
  rewrite IH by exact H2. reflexivity.
Qed.

Lemma str_of_nat_nospace (n : nat) :
  Url.forall_chars (fun c => negb (Url.is_space c)) (Voice.str_of_nat n) = true.
Proof.
  apply (Url.forall_chars_impl Url.printable); [|apply str_of_nat_printable].
  intros c Hc. pose proof (Url.printable_facts c) as H. rewrite Hc in H. cbn [implb] in H.
  apply andb_prop in H as [H _]. apply andb_prop in H as [H _].
  apply andb_prop in H as [H _]. exact H.
Qed.

(** Parsing [file_<digits>] followed by nothing, or by '/', '?' or '&' and
    any text. *)
Lemma parse_start_digits (n : nat) (tail : string) :
  (tail = EmptyString \/ exists sep junk, In sep ["/"; "?"; "&"]%char /\ tail = String sep junk) ->
  parse_start_file (Some ("file_" ++ Voice.str_of_nat n ++ tail)) = FileId (Z.of_nat n).
Proof.
  intros Ht. set (s := Voice.str_of_nat n).
  assert (Hs : Url.mem "/" s = false /\ Url.mem "?" s = false /\ Url.mem "&" s = false)
    by (split; [|split]; apply digits_nomem; reflexivity).
  destruct Hs as (Hs1 & Hs2 & Hs3).
  assert (Hv : Url.strip (first_piece "&" (first_piece "?" (first_piece "/" (s ++ tail)))) = s).
  { rewrite !first_piece_app by assumption.
    assert (HX : first_piece "&" (first_piece "?" (first_piece "/" tail)) = EmptyString).
    { destruct Ht as [->|(sep & junk & Hin & ->)]; [reflexivity|].
      cbn [In] in Hin. destruct Hin as [<-|[<-|[<-|[]]]].
      - rewrite first_piece_sep. reflexivity.
      - rewrite (first_piece_other "/" "?") by reflexivity. rewrite first_piece_sep. reflexivity.
      - rewrite (first_piece_other "/" "&") by reflexivity.
        rewrite (first_piece_other "?" "&") by reflexivity. apply first_piece_sep. }
    rewrite HX, Url.append_nil_r.
    exact (proj1 (Url.printable_strip_id _ (str_of_nat_printable n))). }
  unfold parse_start_file. cbn [Url.is_empty negb andb String.prefix append drop].
  replace (String.prefix "" (s ++ tail)) with true by (destruct (s ++ tail); reflexivity).
  cbn [andb drop append]. rewrite Hv. unfold s. rewrite py_int_str_of_nat. reflexivity.
Qed.

Lemma start_param_word (p : string) :
  Url.is_empty p = false -> Url.forall_chars (fun c => negb (Url.is_space c)) p = true ->
  start_param (Some ("/start " ++ p)) = Some p.
Proof.
  intros Hne Hp. unfold start_param, split_ws. cbn [append split_by].
  replace (Url.is_space "/") with false by reflexivity.
  replace (Url.is_space "s") with false by reflexivity.
  replace (Url.is_space "t") with false by reflexivity.
  replace (Url.is_space "a") with false by reflexivity.
  replace (Url.is_space "r") with false by reflexivity.
  replace (Url.is_space " ") with true by reflexivity.
  rewrite split_by_none by exact Hp. cbn [filter Url.is_empty negb]. rewrite Hne. reflexivity.
Qed.

Lemma parse_conv_digits (a : string) (n : nat) :
  Url.mem "_" a = false ->
  parse_convert_callback ("conv_" ++ a ++ "_" ++ Voice.str_of_nat n) = NewFormat a (Some (Z.of_nat n)).
Proof.
  intros Ha. unfold parse_convert_callback.
  change ("conv_" ++ a ++ "_" ++ Voice.str_of_nat n)
    with ("conv" ++ String "_" (a ++ String "_" (Voice.str_of_nat n))).
  rewrite (Url.split_all_app "_" "conv" _ EmptyString (Url.split_all "_" (a ++ String "_" (Voice.str_of_nat n))))
    by reflexivity.
  rewrite (Url.split_all_app "_" a _ EmptyString [Voice.str_of_nat n]) by
    (exact Ha || (cbn [Url.split_all]; rewrite Ascii.eqb_refl, split_all_nomem by
                   (apply digits_nomem; reflexivity); reflexivity)).
  rewrite !Url.append_nil_r. cbn [String.eqb]. rewrite py_int_str_of_nat. reflexivity.
Qed.

(** The invariant the table keeps: ids and urls unique (primary key and
    [UNIQUE]), every id in [1, next_id). *)
Definition wf (d : Cache.db) : Prop :=
  NoDup (map Cache.row_id (Cache.rows d)) /\ NoDup (map Cache.row_url (Cache.rows d)) /\
  (1 <= Cache.next_id d)%nat /\
  Forall (fun r => 1 <= Cache.row_id r < Cache.next_id d)%nat (Cache.rows d).

Lemma save_shape (d : Cache.db) (url : string) (ids : Cache.ids_arg) (kind : string) (uid now : nat) :
  exists c mt,
    Cache.save_file_to_cache d url ids kind uid now =
    match Cache.find_row url (Cache.rows d) with
    | Some e => (Some (Cache.row_id e),
                 Cache.Db (map (Cache.update_row (Cache.row_id e) c mt uid now) (Cache.rows d))
                          (Cache.next_id d))
    | None => (Some (Cache.next_id d),
               Cache.Db (app (Cache.rows d) [Cache.Row (Cache.next_id d) url c mt uid now])
                        (S (Cache.next_id d)))
    end.
Proof. unfold Cache.save_file_to_cache. destruct ids; eexists _, _; reflexivity. Qed.

Lemma find_row_some (url : string) (rs : list Cache.row) (r : Cache.row) :
  Cache.find_row url rs = Some r -> In r rs /\ Cache.row_url r = url.
Proof.
  induction rs as [|x rs IH]; cbn [Cache.find_row]; [discriminate|].
  destruct (String.eqb (Cache.row_url x) url) eqn:E.
  - intros H. injection H as <-. apply String.eqb_eq in E. split; [left; reflexivity|exact E].
  - intros H. destruct (IH H) as [H1 H2]. split; [right; exact H1|exact H2].
Qed.

Lemma find_by_id_row (rs : list Cache.row) (r : Cache.row) :
  NoDup (map Cache.row_id rs) -> In r rs -> find_by_id (Z.of_nat (Cache.row_id r)) rs = Some r.
Proof.
  induction rs as [|x rs IH]; cbn [In find_by_id map]; [tauto|].
  intros Hnd Hin. inversion Hnd as [|? ? Hx Hnd']; subst.
  destruct Hin as [<-|Hin]; [rewrite Z.eqb_refl; reflexivity|].
  replace (Z.eqb (Z.of_nat (Cache.row_id x)) (Z.of_nat (Cache.row_id r))) with false.
  - exact (IH Hnd' Hin).
  - symmetry. apply Z.eqb_neq. intros He. apply Nat2Z.inj in He. apply Hx. rewrite He.
    apply in_map. exact Hin.
Qed.

Lemma find_by_id_absent (rs : list Cache.row) (z : Z) :
  (forall r, In r rs -> Z.of_nat (Cache.row_id r) <> z) -> find_by_id z rs = None.
Proof.
  induction rs as [|x rs IH]; cbn [find_by_id]; [reflexivity|]. intros H.
  replace (Z.eqb (Z.of_nat (Cache.row_id x)) z) with false
    by (symmetry; apply Z.eqb_neq; apply H; left; reflexivity).
  apply IH. intros r Hr. apply H. right. exact Hr.
Qed.

Lemma map_row_id_update (rs : list Cache.row) i c mt uid now :
  map Cache.row_id (map (Cache.update_row i c mt uid now) rs) = map Cache.row_id rs.
Proof.
  rewrite map_map. apply map_ext. intros r. unfold Cache.update_row.
  destruct (Nat.eqb (Cache.row_id r) i); reflexivity.
Qed.

Lemma save_wf (d : Cache.db) (url : string) (ids : Cache.ids_arg) (kind : string) (uid now : nat) :
  wf d -> wf (snd (Cache.save_file_to_cache d url ids kind uid now)).
Proof.
  intros (Hid & Hurl & H1 & Hlt). destruct (save_shape d url ids kind uid now) as (c & mt & ->).
  destruct (Cache.find_row url (Cache.rows d)) as [e|] eqn:Ef; unfold wf; cbn [snd Cache.rows Cache.next_id].
  - split; [rewrite map_row_id_update; exact Hid|]. split; [rewrite Cache.map_row_url_update; exact Hurl|].
    split; [exact H1|]. apply Forall_map. eapply Forall_impl; [|exact Hlt].
    intros r Hr. unfold Cache.update_row. destruct (Nat.eqb (Cache.row_id r) (Cache.row_id e)); exact Hr.
  - split; [|split; [|split]].
    + rewrite map_app. apply NoDup_app; [exact Hid|repeat constructor; cbn; tauto|].
      intros x Hx [Hy|[]]. cbn [Cache.row_id] in Hy. subst x.
      apply in_map_iff in Hx as (r & Hr & Hin). rewrite Forall_forall in Hlt.
      specialize (Hlt r Hin). lia.
    + rewrite map_app. apply NoDup_app; [exact Hurl|repeat constructor; cbn; tauto|].
      intros x Hx [Hy|[]]. cbn [Cache.row_url] in Hy. subst x.
      exact (Cache.find_row_none_notin (fun _ => None) url _ Ef Hx).
    + lia.
    + apply Forall_app. split.
      * eapply Forall_impl; [|exact Hlt]. cbn beta. intros r Hr. lia.
      * repeat constructor; cbn [Cache.row_id]; lia.
Qed.

Lemma run_saves_wf (d : Cache.db) (calls : list save_call) : wf d -> wf (run_saves d calls).
Proof.
  revert d. induction calls as [|c calls IH]; intros d Hd; cbn [run_saves fold_left]; [exact Hd|].
  apply IH. apply save_wf. exact Hd.
Qed.

Lemma save_keeps_row (d : Cache.db) (url : string) (ids : Cache.ids_arg) (kind : string) (uid now : nat)
    (r : Cache.row) :
  wf d -> In r (Cache.rows d) -> Cache.row_url r <> url ->
  In r (Cache.rows (snd (Cache.save_file_to_cache d url ids kind uid now))).
Proof.
  intros (Hid & _) Hin Hne. destruct (save_shape d url ids kind uid now) as (c & mt & ->).
  destruct (Cache.find_row url (Cache.rows d)) as [e|] eqn:Ef; cbn [snd Cache.rows].
  - apply find_row_some in Ef as [He Hue].
    replace r with (Cache.update_row (Cache.row_id e) c mt uid now r).
    + apply in_map. exact Hin.
    + unfold Cache.update_row. destruct (Nat.eqb (Cache.row_id r) (Cache.row_id e)) eqn:E; [|reflexivity].
      apply Nat.eqb_eq in E. exfalso. apply Hne. rewrite <- Hue.
      f_equal. exact (Downloads.nodup_map_inj Cache.row_id _ r e Hid Hin He E).
  - apply in_or_app. left. exact Hin.
Qed.

Lemma wf_empty : wf empty_cache.
Proof. unfold wf, empty_cache. cbn. split; [constructor|split; [constructor|split; [lia|constructor]]]. Qed.

Lemma later_saves_keep_row (r : Cache.row) (later : list save_call) (d : Cache.db) :
  wf d -> In r (Cache.rows d) -> (forall c, In c later -> s_url c <> Cache.row_url r) ->
  wf (run_saves d later) /\ In r (Cache.rows (run_saves d later)).
Proof.
  revert d. induction later as [|c later IH]; intros d Hwf Hin Hl; cbn [run_saves fold_left];
    [split; assumption|].
  apply IH.
  - apply save_wf. exact Hwf.
  - apply save_keeps_row; [exact Hwf|exact Hin|]. intros He. apply (Hl c); [left; reflexivity|].
    symmetry. exact He.
  - intros c' Hc'. apply Hl. right. exact Hc'.
Qed.

Lemma row_lookups (lt : string -> option Cache.jvalue) (d : Cache.db) (url : string) (r : Cache.row) :
  wf d -> Cache.find_row url (Cache.rows d) = Some r ->
  (1 <= Cache.row_id r)%nat /\
  get_cache_id_by_url d url = Some (Cache.row_id r) /\
  get_file_by_id lt d (Z.of_nat (Cache.row_id r)) = Cache.get_cached_file lt d url /\
  (forall z, (z < 1 \/ Z.of_nat (Cache.next_id d) <= z)%Z -> get_file_by_id lt d z = None) /\
  (forall later, (forall c, In c later -> s_url c <> url) ->
     get_file_by_id lt (run_saves d later) (Z.of_nat (Cache.row_id r)) =
     get_file_by_id lt d (Z.of_nat (Cache.row_id r))).
Proof.
  intros Hwf Hf. pose proof Hwf as (Hid & Hurl & H1 & Hlt).
  destruct (find_row_some url _ r Hf) as [Hin Hu].
  rewrite Forall_forall in Hlt.
  split; [exact (proj1 (Hlt r Hin))|]. split; [unfold get_cache_id_by_url; rewrite Hf; reflexivity|].
  split; [|split].
  - unfold get_file_by_id, Cache.get_cached_file. rewrite Hf, find_by_id_row by assumption. reflexivity.
  - intros z Hz. unfold get_file_by_id. rewrite find_by_id_absent; [reflexivity|].
    intros x Hx. specialize (Hlt x Hx). lia.
  - intros later Hl. rewrite <- Hu in Hl.
    destruct (later_saves_keep_row r later d Hwf Hin Hl) as [(Hid' & _) Hin'].
    unfold get_file_by_id. rewrite !find_by_id_row by assumption. reflexivity.
Qed.

(** X8: in a [file_cache] table built by [save_file_to_cache] calls, a save
    returns a positive id [i]; [get_cache_id_by_url] then gives [i], and
    [get_file_by_id(i)] gives what [get_cached_file(url)] gives.  An id
    that was never issued finds nothing, and later saves of other urls do
    not change what [get_file_by_id(i)] returns. *)
Theorem cache_id_lookup (lt : string -> option Cache.jvalue) (calls : list save_call) (url : string)
    (ids : Cache.ids_arg) (kind : string) (uid now : nat) :
  let '(res, d') := Cache.save_file_to_cache (run_saves empty_cache calls) url ids kind uid now in
  exists i : nat, res = Some i /\ (1 <= i)%nat /\
    get_cache_id_by_url d' url = Some i /\
    get_file_by_id lt d' (Z.of_nat i) = Cache.get_cached_file lt d' url /\
    (forall z, (z < 1 \/ Z.of_nat (Cache.next_id d') <= z)%Z -> get_file_by_id lt d' z = None) /\
    (forall later, (forall c, In c later -> s_url c <> url) ->
       get_file_by_id lt (run_saves d' later) (Z.of_nat i) = get_file_by_id lt d' (Z.of_nat i)).
Proof.
  set (d := run_saves empty_cache calls).
  assert (Hwf : wf d) by exact (run_saves_wf empty_cache calls wf_empty).
  pose proof (save_wf d url ids kind uid now Hwf) as Hwf'.
  destruct (save_shape d url ids kind uid now) as (c & mt & E). rewrite E in *.
  destruct (Cache.find_row url (Cache.rows d)) as [e|] eqn:Ef; cbn [snd] in Hwf'.
  - pose proof (Cache.find_row_update url (Cache.rows d) e c mt uid now Ef) as Hf.
    destruct (row_lookups lt _ url _ Hwf' Hf) as (H1 & H2 & H3 & H4 & H5).
    exists (Cache.row_id e). split; [reflexivity|]. exact (conj H1 (conj H2 (conj H3 (conj H4 H5)))).
  - pose proof (Cache.find_row_app_none url (Cache.rows d)
                  (Cache.Row (Cache.next_id d) url c mt uid now) Ef eq_refl) as Hf.
    destruct (row_lookups lt _ url _ Hwf' Hf) as (H1 & H2 & H3 & H4 & H5).
    exists (Cache.next_id d). split; [reflexivity|]. exact (conj H1 (conj H2 (conj H3 (conj H4 H5)))).
Qed.

(** X9: for a positive cache id [n] and a non-empty bot username, the
    button of [get_convert_keyboard] links to [https://t.me/<bot>] with the
    start parameter [file_<n>]; the [/start file_<n>] message Telegram
    sends for that link makes [cmd_start] look up cache id [n], and so
    does the parameter followed by '/', '?' or '&' and any text. *)
Theorem convert_link_roundtrip (n : nat) (bot : string) :
  n <> 0%nat -> Url.is_empty bot = false ->
  get_convert_keyboard (Some (Z.of_nat n)) (Some bot) =
    UrlButton ("https://t.me/" ++ bot ++ "?start=" ++ ("file_" ++ Voice.str_of_nat n)) /\
  parse_start_file (start_param (Some ("/start " ++ ("file_" ++ Voice.str_of_nat n)))) = FileId (Z.of_nat n) /\
  (forall sep junk, In sep ["/"; "?"; "&"]%char ->
     parse_start_file (Some ("file_" ++ Voice.str_of_nat n ++ String sep junk)) = FileId (Z.of_nat n)).
Proof.
  intros Hn Hb. split; [|split].
  - unfold get_convert_keyboard. rewrite Hb, str_of_int_nat.
    replace (Z.eqb (Z.of_nat n) 0) with false by (symmetry; apply Z.eqb_neq; lia). reflexivity.
  - rewrite start_param_word.
    + rewrite <- (Url.append_nil_r (Voice.str_of_nat n)). apply parse_start_digits. left. reflexivity.
    + reflexivity.
    + rewrite Url.forall_chars_app. apply andb_true_iff. split; [reflexivity|apply str_of_nat_nospace].
  - intros sep junk Hin. apply parse_start_digits. right. exists sep, junk. auto.
Qed.

Lemma convert_link_roundtrip_witness :
  get_convert_keyboard (Some 12%Z) (Some "dreambot") = UrlButton "https://t.me/dreambot?start=file_12" /\
  parse_start_file (start_param (Some "/start file_12")) = FileId 12%Z /\
  parse_start_file (Some "file_12/extra") = FileId 12%Z.
Proof.
  assert (Hn : 12%nat <> 0%nat) by discriminate.
  destruct (convert_link_roundtrip 12 "dreambot" Hn eq_refl) as (H1 & H2 & H3).
  split; [exact H1|]. split; [exact H2|].
  exact (H3 "/"%char "extra" (or_introl eq_refl)).
Defined.

(** X10: every callback of [get_convert_options_keyboard_with_cache_id(n)]
    is read back by [on_convert_action] in the new format, with its action
    and the cache id [n]. *)
Theorem convert_options_roundtrip (n : nat) :
  map parse_convert_callback (concat (get_convert_options_keyboard_with_cache_id (Z.of_nat n))) =
  map (fun a => NewFormat a (Some (Z.of_nat n))) ["note"; "voice"; "mp3"; "file"; "transcription"].
Proof.
  unfold get_convert_options_keyboard_with_cache_id. rewrite str_of_int_nat.
  cbn [concat app map].
  repeat f_equal.
  - exact (parse_conv_digits "note" n eq_refl).
  - exact (parse_conv_digits "voice" n eq_refl).
  - exact (parse_conv_digits "mp3" n eq_refl).
  - exact (parse_conv_digits "file" n eq_refl).
  - exact (parse_conv_digits "transcription" n eq_refl).
Qed.

End Links.

(** * api.py: the per-session download history

    [sessions_data[session_id]['history']] is a list of entries, newest
    first.  The state below is the history of the session found in the
    cookie: [None] when [sessions_data] has no entry for it.  Besides
    [id], [added_at] and [normalized_url], [add_to_history] copies the
    same fields of [file_info] in both of its branches ([filename], [url],
    [path], [size], [telegram_file_id], ...); they are kept together as a
    value of type [F]. The new [uuid4] id is the argument [fresh], and
    [datetime.now().isoformat()] is [now]. *)
Module History.

Section History.

Variable F : Type.

Record file_info := FileInfo { fi_normalized_url : option string; fi_fields : F }.

Record entry := Entry {
  e_id : string; e_fields : F; e_added_at : string; e_normalized_url : option string }.

(** [if normalized_url:] *)
Definition truthy_url (nu : option string) : bool :=
  match nu with Some u => negb (String.eqb u "") | None => false end.

(** [item.get('normalized_url') == normalized_url] *)
Definition same_url (nu : option string) (item : entry) : bool :=
  match e_normalized_url item, nu with
  | Some a, Some b => String.eqb a b
  | None, None => true
  | _, _ => false
  end.

(** The [for idx, item in enumerate(...)] loop with its [break]. *)
Fixpoint find_index (p : entry -> bool) (l : list entry) : option nat :=
  match l with
  | [] => None
  | x :: l' => if p x then Some 0%nat else option_map S (find_index p l')
  end.

(** [list.pop(index)] (only called with an index of the list). *)
Fixpoint pop (n : nat) (l : list entry) : list entry :=
  match l, n with
  | [], _ => []
  | _ :: l', O => l'
  | x :: l', S n' => x :: pop n' l'
  end.

(** [get_session_history()] *)
Definition get_session_history (st : option (list entry)) : list entry :=
  match st with Some h => h | None => [] end.

(** The [file_entry] dict built in both branches. *)
Definition new_entry (id now : string) (info : file_info) : entry :=
  Entry id (fi_fields info) now (fi_normalized_url info).

(** [add_to_history(file_info)]: the returned entry and the session's
    history afterwards. *)
Definition add_to_history (fresh now : string) (info : file_info) (st : option (list entry))
    : entry * list entry :=
  let history := get_session_history st in
  let normalized_url := fi_normalized_url info in
  let existing_index :=
    if truthy_url normalized_url then find_index (same_url normalized_url) history else None in
  match existing_index with
  | Some idx =>
      match nth_error history idx with
      | Some item =>
          let file_entry := new_entry (e_id item) now info in
          (file_entry, file_entry :: pop idx history)
      | None =>
          let file_entry := new_entry fresh now info in (file_entry, file_entry :: history)
      end
  | None =>
      let file_entry := new_entry fresh now info in (file_entry, file_entry :: history)
  end.

(** [remove_from_history(file_id)]: the result and the new state. *)
Definition remove_from_history (file_id : string) (st : option (list entry))
    : bool * option (list entry) :=
  match st with
  | Some h => (true, Some (filter (fun f => negb (String.eqb (e_id f) file_id)) h))
  | None => (false, None)
  end.

(** The entries whose [normalized_url] is truthy, and the invariants the
    history keeps: one entry per such url, ids unique. *)
Definition linked (h : list entry) : list entry :=
  filter (fun x => truthy_url (e_normalized_url x)) h.

Definition urls_unique (h : list entry) : Prop := NoDup (map e_normalized_url (linked h)).

Definition ids_unique (h : list entry) : Prop := NoDup (map e_id h).

Lemma same_url_truthy (nu : option string) (x : entry) :
  truthy_url nu = true -> same_url nu x = true ->
  truthy_url (e_normalized_url x) = true /\ e_normalized_url x = nu.
Proof.
  unfold same_url. destruct (e_normalized_url x) as [a|], nu as [b|]; try discriminate.
  intros Ht He. apply String.eqb_eq in He. subst a. split; [exact Ht|reflexivity].
Qed.

Lemma filter_negb_all (p : entry -> bool) (l : list entry) :
  (forall y, In y l -> p y = false) -> filter (fun x => negb (p x)) l = l.
Proof.
  induction l as [|x l IH]; cbn [filter In]; [reflexivity|]. intros H.
  rewrite (H x (or_introl eq_refl)). cbn [negb]. f_equal. apply IH. intros y Hy. apply H. right. exact Hy.
Qed.

Lemma find_none_all (p : entry -> bool) (l : list entry) :
  find p l = None -> forall y, In y l -> p y = false.
Proof.
  induction l as [|x l IH]; cbn [find In]; [tauto|].
  destruct (p x) eqn:E; [discriminate|]. intros Hn y [<-|Hy]; [exact E|exact (IH Hn y Hy)].
Qed.

Lemma find_index_none (p : entry -> bool) (l : list entry) :
  find_index p l = None -> find p l = None.
Proof.
  induction l as [|x l IH]; cbn [find_index find]; [reflexivity|].
  destruct (p x); [discriminate|]. destruct (find_index p l); [discriminate|]. intros _. exact (IH eq_refl).
Qed.

Lemma linked_tail (x : entry) (h : list entry) :
  urls_unique (x :: h) -> urls_unique h.
Proof.
  unfold urls_unique, linked. cbn [filter]. destruct (truthy_url (e_normalized_url x)); [|tauto].
  cbn [map]. intros H. inversion H. assumption.
Qed.

Lemma nodup_map_filter {B : Type} (f : entry -> B) (q : entry -> bool) (l : list entry) :
  NoDup (map f l) -> NoDup (map f (filter q l)).
Proof.
  induction l as [|x l IH]; cbn [filter map]; [tauto|]. intros H. inversion H as [|? ? Hx Hl]; subst.
  destruct (q x); [|exact (IH Hl)]. cbn [map]. constructor; [|exact (IH Hl)].
  intros Hin. apply Hx. apply in_map_iff in Hin as (y & Hy & Hin). apply filter_In in Hin as [Hin _].
  rewrite <- Hy. apply in_map. exact Hin.
Qed.

(** With one entry per truthy url, [pop] at the index the loop finds
    removes exactly the entries of that url. *)
Lemma pop_unique (nu : option string) (h : list entry) (i : nat) :
  truthy_url nu = true -> urls_unique h -> find_index (same_url nu) h = Some i ->
  exists x, find (same_url nu) h = Some x /\ nth_error h i = Some x /\
    pop i h = filter (fun y => negb (same_url nu y)) h.
Proof.
  intros Ht. revert i. induction h as [|x h IH]; intros i Hu; cbn [find_index]; [discriminate|].
  cbn [find filter]. destruct (same_url nu x) eqn:E.
  - intros Hi. injection Hi as <-. exists x. split; [reflexivity|]. split; [reflexivity|].
    cbn [negb pop]. symmetry. apply filter_negb_all. intros y Hy.
    destruct (same_url nu y) eqn:Ey; [|reflexivity]. exfalso.
    destruct (same_url_truthy nu x Ht E) as [Htx Hx]. destruct (same_url_truthy nu y Ht Ey) as [Hty Hy'].
    unfold urls_unique, linked in Hu. cbn [filter] in Hu. rewrite Htx in Hu. cbn [map] in Hu.
    apply NoDup_cons_iff in Hu as [Hn _]. apply Hn. rewrite Hx, <- Hy'. apply in_map.
    apply filter_In. split; assumption.
  - destruct (find_index (same_url nu) h) as [j|] eqn:Ej; [|discriminate]. intros Hi.
    injection Hi as <-. destruct (IH j (linked_tail x h Hu) eq_refl) as (y & H1 & H2 & H3).
    exists y. split; [exact H1|]. split; [exact H2|]. cbn [negb pop]. rewrite H3. reflexivity.
Qed.

(** The shape of [add_to_history]'s result. *)
Lemma add_shape (fresh now : string) (info : file_info) (st : option (list entry)) :
  urls_unique (get_session_history st) ->
  add_to_history fresh now info st =
  if truthy_url (fi_normalized_url info)
  then (new_entry (match find (same_url (fi_normalized_url info)) (get_session_history st) with
                   | Some old => e_id old | None => fresh end) now info,
        new_entry (match find (same_url (fi_normalized_url info)) (get_session_history st) with
                   | Some old => e_id old | None => fresh end) now info
        :: filter (fun y => negb (same_url (fi_normalized_url info) y)) (get_session_history st))
  else (new_entry fresh now info, new_entry fresh now info :: get_session_history st).
Proof.
  intros Hu. unfold add_to_history.
  destruct (truthy_url (fi_normalized_url info)) eqn:Ht; [|reflexivity].
  destruct (find_index (same_url (fi_normalized_url info)) (get_session_history st)) as [i|] eqn:Ei.
  - destruct (pop_unique _ _ i Ht Hu Ei) as (x & H1 & H2 & H3). rewrite H1, H2, H3. reflexivity.
  - rewrite (find_index_none _ _ Ei). rewrite filter_negb_all; [reflexivity|].
    apply find_none_all. exact (find_index_none _ _ Ei).
Qed.

(** Ids of the history after [add_to_history]: the returned entry's id
    occurs in no other entry. *)
Lemma add_ids (fresh now : string) (info : file_info) (st : option (list entry)) :
  ids_unique (get_session_history st) -> ~ In fresh (map e_id (get_session_history st)) ->
  let rest := if truthy_url (fi_normalized_url info)
              then filter (fun y => negb (same_url (fi_normalized_url info) y)) (get_session_history st)
              else get_session_history st in
  ids_unique rest /\
  ~ In (if truthy_url (fi_normalized_url info)
        then match find (same_url (fi_normalized_url info)) (get_session_history st) with
             | Some old => e_id old | None => fresh end
        else fresh) (map e_id rest).
Proof.
  intros Hid Hf. cbv zeta. set (h := get_session_history st) in *. set (nu := fi_normalized_url info).
  destruct (truthy_url nu); [|split; assumption].
  split; [apply nodup_map_filter; exact Hid|].
  destruct (find (same_url nu) h) as [old|] eqn:Ef.
  - intros Hin. apply in_map_iff in Hin as (y & Hy & Hin). apply filter_In in Hin as [Hin Hn].
    apply find_some in Ef as [Hold Es].
    assert (y = old) by exact (Downloads.nodup_map_inj e_id h y old Hid Hin Hold Hy). subst y.
    rewrite Es in Hn. discriminate.
  - intros Hin. apply Hf. apply in_map_iff in Hin as (y & Hy & Hin). apply filter_In in Hin as [Hin _].
    rewrite <- Hy. apply in_map. exact Hin.
Qed.

Lemma filter_id_notin (e : entry) (l : list entry) :
  ~ In (e_id e) (map e_id l) ->
  filter (fun f => negb (String.eqb (e_id f) (e_id e))) (e :: l) = l.
Proof.
  intros Hn. cbn [filter]. rewrite String.eqb_refl. cbn [negb]. apply filter_negb_all.
  intros y Hy. apply String.eqb_neq. intros He. apply Hn. rewrite <- He. apply in_map. exact Hy.
Qed.

End History.

Arguments FileInfo {F}.
Arguments Entry {F}.
Arguments fi_normalized_url {F}.
Arguments fi_fields {F}.
Arguments e_id {F}.
Arguments e_fields {F}.
Arguments e_added_at {F}.
Arguments e_normalized_url {F}.
Arguments same_url {F}.
Arguments find_index {F}.
Arguments pop {F}.
Arguments get_session_history {F}.
Arguments new_entry {F}.
Arguments add_to_history {F}.
Arguments remove_from_history {F}.
Arguments linked {F}.
Arguments urls_unique {F}.
Arguments ids_unique {F}.

Lemma urls_unique_filter {F : Type} (q : entry F -> bool) (h : list (entry F)) :
  urls_unique h -> urls_unique (filter q h).
Proof.
  unfold urls_unique, linked. intros H.
  rewrite Downloads.filter_filter_and.
  rewrite (filter_ext (fun x => q x && truthy_url (e_normalized_url x))
                      (fun x => truthy_url (e_normalized_url x) && q x))
    by (intros x; apply andb_comm).
  rewrite <- Downloads.filter_filter_and. apply nodup_map_filter. exact H.
Qed.

(** X11: [add_to_history] puts the new entry first.  When the entry's
    [normalized_url] is truthy, the entry of that url already in the
    history (if any) is taken out and its id kept; otherwise a new id is
    used and the history is only extended, duplicates included.  The entry
    carries the given fields, [now] and the [normalized_url]. *)
Theorem add_to_history_dedup {F : Type} (fresh now : string) (info : file_info F)
    (st : option (list (entry F))) :
  urls_unique (get_session_history st) ->
  let '(e, h') := add_to_history fresh now info st in
  h' = e :: (if truthy_url (fi_normalized_url info)
             then filter (fun y => negb (same_url (fi_normalized_url info) y)) (get_session_history st)
             else get_session_history st) /\
  e_id e = (if truthy_url (fi_normalized_url info)
            then match find (same_url (fi_normalized_url info)) (get_session_history st) with
                 | Some old => e_id old | None => fresh end
            else fresh) /\
  e_fields e = fi_fields info /\ e_added_at e = now /\ e_normalized_url e = fi_normalized_url info.
Proof.
  intros Hu. rewrite (add_shape F fresh now info st Hu).
  destruct (truthy_url (fi_normalized_url info)); cbn [e_id e_fields e_added_at e_normalized_url new_entry];
    repeat split.
Qed.

(** X12: the history keeps one entry per truthy [normalized_url] and
    unique ids: [add_to_history] (with a new id not already in the
    history) and [remove_from_history] preserve both. *)
Theorem history_invariants {F : Type} (fresh now : string) (info : file_info F)
    (st : option (list (entry F))) (file_id : string) :
  urls_unique (get_session_history st) -> ids_unique (get_session_history st) ->
  ~ In fresh (map e_id (get_session_history st)) ->
  urls_unique (snd (add_to_history fresh now info st)) /\
  ids_unique (snd (add_to_history fresh now info st)) /\
  (forall h', snd (remove_from_history file_id st) = Some h' -> urls_unique h' /\ ids_unique h').
Proof.
  intros Hu Hid Hf. pose proof (add_ids F fresh now info st Hid Hf) as Ha. cbv zeta in Ha.
  split; [|split].
  - rewrite (add_shape F fresh now info st Hu).
    destruct (truthy_url (fi_normalized_url info)) eqn:Ht; cbn [snd]; unfold urls_unique, linked;
      cbn [filter new_entry e_normalized_url]; rewrite Ht.
    + cbn [map]. constructor; [|apply urls_unique_filter; exact Hu].
      destruct (fi_normalized_url info) as [s|] eqn:Es; [|discriminate].
      intros Hin. apply in_map_iff in Hin as (y & Hy & Hin).
      apply filter_In in Hin as [Hin _]. apply filter_In in Hin as [_ Hn].
      cbn [new_entry e_normalized_url] in Hy. rewrite Es in Hy.
      unfold same_url in Hn. rewrite Hy, String.eqb_refl in Hn. discriminate.
    + exact Hu.
  - rewrite (add_shape F fresh now info st Hu). destruct Ha as [Ha1 Ha2].
    destruct (truthy_url (fi_normalized_url info)); cbn [snd]; unfold ids_unique; cbn [map];
      constructor; assumption.
  - intros h'. destruct st as [h|]; cbn [remove_from_history snd]; [|discriminate].
    intros E. injection E as <-. split.
    + apply urls_unique_filter. exact Hu.
    + apply nodup_map_filter. exact Hid.
Qed.

(** X13: removing, with [remove_from_history], the entry that
    [add_to_history] has just returned gives back the history as it was
    before the add, less the entry of the same truthy [normalized_url]
    that the add replaced. *)
Theorem add_then_remove {F : Type} (fresh now : string) (info : file_info F)
    (st : option (list (entry F))) :
  urls_unique (get_session_history st) -> ids_unique (get_session_history st) ->
  ~ In fresh (map e_id (get_session_history st)) ->
  let '(e, h') := add_to_history fresh now info st in
  remove_from_history (e_id e) (Some h') =
  (true, Some (if truthy_url (fi_normalized_url info)
               then filter (fun y => negb (same_url (fi_normalized_url info) y)) (get_session_history st)
               else get_session_history st)).
Proof.
  intros Hu Hid Hf. pose proof (add_ids F fresh now info st Hid Hf) as Ha. cbv zeta in Ha.
  rewrite (add_shape F fresh now info st Hu). destruct Ha as [_ Ha].
  destruct (truthy_url (fi_normalized_url info)); cbn [remove_from_history];
    rewrite filter_id_notin by exact Ha; reflexivity.
Qed.

Local Open Scope string_scope.

Definition sample_history : list (entry unit) :=
  [Entry "id1" tt "t1" (Some "https://a"); Entry "id2" tt "t2" None;
   Entry "id3" tt "t3" (Some "https://b"); Entry "id4" tt "t4" (Some "")].

Definition sample_info : file_info unit := FileInfo (Some "https://b") tt.

Lemma sample_history_urls : urls_unique sample_history.
Proof. unfold urls_unique. vm_compute. repeat constructor; cbn; intuition discriminate. Qed.

Lemma sample_history_ids : ids_unique sample_history.
Proof. unfold ids_unique. vm_compute. repeat constructor; cbn; intuition discriminate. Qed.

Lemma sample_fresh : ~ In "id9" (map e_id sample_history).
Proof. vm_compute. intuition discriminate. Qed.

Lemma add_to_history_dedup_witness :
  urls_unique sample_history /\
  (let '(e, h') := add_to_history "id9" "t9" sample_info (Some sample_history) in
   h' = e :: (if truthy_url (fi_normalized_url sample_info)
              then filter (fun y => negb (same_url (fi_normalized_url sample_info) y)) sample_history
              else sample_history) /\
   e_id e = (if truthy_url (fi_normalized_url sample_info)
             then match find (same_url (fi_normalized_url sample_info)) sample_history with
                  | Some old => e_id old | None => "id9" end
             else "id9") /\
   e_fields e = fi_fields sample_info /\ e_added_at e = "t9" /\
   e_normalized_url e = fi_normalized_url sample_info).
Proof.
  split; [exact sample_history_urls|].
  exact (add_to_history_dedup "id9" "t9" sample_info (Some sample_history) sample_history_urls).
Defined.

Lemma history_invariants_witness :
  urls_unique (snd (add_to_history "id9" "t9" sample_info (Some sample_history))) /\
  ids_unique (snd (add_to_history "id9" "t9" sample_info (Some sample_history))) /\
  (forall h', snd (remove_from_history "id1" (Some sample_history)) = Some h' ->
              urls_unique h' /\ ids_unique h').
Proof.
  exact (history_invariants "id9" "t9" sample_info (Some sample_history) "id1"
           sample_history_urls sample_history_ids sample_fresh).
Defined.

Lemma add_then_remove_witness :
  (let '(e, h') := add_to_history "id9" "t9" sample_info (Some sample_history) in
   remove_from_history (e_id e) (Some h') =
   (true, Some (if truthy_url (fi_normalized_url sample_info)
                then filter (fun y => negb (same_url (fi_normalized_url sample_info) y)) sample_history
                else sample_history))) /\
  add_to_history "id9" "t9" sample_info (Some sample_history) =
  (Entry "id3" tt "t9" (Some "https://b"),
   [Entry "id3" tt "t9" (Some "https://b"); Entry "id1" tt "t1" (Some "https://a");
    Entry "id2" tt "t2" None; Entry "id4" tt "t4" (Some "")]).
Proof.
  split; [|reflexivity].
  exact (add_then_remove "id9" "t9" sample_info (Some sample_history)
           sample_history_urls sample_history_ids sample_fresh).
Defined.

End History.
